(** * Parallel reduction benchmark (main.cpp): a shallow embedding

    The C++ source integrates [f] over [[a, b]] with a left Riemann sum of
    [STEPS] samples, split over [T] workers by a strided loop, and compares
    several ways of combining the workers' partial sums.  This file embeds
    the loops, the integrators, the benchmark driver, the padded slot layout
    and the sibling linear-congruential generator, and proves properties of
    them. *)

From Stdlib Require Import ZArith List Lia Bool Permutation Arith.
From Stdlib Require Import QArith Qcanon.
From Stdlib Require Import Floats.
From Stdlib Require Import Reals Lra.
Import ListNotations.

#[local] Open Scope Z_scope.

(** ** Constants of the source (the [#define]s) *)

Definition STEPS : Z := 100000000.
Definition CACHE_LINE : Z := 64.
Definition MIN : Z := 1.
Definition MAX : Z := 300.
Definition SEED : Z := 100.

(** ** Machine integers

    [unsigned] is 32 bits wide and wraps; [int] is 32 bits wide, and the
    conversion of an out-of-range [unsigned] to [int] is modular. *)

Inductive ctype : Type := U32 | S32.

Definition wrap (k : ctype) (z : Z) : Z :=
  match k with
  | U32 => z mod 2 ^ 32
  | S32 => (z + 2 ^ 31) mod 2 ^ 32 - 2 ^ 31
  end.

(** The first value a counter of type [k] cannot hold. *)
Definition limit (k : ctype) : Z :=
  match k with
  | U32 => 2 ^ 32
  | S32 => 2 ^ 31
  end.

Definition INT_MAX : Z := 2 ^ 31 - 1.

Definition u64 (z : Z) : Z := z mod 2 ^ 64.

(** ** Outcomes and the state-and-error monad

    A run returns, hits undefined behaviour, or is still running when the
    fuel of the model is used up. *)

Inductive fault : Type := NullDeref | OutOfBounds | SignedOverflow.

Inductive outcome (A : Type) : Type :=
| Done (a : A)
| Undefined (u : fault)
| OutOfFuel.

Arguments Done {A} a.
Arguments Undefined {A} u.
Arguments OutOfFuel {A}.

Definition is_returned {A} (o : outcome A) : bool :=
  match o with Done _ => true | _ => false end.

Definition M (W A : Type) : Type := W -> outcome (A * W).

Definition ret {W A} (a : A) : M W A := fun w => Done (a, w).

Definition bind {W A B} (m : M W A) (k : A -> M W B) : M W B :=
  fun w =>
    match m w with
    | Done (a, w') => k a w'
    | Undefined u => Undefined u
    | OutOfFuel => OutOfFuel
    end.

Definition fail {W A} (u : fault) : M W A := fun _ => Undefined u.
Definition timeout {W A} : M W A := fun _ => OutOfFuel.

Declare Scope monad_scope.
Delimit Scope monad_scope with monad.
Notation "x <- c1 ;; c2" := (bind c1 (fun x => c2))
  (at level 61, c1 at next level, right associativity) : monad_scope.
Notation "c1 ;;; c2" := (bind c1 (fun _ => c2))
  (at level 61, right associativity) : monad_scope.
#[local] Open Scope monad_scope.

(** The value of a run, without the final state. *)
Definition value_of {A W} (o : outcome (A * W)) : outcome A :=
  match o with
  | Done (a, _) => Done a
  | Undefined u => Undefined u
  | OutOfFuel => OutOfFuel
  end.

(** A loop over the elements of a list, threading the loop state. *)
Fixpoint foldM {W S X} (body : X -> S -> M W S) (l : list X) (s : S) : M W S :=
  match l with
  | [] => ret s
  | x :: l' => s' <- body x s ;; foldM body l' s'
  end.

(** ** The strided loop

    [for (k i = t; i < N; i += T) body(i)]: every strategy's worker loop, and
    with [T = 1] and [t = 0] the plain counting loop. *)

Fixpoint strided_for {W S} (k : ctype) (fuel : nat) (T N i : Z)
         (body : Z -> S -> M W S) (s : S) : M W S :=
  if i <? N then
    match fuel with
    | O => timeout
    | S fuel' =>
        s' <- body i s ;; strided_for k fuel' T N (wrap k (i + T)) body s'
    end
  else ret s.

(** The indices worker [t] visits, in the order it visits them. *)
Definition worker_indices (k : ctype) (fuel : nat) (T N t : Z) : outcome (list Z) :=
  value_of (strided_for k fuel T N t (fun i l => ret (l ++ [i])) [] tt).

(** The arithmetic progression [i, i + T, i + 2T, ...] below [N]. *)
Definition count (T N i : Z) : nat := Z.to_nat ((N - i + T - 1) / T).

Definition strided (T N i : Z) : list Z :=
  map (fun j => i + Z.of_nat j * T) (seq 0 (count T N i)).

(** [0, 1, ..., n - 1]. *)
Definition upto (n : Z) : list Z := map Z.of_nat (seq 0 (Z.to_nat n)).

(** The worker ids of a team of [T]. *)
Definition workers (T : Z) : list Z := upto T.

(** The threads of a [#pragma omp parallel] region entered while
    [get_num_threads()] is [T]: an OpenMP team is never empty, so with
    [T = 0] thread 0 still runs the region. *)
Definition team (T : Z) : list Z := workers (Z.max 1 T).

(** Which worker reaches a combine step next is the scheduler's choice:
    each element of [choices] picks one of the workers still pending. Every
    list of choices gives an order in which each pending worker runs once. *)
Fixpoint schedule {X} (choices : list nat) (pending : list X) : list X :=
  match choices, pending with
  | _, [] => []
  | [], _ => pending
  | c :: cs, p :: _ =>
      let k := (c mod length pending)%nat in
      nth k pending p :: schedule cs (firstn k pending ++ skipn (S k) pending)
  end.

(** ** The number type

    The source computes in [double]. The integrators are written once over
    the operations they use, and read at binary64 floats or at the
    rationals. *)

Class Arith (F : Type) : Type := {
  fzero : F;
  fadd : F -> F -> F;
  fsub : F -> F -> F;
  fmul : F -> F -> F;
  fdiv : F -> F -> F;
  of_int : Z -> F
}.

(** binary64, the kernel's primitive floats. *)
#[export] Instance float_arith : Arith float := {
  fzero := PrimFloat.zero;
  fadd := PrimFloat.add;
  fsub := PrimFloat.sub;
  fmul := PrimFloat.mul;
  fdiv := PrimFloat.div;
  of_int z :=
    if z <? 0 then PrimFloat.opp (PrimFloat.of_uint63 (Uint63.of_Z (- z)))
    else PrimFloat.of_uint63 (Uint63.of_Z z)
}.

(** Exact arithmetic: the rationals in canonical form. *)
#[export] Instance Qc_arith : Arith Qc := {
  fzero := Q2Qc 0;
  fadd := Qcplus;
  fsub := Qcminus;
  fmul := Qcmult;
  fdiv := Qcdiv;
  of_int z := Q2Qc (inject_Z z)
}.

(** The laws of exact arithmetic that the order of a summation rests on. *)
Class Exact (F : Type) {AF : Arith F} : Prop := {
  fadd_assoc : forall x y z : F, fadd x (fadd y z) = fadd (fadd x y) z;
  fadd_comm : forall x y : F, fadd x y = fadd y x;
  fadd_zero_l : forall x : F, fadd fzero x = x;
  fmul_comm : forall x y : F, fmul x y = fmul y x
}.

(** ** Arrays indexed by a machine integer; an access out of range is
    undefined behaviour. *)

Definition lookupZ {X} (l : list X) (i : Z) : option X :=
  if i <? 0 then None else nth_error l (Z.to_nat i).

Fixpoint update {X} (l : list X) (n : nat) (x : X) : list X :=
  match l, n with
  | [], _ => []
  | _ :: l', O => x :: l'
  | y :: l', S n' => y :: update l' n' x
  end.

Definition read {W X} (l : list X) (i : Z) : M W X :=
  match lookupZ l i with
  | Some x => ret x
  | None => fail OutOfBounds
  end.

Definition write {W X} (l : list X) (i : Z) (x : X) : M W (list X) :=
  match lookupZ l i with
  | Some _ => ret (update l (Z.to_nat i) x)
  | None => fail OutOfBounds
  end.

(** A pointer to an array is null or holds the array's cells. *)
Definition deref {W X} (p : option (list X)) : M W (list X) :=
  match p with
  | Some l => ret l
  | None => fail NullDeref
  end.

(** ** The integrators *)

Section Integrators.
Context {F : Type} {AF : Arith F}.

(** What a run leaves behind besides its value: the calls of the
    integrand (loop index and argument, in the order of the model's
    execution) and the [std::thread] objects created (by worker id). *)
Record World : Type := {
  evals : list (Z * F);
  spawned : list Z
}.

Definition start : World := {| evals := []; spawned := [] |}.

Definition call_f (f : F -> F) (i : Z) (x : F) : M World F :=
  fun w => Done (f x, {| evals := evals w ++ [(i, x)]; spawned := spawned w |}).

Definition spawn (t : Z) : M World unit :=
  fun w => Done (tt, {| evals := evals w; spawned := spawned w ++ [t] |}).

(** The sample count: the macro [STEPS] of the source. *)
Variable N : Z.

Variables (a b : F) (f : F -> F).

(** [dx = (b - a) / STEPS] *)
Definition dx : F := fdiv (fsub b a) (of_int N).

(** [i * dx + a] and [dx * i + a]: the two spellings of the sample point. *)
Definition sample1 (i : Z) : F := fadd (fmul (of_int i) dx) a.
Definition sample2 (i : Z) : F := fadd (fmul dx (of_int i)) a.

(** [R += f(i * dx + a)] *)
Definition accumulate (sample : Z -> F) (i : Z) (R : F) : M World F :=
  v <- call_f f i (sample i) ;; ret (fadd R v).

Definition integrateDefault (fuel : nat) : M World F :=
  result <- strided_for U32 fuel 1 N 0 (accumulate sample1) fzero ;;
  ret (fmul result dx).

(** A worker's private sum [R], then [result += R] in the combine step. *)
Definition private_then_combine (fuel : nat) (T t : Z) (result : F) : M World F :=
  R <- strided_for U32 fuel T N t (accumulate sample1) fzero ;;
  ret (fadd result R).

(** [#pragma omp parallel]: every thread of the team strides by
    [T = get_num_threads()]; the critical sections run in the order the
    scheduler picks. *)
Definition integrateCrit (fuel : nat) (T : Z) (choices : list nat) : M World F :=
  result <- foldM (private_then_combine fuel T) (schedule choices (team T)) fzero ;;
  ret (fmul result dx).

(** [threads.emplace_back(...)] in a counting loop from [from]. *)
Definition spawn_threads (k : ctype) (fuel : nat) (from T : Z) : M World (list Z) :=
  strided_for k fuel 1 T from (fun t threads => spawn t ;;; ret (threads ++ [t])) [].

Definition integrateMutex (fuel : nat) (T : Z) (choices : list nat) : M World F :=
  threads <- spawn_threads U32 fuel 0 T ;;
  result <- foldM (private_then_combine fuel T) (schedule choices threads) fzero ;;
  ret (fmul result dx).

(** [accum[t] += f(dx * i + a)] through the pointer [accum]. *)
Definition slot_accumulate (t i : Z) (accum : option (list F)) : M World (option (list F)) :=
  v <- call_f f i (sample2 i) ;;
  cells <- deref accum ;;
  x <- read cells t ;;
  cells' <- write cells t (fadd x v) ;;
  ret (Some cells').

(** [result += accum[i]] *)
Definition slot_collect (accum : option (list F)) (i : Z) (result : F) : M World F :=
  cells <- deref accum ;;
  x <- read cells i ;;
  ret (fadd result x).

(** [calloc(T, sizeof(double))]: [heap] is the address the allocator
    returns, [None] when it fails; the cells are zeroed. *)
Definition calloc (heap : option Z) (T : Z) : option (list F) :=
  match heap with
  | Some _ => Some (repeat fzero (Z.to_nat T))
  | None => None
  end.

(** The [single] construct allocates [T = get_num_threads()] cells; every
    thread of the team then strides by [T] and adds into its own cell. *)
Definition integrateArr (fuel : nat) (T : Z) (choices : list nat) (heap : option Z) : M World F :=
  let accum := calloc heap T in
  accum <- foldM (fun t accum => strided_for U32 fuel T N t (slot_accumulate t) accum)
                 (schedule choices (team T)) accum ;;
  result <- strided_for U32 fuel 1 T 0 (slot_collect accum) fzero ;;
  ret (fmul result dx).

(** [aligned_alloc(CACHE_LINE, T * sizeof(partialSumT))] followed by
    [memset(accum, 0, ...)], which dereferences the pointer. Here [T] is
    [omp_get_num_threads()], the size of the team itself. *)
Definition aligned_alloc_memset (heap : option Z) (T : Z) : M World (option (list F)) :=
  match heap with
  | Some _ => ret (Some (repeat fzero (Z.to_nat T)))
  | None => fail NullDeref
  end.

Definition integrateArrAlign (fuel : nat) (T : Z) (choices : list nat) (heap : option Z) : M World F :=
  accum <- aligned_alloc_memset heap T ;;
  accum <- foldM (fun t accum => strided_for U32 fuel T N t (slot_accumulate t) accum)
                 (schedule choices (workers T)) accum ;;
  result <- strided_for U32 fuel 1 T 0 (slot_collect accum) fzero ;;
  ret (fmul result dx).

(** [#pragma omp parallel for reduction(+: result)]: the runtime hands
    each thread a chunk of the iterations and a private [result], and
    adds the private results to the original; [chunks] lists the chunks
    in the order they are combined. *)
Definition integrateReduction (chunks : list (list Z)) : M World F :=
  result <- foldM (fun chunk result =>
                     R <- foldM (accumulate sample2) chunk fzero ;;
                     ret (fadd result R)) chunks fzero ;;
  ret (fmul result dx).

(** [vec[t].val += f(dx * i + a)] on the vector [vec]. *)
Definition threadProc (fuel : nat) (T t : Z) (vec : list F) : M World (list F) :=
  strided_for S32 fuel T N t
    (fun i vec =>
       v <- call_f f i (sample2 i) ;;
       x <- read vec t ;;
       write vec t (fadd x v)) vec.

Definition integratePS (fuel : nat) (T : Z) (choices : list nat) : M World F :=
  let vec := repeat fzero (Z.to_nat T) in
  threads <- spawn_threads S32 fuel 1 T ;;
  vec <- foldM (threadProc fuel T) (schedule choices (threads ++ [0])) vec ;;
  result <- foldM (fun elem result => ret (fadd result elem)) vec fzero ;;
  ret (fmul result dx).

Definition integrateAtomic (fuel : nat) (T : Z) (choices : list nat) : M World F :=
  threads <- spawn_threads U32 fuel 1 T ;;
  result <- foldM (private_then_combine fuel T) (schedule choices (threads ++ [0])) fzero ;;
  ret (fmul result dx).

End Integrators.

Arguments World F : clear implicits.

(** ** The benchmark driver *)

Section Driver.
Context {F : Type} {AF : Arith F}.

Record ExperimentResult : Type := {
  result : F;
  time : F
}.

(** The driver's surroundings: the configured thread count, the number of
    clock readings taken so far, the thread counts the integrator was run
    with, and the rows printed (result, time, acceleration). *)
Record Bench : Type := {
  num_threads : Z;
  ticks : nat;
  runs : list Z;
  printed : list (F * F * F)
}.

Definition boot : Bench :=
  {| num_threads := 0; ticks := O; runs := []; printed := [] |}.

(** [clock k] is the [k]-th reading of [omp_get_wtime]; [I T] is what the
    integrator under test does when the configured thread count is [T]. *)
Variable clock : nat -> F.
Variable I : Z -> outcome F.

Definition set_num_threads (T : Z) : M Bench unit :=
  fun w => Done (tt, {| num_threads := T; ticks := ticks w;
                        runs := runs w; printed := printed w |}).

Definition omp_get_wtime : M Bench F :=
  fun w => Done (clock (ticks w),
                 {| num_threads := num_threads w; ticks := S (ticks w);
                    runs := runs w; printed := printed w |}).

Definition invoke : M Bench F :=
  fun w =>
    match I (num_threads w) with
    | Done v => Done (v, {| num_threads := num_threads w; ticks := ticks w;
                            runs := runs w ++ [num_threads w];
                            printed := printed w |})
    | Undefined u => Undefined u
    | OutOfFuel => OutOfFuel
    end.

Definition printf (row : F * F * F) : M Bench unit :=
  fun w => Done (tt, {| num_threads := num_threads w; ticks := ticks w;
                        runs := runs w; printed := printed w ++ [row] |}).

Definition runExperiment : M Bench ExperimentResult :=
  t0 <- omp_get_wtime ;;
  r <- invoke ;;
  t1 <- omp_get_wtime ;;
  ret {| result := r; time := fsub t1 t0 |}.

(** [for (int T = 2; T <= omp_get_num_procs(); ++T)]; overflow of the
    signed counter is undefined. *)
Fixpoint sweep (fuel : nat) (T1 : F) (T P : Z) : M Bench unit :=
  if T <=? P then
    match fuel with
    | O => timeout
    | S fuel' =>
        set_num_threads T ;;;
        r <- runExperiment ;;
        printf (result r, time r, fdiv T1 (time r)) ;;;
        if T =? INT_MAX then fail SignedOverflow else sweep fuel' T1 (T + 1) P
    end
  else ret tt.

(** [P] is [omp_get_num_procs()]. *)
Definition showExperimentResults (fuel : nat) (P : Z) : M Bench unit :=
  set_num_threads 1 ;;;
  R <- runExperiment ;;
  let T1 := time R in
  printf (result R, time R, fdiv T1 (time R)) ;;;
  sweep fuel T1 2 P.

(** The time the [k]-th run ([k] from 0) took: each run reads the clock
    twice. *)
Definition elapsed (k : nat) : F := fsub (clock (S (2 * k))) (clock (2 * k)).

End Driver.

Arguments ExperimentResult F : clear implicits.
Arguments Bench F : clear implicits.

(** [lo, lo + 1, ..., hi] *)
Definition range (lo hi : Z) : list Z := strided 1 (hi + 1) lo.

(** ** The padded slot: [struct partialSumT { alignas(64) double val; }] *)

Definition sizeof_double : Z := 8.
Definition alignof_double : Z := 8.

(** The size of a type is a multiple of its alignment. *)
Definition round_up (size align : Z) : Z := (size + align - 1) / align * align.

Definition alignof_partialSumT : Z := Z.max 64 alignof_double.
Definition sizeof_partialSumT : Z := round_up sizeof_double alignof_partialSumT.

(** [&accum[t]] for [partialSumT *accum]. *)
Definition slot_address (accum t : Z) : Z := accum + t * sizeof_partialSumT.

(** The cache line a byte address falls in. *)
Definition cache_line_of (addr : Z) : Z := addr / CACHE_LINE.

(** What [aligned_alloc(alignment, size)] promises of the pointer it
    returns. *)
Definition aligned (alignment : Z) (p : Z) : Prop := p mod alignment = 0.

(** ** The linear congruential generator *)

Definition lcg_a : Z := 6364136223846793005.
Definition lcg_b : Z := 1.

(** [(cur % (MAX - MIN + 1)) + MIN] *)
Definition scale (cur : Z) : Z := cur mod (MAX - MIN + 1) + MIN.

Section Randomizer.
Context {F : Type} {AF : Arith F}.

(** [(double)sum / (double)n] *)
Definition mean (sum n : Z) : F := fdiv (of_int sum) (of_int n).

(** One step of [randomize_arr_single]'s loop; the state is the array, the
    previous value and the running sum. *)
Definition single_step (i : Z) (s : list Z * Z * Z) : M unit (list Z * Z * Z) :=
  let '(V, prev, sum) := s in
  let cur := u64 (lcg_a * prev + lcg_b) in
  V <- write V i (scale cur) ;;
  x <- read V i ;;
  ret (V, cur, u64 (sum + x)).

Definition randomize_arr_single (fuel : nat) (V : list Z) (n : Z) : M unit (list Z * F) :=
  s <- strided_for U32 fuel 1 n 0 single_step (V, SEED, 0) ;;
  let '(V, _, sum) := s in
  ret (V, mean sum n).

(** [for (unsigned i = 1; i <= size; i++) res = res * a;] *)
Definition getA (fuel : nat) (size a : Z) : M unit Z :=
  strided_for U32 fuel 1 (size + 1) 1 (fun _ res => ret (u64 (res * a))) 1.

(** [new uint64_t(size)] allocates one cell, initialised to [size]. *)
Definition getB (fuel : nat) (size a : Z) : M unit Z :=
  let acc := [u64 size] in
  acc <- write acc 0 1 ;;
  s <- strided_for U32 fuel 1 (size + 1) 1
         (fun i (s : list Z * Z) =>
            acc <- strided_for U32 fuel 1 i 0
                     (fun j acc => x <- read acc j ;; write acc i (u64 (x * a)))
                     (fst s) ;;
            y <- read acc i ;;
            ret (acc, u64 (snd s + y)))
         (acc, 1) ;;
  ret (snd s).

(** One step of a worker's loop in [randomize_arr_fs]; the state is the
    array and the worker's previous value. *)
Definition fs_step (fuel : nat) (LUTA LUTB t i : Z) (s : list Z * Z) : M unit (list Z * Z) :=
  let '(V, prev) := s in
  cur <- (if i =? t then
            ga <- getA fuel (wrap U32 (i + 1)) lcg_a ;;
            gb <- getB fuel i lcg_a ;;
            ret (u64 (ga * prev + u64 (gb * lcg_b)))
          else ret (u64 (LUTA * prev + LUTB))) ;;
  V <- write V i (scale cur) ;;
  ret (V, cur).

Definition fs_worker (fuel : nat) (T n LUTA LUTB t : Z) (V : list Z) : M unit (list Z) :=
  s <- strided_for U32 fuel T n t (fs_step fuel LUTA LUTB t) (V, SEED) ;;
  ret (fst s).

Definition randomize_arr_fs (fuel : nat) (T : Z) (choices : list nat)
           (V : list Z) (n : Z) : M unit (list Z * F) :=
  LUTA <- getA fuel T lcg_a ;;
  gb <- getB fuel (wrap U32 (T - 1)) lcg_a ;;
  let LUTB := u64 (gb * lcg_b) in
  V <- foldM (fs_worker fuel T n LUTA LUTB) (schedule choices (team T)) V ;;
  sum <- strided_for U32 fuel 1 n 0 (fun i sum => x <- read V i ;; ret (u64 (sum + x))) 0 ;;
  ret (V, mean sum n).

End Randomizer.

(** ** binary64: the values the proofs single out *)


(** ** The strategies under one name *)

Inductive strategy : Type :=
| Default | Crit | Mutex | Arr | ArrAlign | Reduction | PS | Atomic.

(** A run of a strategy is fixed by the sample count, the bounds and the
    integrand, and by its surroundings: the fuel of the model, the worker
    count [T] (what [get_num_threads()] returns, and the size of the OpenMP
    team), the scheduler's choices, the allocator's answer and the chunks of
    the worksharing loop. *)
Definition integrate {F} {AF : Arith F} (s : strategy) (N : Z) (a b : F) (f : F -> F)
           (fuel : nat) (T : Z) (choices : list nat) (heap : option Z)
           (chunks : list (list Z)) : M (World F) F :=
  match s with
  | Default => integrateDefault N a b f fuel
  | Crit => integrateCrit N a b f fuel T choices
  | Mutex => integrateMutex N a b f fuel T choices
  | Arr => integrateArr N a b f fuel T choices heap
  | ArrAlign => integrateArrAlign N a b f fuel T choices heap
  | Reduction => integrateReduction N a b f chunks
  | PS => integratePS N a b f fuel T choices
  | Atomic => integrateAtomic N a b f fuel T choices
  end.

(** The sum of a list of numbers, and the left Riemann sum the
    specification describes: the sum of [f (a + i * dx)] over
    [i = 0 .. N-1], times [dx]. *)
Definition sum_list {F} {AF : Arith F} (l : list F) : F := fold_right fadd fzero l.

Definition left_riemann_sum {F} {AF : Arith F} (N : Z) (a b : F) (f : F -> F) : F :=
  fmul (sum_list (map (fun i => f (fadd a (fmul (of_int i) (dx N a b)))) (upto N)))
       (dx N a b).

(** The integrand calls of the specification: index [i] with argument
    [a + i * dx]. *)
Definition sample_points {F} {AF : Arith F} (N : Z) (a b : F) : list (Z * F) :=
  map (fun i => (i, fadd a (fmul (of_int i) (dx N a b)))) (upto N).

(** A world with more integrand calls logged. *)
Definition logged {F} (w : World F) (l : list (Z * F)) : World F :=
  {| evals := evals w ++ l; spawned := spawned w |}.

(** A world with more threads created. *)
Definition forked {F} (w : World F) (l : list Z) : World F :=
  {| evals := evals w; spawned := spawned w ++ l |}.

(** The per-worker slots once the workers of [done] have finished: worker
    [t]'s slot holds its partial sum [P t], the others are still zero. *)
Definition slots {F} {AF : Arith F} (T : Z) (P : Z -> F) (done : list Z) : list F :=
  map (fun t => if existsb (Z.eqb t) done then P t else fzero) (upto T).

(** ** The integrand and the bounds of the benchmark

    [double f(double x) { return x * x; }], [#define A -1], [#define B 1]. *)

Definition f {F} {AF : Arith F} (x : F) : F := fmul x x.
Definition A {F} {AF : Arith F} : F := of_int (-1).
Definition B {F} {AF : Arith F} : F := of_int 1.

(** [I(A, B, f)] for the strategy [s], as the driver runs it with [T]
    threads configured. *)
Definition experiment {F} {AF : Arith F} (s : strategy) (fuel : nat)
           (choices : list nat) (heap : option Z) (chunks : list (list Z))
           (T : Z) : outcome F :=
  value_of (integrate s STEPS A B f fuel T choices heap chunks start).

(** ** The real value of a double

    The value of a binary64 number as a real, for the numerical claim
    about the benchmark: [m * 2^e] for a finite number with mantissa [m]
    and exponent [e]. *)

Definition bpow (e : Z) : R := powerRZ 2 e.
Definition F2R (m e : Z) : R := (IZR m * bpow e)%R.
Definition SF2R (x : spec_float) : R :=
  match x with
  | S754_finite s m e => F2R (cond_Zopp s (Zpos m)) e
  | _ => 0%R
  end.
Definition is_finite_SF (x : spec_float) : bool :=
  match x with
  | S754_zero _ | S754_finite _ _ _ => true
  | _ => false
  end.
Definition B2R (x : float) : R := SF2R (Prim2SF x).
Definition finite (x : float) : Prop := is_finite_SF (Prim2SF x) = true.

(** The unit roundoff and the largest underflow error of binary64. *)
Definition u64r : R := bpow (- prec).
Definition eta : R := bpow (emin - 1).

(** What the round and sticky bits say about the bits shifted out. *)
Definition rest_ok (k : Z) (m0 : Z) (mrs : shr_record) : Prop :=
  shr_m mrs = m0 / 2 ^ k /\
  match shr_r mrs, shr_s mrs with
  | false, false => m0 mod 2 ^ k = 0
  | false, true => 0 < m0 mod 2 ^ k < 2 ^ (k - 1)
  | true, false => m0 mod 2 ^ k = 2 ^ (k - 1)
  | true, true => 2 ^ (k - 1) < m0 mod 2 ^ k
  end.

(** [dx] of the benchmark, as a double. *)
Definition dxf : float := dx STEPS A B.

(** The sum of a list of reals. *)
Definition Rsum (l : list R) : R := fold_right Rplus 0%R l.

(** The private sum of one worker over the doubles [v i], and the real
    sum of the same terms. *)
Definition private_sum (v : Z -> float) (part : list Z) : float :=
  fold_left (fun R i => fadd R (v i)) part fzero.

Definition Rsum_over (v : Z -> float) (l : list Z) : R := Rsum (map (fun i => B2R (v i)) l).

Definition nonneg_on (v : Z -> float) (l : list Z) : Prop :=
  forall i, In i l -> finite (v i) /\ (0 <= B2R (v i))%R.

(** [S] is the sum [E] up to [D] rounded accumulations of nonnegative terms. *)
Definition within (S : float) (E : R) (D : nat) : Prop :=
  finite S /\ (E * (1 - u64r) ^ D <= B2R S <= E * (1 + u64r) ^ D)%R.

(** ** An integrand of mixed sign

    [x == 0 ? 0x1p60 : x == 1 ? 1 : x == 2 ? -0x1p60 : 0]: with the
    bounds [0] and [STEPS] the sample points are the integers, and the
    three nonzero samples cancel or not with the order of the additions. *)
Definition big : float := 0x1p60%float.

Definition cancelling (x : float) : float :=
  if PrimFloat.eqb x 0%float then big
  else if PrimFloat.eqb x 1%float then 1%float
  else if PrimFloat.eqb x 2%float then PrimFloat.opp big
  else 0%float.

(** ** The Fibonacci benchmark *)

(** [unsigned Fibonacci(unsigned n)]: two recursive calls, the sum in
    32-bit unsigned arithmetic. *)
Fixpoint Fibonacci {W} (fuel : nat) (n : Z) : M W Z :=
  if n <=? 2 then ret 1
  else
    match fuel with
    | O => timeout
    | S fuel' =>
        x1 <- Fibonacci fuel' (wrap U32 (n - 1)) ;;
        x2 <- Fibonacci fuel' (wrap U32 (n - 2)) ;;
        ret (wrap U32 (x1 + x2))
    end.

(** The tasks of [FibonacciNew]: the argument of every task body that has
    started, in the order they started, and the decisions the runtime still
    has to take (which of two sibling tasks runs first; the first one when
    the list is used up). *)
Record Tasks : Type := {
  started : list Z;
  decisions : list bool
}.

Definition task_begin (n : Z) : M Tasks unit :=
  fun w => Done (tt, {| started := started w ++ [n]; decisions := decisions w |}).

Definition next_decision : M Tasks bool :=
  fun w =>
    match decisions w with
    | [] => Done (false, w)
    | d :: ds => Done (d, {| started := started w; decisions := ds |})
    end.

(** [unsigned FibonacciNew(unsigned n)]: each recursive call is the body
    of an OpenMP task writing its own shared variable; [taskwait] returns
    when both have run. *)
Fixpoint FibonacciNew (fuel : nat) (n : Z) : M Tasks Z :=
  if n <=? 2 then ret 1
  else
    match fuel with
    | O => timeout
    | S fuel' =>
        let task1 := task_begin (wrap U32 (n - 1)) ;;; FibonacciNew fuel' (wrap U32 (n - 1)) in
        let task2 := task_begin (wrap U32 (n - 2)) ;;; FibonacciNew fuel' (wrap U32 (n - 2)) in
        second_first <- next_decision ;;
        if second_first : bool then
          x2 <- task2 ;; x1 <- task1 ;; ret (wrap U32 (x1 + x2))
        else
          x1 <- task1 ;; x2 <- task2 ;; ret (wrap U32 (x1 + x2))
    end.

(** The Fibonacci numbers [0, 1, 1, 2, 3, 5, ...]. *)
Fixpoint fib_pair (n : nat) : Z * Z :=
  match n with
  | O => (0, 1)
  | S n' => let '(a, b) := fib_pair n' in (b, a + b)
  end.

Definition fib (n : nat) : Z := fst (fib_pair n).

(** ** The Fibonacci experiment

    The conversion of an [unsigned] result to [double]. *)
Definition to_double {F} {AF : Arith F} (o : outcome Z) : outcome F :=
  match o with
  | Done v => Done (of_int v)
  | Undefined u => Undefined u
  | OutOfFuel => OutOfFuel
  end.

Section FibonacciDriver.
Context {F : Type} {AF : Arith F}.
Variable clock : nat -> F.
Variable order : list bool.
Variable fuel_fib : nat.

(** [result = FibonacciNew(30)] between two readings of the clock. *)
Definition runExperimentFib : M (Bench F) (ExperimentResult F) :=
  runExperiment clock
    (fun _ => to_double
                (value_of (FibonacciNew fuel_fib 30 {| started := []; decisions := order |}))).

Definition experimentFibonacci (fuel : nat) (P : Z) : M (Bench F) unit :=
  set_num_threads 1 ;;;
  R <- runExperimentFib ;;
  let T1 := time R in
  printf (result R, time R, fdiv T1 (time R)) ;;;
  sweep clock
        (fun _ => to_double
                    (value_of (FibonacciNew fuel_fib 30 {| started := []; decisions := order |})))
        fuel T1 2 P.

End FibonacciDriver.

(** ** The sequence of the generator

    The states of the generator: [x_0 = SEED] and
    [x_(k+1) = a * x_k + b] in 64-bit unsigned arithmetic. *)
Fixpoint lcg (k : nat) : Z :=
  match k with
  | O => SEED
  | S k' => u64 (lcg_a * lcg k' + lcg_b)
  end.

(** The numbers the generator stores at the indices [k, k + 1, ...,
    k + m - 1]. *)
Definition lcg_values (k m : nat) : list Z := map (fun j => scale (lcg (S j))) (seq k m).

Definition Zsum (l : list Z) : Z := fold_right Z.add 0 l.

(** ** The randomizer experiment *)

Section RandomizeDriver.
Context {F : Type} {AF : Arith F}.
Variable clock : nat -> F.

(** The generator under test, [r_t f], as it behaves when [T] threads are
    configured. *)
Variable f : Z -> list Z -> Z -> M unit (list Z * F).

(** What the stack array [unsigned Array[ArrayLength]] holds when it is
    handed over: nothing initialises it. *)
Variable Array : list Z.

Definition ArrayLength : Z := 100000.

(** [result = f(Array, ArrayLength)]; the array is dropped. *)
Definition call_randomizer (T : Z) : outcome F :=
  match f T Array ArrayLength tt with
  | Done ((_, r), _) => Done r
  | Undefined u => Undefined u
  | OutOfFuel => OutOfFuel
  end.

Definition runRandomizeExperiment : M (Bench F) (ExperimentResult F) :=
  runExperiment clock call_randomizer.

Definition randomizeExperiment (fuel : nat) (P : Z) : M (Bench F) unit :=
  set_num_threads 1 ;;;
  R <- runRandomizeExperiment ;;
  let T1 := time R in
  printf (result R, time R, fdiv T1 (time R)) ;;;
  sweep clock call_randomizer fuel T1 2 P.

End RandomizeDriver.

(** ** The program

    [int main()]: the Fibonacci experiment, then the randomizer experiment
    with [randomize_arr_fs]; the integration experiments are commented
    out. *)
Definition main {F} {AF : Arith F} (clock : nat -> F) (order : list bool) (fuel_fib : nat)
           (choices : Z -> list nat) (fuel_r : nat) (Array : list Z)
           (fuel : nat) (P : Z) : M (Bench F) Z :=
  experimentFibonacci clock order fuel_fib fuel P ;;;
  randomizeExperiment clock (fun T => randomize_arr_fs fuel_r T (choices T)) Array fuel P ;;;
  ret 0.

(** * Proofs *)

(** ** The monad *)

Lemma bind_done {W A B} (m : M W A) (k : A -> M W B) w a w' :
  m w = Done (a, w') -> bind m k w = k a w'.
Proof. unfold bind; intros ->; reflexivity. Qed.

Lemma foldM_app {W S X} (body : X -> S -> M W S) l1 l2 s w :
  foldM body (l1 ++ l2) s w = bind (foldM body l1 s) (foldM body l2) w.
Proof.
  revert s w; induction l1 as [|x l1 IH]; intros s w; simpl.
  - reflexivity.
  - unfold bind in *. destruct (body x s w) as [[s' w']| |]; auto.
Qed.

(** ** Machine integers *)

Lemma wrap_small k z : 0 <= z < limit k -> wrap k z = z.
Proof.
  destruct k; simpl; intros H.
  - apply Z.mod_small; exact H.
  - rewrite Z.mod_small; lia.
Qed.

Lemma limit_le_U32 k : limit k <= 2 ^ 32.
Proof. destruct k; simpl; lia. Qed.

(** ** The arithmetic progression of a worker *)

Lemma count_done T N i : N <= i -> 0 < T -> count T N i = O.
Proof.
  intros Hi HT; unfold count.
  assert ((N - i + T - 1) / T <= 0); [|lia].
  assert ((N - i + T - 1) / T < 1); [|lia].
  apply Z.div_lt_upper_bound; lia.
Qed.

Lemma count_step T N i : i < N -> 0 < T -> count T N i = S (count T N (i + T)).
Proof.
  intros Hi HT; unfold count.
  replace (N - i + T - 1) with (N - (i + T) + T - 1 + 1 * T) by ring.
  rewrite Z.div_add by lia.
  assert (0 <= (N - (i + T) + T - 1) / T) by (apply Z.div_pos; lia).
  lia.
Qed.

Lemma strided_done T N i : N <= i -> 0 < T -> strided T N i = [].
Proof. intros; unfold strided; rewrite count_done by assumption; reflexivity. Qed.

Lemma strided_step T N i :
  i < N -> 0 < T -> strided T N i = i :: strided T N (i + T).
Proof.
  intros Hi HT; unfold strided.
  rewrite (count_step T N i) by assumption.
  cbn [seq map]. f_equal; [lia|].
  rewrite <- seq_shift, map_map.
  apply map_ext; intros j; lia.
Qed.

Lemma strided_one N : strided 1 N 0 = upto N.
Proof.
  unfold strided, upto, count.
  replace (N - 0 + 1 - 1) with N by ring. rewrite Z.div_1_r.
  apply map_ext; intros j; lia.
Qed.

(** Without wrap-around the loop is the fold over the progression. *)
Lemma strided_for_foldM {W S} k fuel T N (body : Z -> S -> M W S) :
  0 < T -> N + T <= limit k ->
  forall i s w, 0 <= i -> (count T N i <= fuel)%nat ->
    strided_for k fuel T N i body s w = foldM body (strided T N i) s w.
Proof.
  intros HT Hlim; induction fuel as [|fuel IH]; intros i s w Hi Hfuel.
  - destruct (Z.ltb_spec i N) as [Hlt|Hge].
    + rewrite (count_step T N i) in Hfuel by assumption. lia.
    + rewrite strided_done by assumption. simpl.
      destruct (Z.ltb_spec i N); [lia|reflexivity].
  - simpl. destruct (Z.ltb_spec i N) as [Hlt|Hge].
    + rewrite (strided_step T N i) by assumption. simpl.
      rewrite wrap_small by lia.
      unfold bind. destruct (body i s w) as [[s' w']| |]; auto.
      apply IH; [lia|].
      rewrite (count_step T N i) in Hfuel by assumption. lia.
    + rewrite strided_done by assumption. reflexivity.
Qed.


Lemma count_le T N i : 0 < T -> 0 <= i -> (count T N i <= Z.to_nat N)%nat.
Proof.
  intros HT Hi. destruct (Z.le_gt_cases N i) as [Hge|Hlt].
  - rewrite count_done by assumption. lia.
  - unfold count. apply Z2Nat.inj_le; try lia.
    + apply Z.div_pos; lia.
    + apply Z.le_trans with (N - i); [|lia].
      apply Z.div_le_upper_bound; nia.
Qed.

Lemma count_spec T N t (j : nat) :
  0 < T -> (j < count T N t)%nat <-> t + Z.of_nat j * T < N.
Proof.
  intros HT; unfold count.
  pose proof (Z.div_mod (N - t + T - 1) T ltac:(lia)) as Hdm.
  pose proof (Z.mod_pos_bound (N - t + T - 1) T HT) as Hr.
  set (q := (N - t + T - 1) / T) in *.
  set (r := (N - t + T - 1) mod T) in *.
  split; intros H.
  - assert (Z.of_nat j < q) by lia. nia.
  - assert (Z.of_nat j < q) by nia. lia.
Qed.

Lemma in_strided T N t x :
  0 < T -> 0 <= t < T ->
  In x (strided T N t) <-> 0 <= x < N /\ x mod T = t.
Proof.
  intros HT Ht; unfold strided; rewrite in_map_iff; split.
  - intros (j & <- & Hj). apply in_seq in Hj.
    assert (j < count T N t)%nat as Hc by lia.
    apply count_spec in Hc; [|assumption].
    split; [nia|].
    rewrite Z.mod_add by lia. apply Z.mod_small; lia.
  - intros (Hx & Hm).
    pose proof (Z.div_mod x T ltac:(lia)) as Hdm.
    assert (0 <= x / T) by (apply Z.div_pos; lia).
    exists (Z.to_nat (x / T)). split; [nia|].
    apply in_seq. split; [lia|]. simpl.
    apply count_spec; [assumption|]. nia.
Qed.

Lemma NoDup_strided T N t : 0 < T -> NoDup (strided T N t).
Proof.
  intros HT; unfold strided.
  apply NoDup_map_NoDup_ForallPairs; [|apply seq_NoDup].
  intros j j' _ _ H. nia.
Qed.

Lemma in_upto n x : In x (upto n) <-> 0 <= x < n.
Proof.
  unfold upto; rewrite in_map_iff; split.
  - intros (j & <- & Hj). apply in_seq in Hj. lia.
  - intros Hx. exists (Z.to_nat x). split; [lia|]. apply in_seq. lia.
Qed.

Lemma NoDup_upto n : NoDup (upto n).
Proof.
  unfold upto. apply NoDup_map_NoDup_ForallPairs; [|apply seq_NoDup].
  intros j j' _ _ H. lia.
Qed.

Lemma length_upto n : length (upto n) = Z.to_nat n.
Proof. unfold upto. rewrite length_map, length_seq. reflexivity. Qed.

Lemma ForallOrdPairs_map {A B} (R : B -> B -> Prop) (g : A -> B) l :
  NoDup l ->
  (forall x y, In x l -> In y l -> x <> y -> R (g x) (g y)) ->
  ForallOrdPairs R (map g l).
Proof.
  induction 1 as [|x l Hx Hl IH]; intros HR; simpl; constructor.
  - apply Forall_forall. intros y' Hy'. apply in_map_iff in Hy' as (y & <- & Hy).
    apply HR; [left; reflexivity|right; assumption|].
    intros ->. contradiction.
  - apply IH. intros y z Hy Hz. apply HR; right; assumption.
Qed.

(** The progressions of the workers [0 .. T-1] partition [0 .. N-1]. *)
Lemma strided_cover T N :
  0 < T -> Permutation (concat (map (strided T N) (workers T))) (upto N).
Proof.
  intros HT. apply NoDup_Permutation.
  - apply NoDup_concat.
    + apply Forall_forall. intros l Hl.
      apply in_map_iff in Hl as (t & <- & _). apply NoDup_strided; assumption.
    + apply ForallOrdPairs_map; [apply NoDup_upto|].
      intros t t' Ht Ht' Hne x Hx Hx'.
      apply in_upto in Ht, Ht'.
      apply in_strided in Hx; [|assumption|assumption].
      apply in_strided in Hx'; [|assumption|assumption].
      lia.
  - apply NoDup_upto.
  - intros x. rewrite in_concat, in_upto. split.
    + intros (l & Hl & Hx). apply in_map_iff in Hl as (t & <- & Ht).
      apply in_upto in Ht. apply in_strided in Hx; tauto.
    + intros Hx. exists (strided T N (x mod T)).
      pose proof (Z.mod_pos_bound x T HT).
      split.
      * apply in_map. apply in_upto. assumption.
      * apply in_strided; auto.
Qed.

Lemma length_strided T N t : length (strided T N t) = count T N t.
Proof. unfold strided. rewrite length_map, length_seq. reflexivity. Qed.

Lemma count_floor_ceil T N t :
  0 < T -> 0 < N -> 0 <= t < T ->
  N / T <= Z.of_nat (count T N t) <= (N + T - 1) / T.
Proof.
  intros HT HN Ht; unfold count.
  rewrite Z2Nat.id by (apply Z.div_pos; lia).
  split; apply Z.div_le_mono; lia.
Qed.

Lemma ceil_le_floor_succ T N : 0 < T -> (N + T - 1) / T <= N / T + 1.
Proof.
  intros HT. replace (N / T + 1) with ((N + 1 * T) / T) by (apply Z.div_add; lia).
  apply Z.div_le_mono; lia.
Qed.

Lemma worker_indices_strided k fuel T N t :
  0 < T -> N + T <= limit k -> 0 <= t -> (Z.to_nat N <= fuel)%nat ->
  worker_indices k fuel T N t = Done (strided T N t).
Proof.
  intros HT Hlim Ht Hfuel; unfold worker_indices.
  rewrite strided_for_foldM; try assumption.
  - assert (forall (l acc : list Z) (w : unit),
               foldM (fun i l0 => ret (l0 ++ [i])) l acc w = Done (acc ++ l, w)) as Hlog.
    { induction l as [|x l IH]; intros acc w; simpl.
      - rewrite app_nil_r. reflexivity.
      - unfold bind, ret. rewrite IH, <- app_assoc. reflexivity. }
    rewrite Hlog. reflexivity.
  - pose proof (count_le T N t HT Ht). lia.
Qed.

(** C1 (as amended): for [T >= 1] and [N >= 1] with [N + T] within the
    range of the loop counter (2^32 for [unsigned], 2^31 for PS's [int]),
    worker [t]'s loop terminates having visited exactly the progression
    [t, t+T, ...] below [N]; an index [i < N] belongs to worker [t] iff
    [t = i mod T] (so each index has exactly one worker, and the sets are
    pairwise disjoint); the sets together are a rearrangement of
    [0 .. N-1]; and each set has between [floor(N/T)] and [ceil(N/T)]
    elements, which differ by at most one. *)
Theorem strided_partition (k : ctype) (T N : Z) :
  1 <= T -> 1 <= N -> N + T <= limit k ->
  (forall t fuel, 0 <= t < T -> (Z.to_nat N <= fuel)%nat ->
     worker_indices k fuel T N t = Done (strided T N t)) /\
  (forall t i, 0 <= t < T ->
     (In i (strided T N t) <-> 0 <= i < N /\ t = i mod T)) /\
  (forall t, NoDup (strided T N t)) /\
  Permutation (concat (map (strided T N) (workers T))) (upto N) /\
  (forall t, 0 <= t < T ->
     N / T <= Z.of_nat (length (strided T N t)) <= (N + T - 1) / T) /\
  (N + T - 1) / T <= N / T + 1.
Proof.
  intros HT HN Hlim.
  split; [intros t fuel Ht Hfuel; apply worker_indices_strided; lia|].
  split.
  { intros t i Ht. rewrite in_strided by lia.
    split; intros [Hi Hm]; (split; [exact Hi|congruence]). }
  split; [intros t; apply NoDup_strided; lia|].
  split; [apply strided_cover; lia|].
  split; [|apply ceil_le_floor_succ; lia].
  intros t Ht. rewrite length_strided. apply count_floor_ceil; lia.
Qed.

Lemma strided_partition_witness :
  (forall t fuel, 0 <= t < 4 -> (Z.to_nat STEPS <= fuel)%nat ->
     worker_indices U32 fuel 4 STEPS t = Done (strided 4 STEPS t)) /\
  (forall t i, 0 <= t < 4 ->
     (In i (strided 4 STEPS t) <-> 0 <= i < STEPS /\ t = i mod 4)) /\
  (forall t, NoDup (strided 4 STEPS t)) /\
  Permutation (concat (map (strided 4 STEPS) (workers 4))) (upto STEPS) /\
  (forall t, 0 <= t < 4 ->
     STEPS / 4 <= Z.of_nat (length (strided 4 STEPS t)) <= (STEPS + 4 - 1) / 4) /\
  (STEPS + 4 - 1) / 4 <= STEPS / 4 + 1.
Proof.
  apply (strided_partition U32 4 STEPS); unfold STEPS; simpl; lia.
Defined.

(** C1 as stated fails when the 32-bit counter wraps: with
    [T = 2^32 - 1] workers and [N = STEPS], worker 1 steps from index 1
    to [1 + T = 2^32], which wraps to 0; index 0 is visited by worker 0
    and by worker 1. *)
Lemma strided_partition_wraps :
  exists l0 l1 : list Z,
    worker_indices U32 3 4294967295 STEPS 0 = Done l0 /\
    worker_indices U32 3 4294967295 STEPS 1 = Done l1 /\
    In 0 l0 /\ In 0 l1.
Proof.
  exists [0], [1; 0].
  split; [vm_compute; reflexivity|].
  split; [vm_compute; reflexivity|].
  split; [left; reflexivity|right; left; reflexivity].
Qed.

(** ** The scheduler *)

Lemma schedule_perm {X} (choices : list nat) (pending : list X) :
  Permutation (schedule choices pending) pending.
Proof.
  revert pending; induction choices as [|c cs IH]; intros pending.
  - destruct pending; apply Permutation_refl.
  - destruct pending as [|p ps]; [apply Permutation_refl|].
    cbn [schedule].
    set (l := p :: ps). set (k := (c mod length l)%nat).
    assert (k < length l)%nat as Hk
        by (apply Nat.mod_upper_bound; subst l; simpl; lia).
    assert (nth_error l k = Some (nth k l p)) as Hnth
        by (apply nth_error_nth'; exact Hk).
    etransitivity.
    + apply perm_skip. apply IH.
    + apply Permutation_trans with (firstn k l ++ nth k l p :: skipn (S k) l).
      * apply Permutation_middle.
      * rewrite (firstn_skipn_middle k l Hnth). apply Permutation_refl.
Qed.

Lemma schedule_single {X} (choices : list nat) (x : X) : schedule choices [x] = [x].
Proof.
  destruct choices as [|c cs]; [reflexivity|].
  cbn [schedule length]. rewrite Nat.mod_1_r. cbn. destruct cs; reflexivity.
Qed.

Lemma schedule_nil {X} (choices : list nat) : schedule choices (@nil X) = [].
Proof. destruct choices; reflexivity. Qed.

(** ** The shape of each integrator's result

    No law of arithmetic is used here: these lemmas hold for binary64 as
    they do for the rationals. *)

Section Shapes.
Context {F : Type} {AF : Arith F}.
Variables (N : Z) (a b : F) (f : F -> F).

#[local] Abbreviation tag sample := (fun i : Z => (i, sample i)).
#[local] Abbreviation acc sample := (fun (R : F) (i : Z) => fadd R (f (sample i))).

Lemma foldM_accumulate sample l R (w : World F) :
  foldM (accumulate f sample) l R w
  = Done (fold_left (acc sample) l R, logged w (map (tag sample) l)).
Proof.
  revert R w; induction l as [|i l IH]; intros R w; simpl.
  - unfold ret, logged. rewrite app_nil_r. destruct w; reflexivity.
  - unfold accumulate at 1, bind, call_f, ret. rewrite IH.
    unfold logged; simpl. rewrite <- app_assoc. reflexivity.
Qed.

Lemma logged_logged (w : World F) l1 l2 : logged (logged w l1) l2 = logged w (l1 ++ l2).
Proof. unfold logged; simpl. rewrite app_assoc. reflexivity. Qed.

Lemma logged_nil (w : World F) : logged w [] = w.
Proof. unfold logged. rewrite app_nil_r. destruct w; reflexivity. Qed.

Lemma integrateDefault_shape fuel (w : World F) :
  N + 1 <= 2 ^ 32 -> (Z.to_nat N <= fuel)%nat ->
  integrateDefault N a b f fuel w
  = Done (fmul (fold_left (acc (sample1 N a b)) (upto N) fzero) (dx N a b),
          logged w (map (tag (sample1 N a b)) (upto N))).
Proof.
  intros HN Hfuel. unfold integrateDefault.
  erewrite bind_done; [reflexivity|].
  rewrite (strided_for_foldM U32); try (simpl; lia).
  - rewrite strided_one. apply foldM_accumulate.
  - pose proof (count_le 1 N 0). lia.
Qed.

(** The workers of a list, each with a private sum that it then adds to
    the shared result. *)
Lemma combine_workers fuel T sched result (w : World F) :
  0 < T -> N + T <= 2 ^ 32 -> (Z.to_nat N <= fuel)%nat ->
  (forall t, In t sched -> 0 <= t) ->
  foldM (private_then_combine N a b f fuel T) sched result w
  = Done (fold_left (fun r t => fadd r (fold_left (acc (sample1 N a b)) (strided T N t) fzero))
                    sched result,
          logged w (map (tag (sample1 N a b)) (concat (map (strided T N) sched)))).
Proof.
  intros HT HN Hfuel. revert result w.
  induction sched as [|t sched IH]; intros result w Hs; simpl.
  - unfold ret. rewrite logged_nil. reflexivity.
  - unfold private_then_combine at 1.
    erewrite bind_done.
    2:{ erewrite bind_done; [reflexivity|].
        rewrite (strided_for_foldM U32); try (simpl; lia).
        - apply foldM_accumulate.
        - apply Hs; left; reflexivity.
        - pose proof (count_le T N t HT (Hs t (or_introl eq_refl))). lia. }
    rewrite IH by (intros; apply Hs; right; assumption).
    rewrite logged_logged, map_app. reflexivity.
Qed.

(** The counting loop that creates the threads [from .. T-1]. *)
Lemma spawn_threads_shape k fuel from T (w : World F) :
  0 <= from -> T + 1 <= limit k -> (Z.to_nat T <= fuel)%nat ->
  spawn_threads k fuel from T w = Done (strided 1 T from, forked w (strided 1 T from)).
Proof.
  intros Hfrom HT Hfuel. unfold spawn_threads.
  rewrite strided_for_foldM; try lia.
  - assert (forall l ths (w : World F),
               foldM (fun t threads => spawn t ;;; ret (threads ++ [t])) l ths w
               = Done (ths ++ l, forked w l)) as H.
    { induction l as [|t l IH]; intros ths w0; simpl.
      - unfold ret, forked. rewrite !app_nil_r. destruct w0; reflexivity.
      - unfold bind at 1 2, spawn, ret. rewrite IH.
        unfold forked; simpl. rewrite <- !app_assoc. reflexivity. }
    rewrite H. reflexivity.
  - pose proof (count_le 1 T from). lia.
Qed.

Lemma threads_and_main T : 1 <= T -> Permutation (strided 1 T 1 ++ [0]) (workers T).
Proof.
  intros HT. unfold workers. rewrite <- strided_one.
  rewrite (strided_step 1 T 0) by lia.
  symmetry. apply Permutation_cons_append.
Qed.

Lemma workers_nonneg T t : In t (workers T) -> 0 <= t < T.
Proof. apply in_upto. Qed.

(** *** Arrays *)

Lemma nth_error_update {X} (l : list X) n m x :
  nth_error (update l n x) m
  = if (m =? n)%nat then (if (n <? length l)%nat then Some x else None)
    else nth_error l m.
Proof.
  revert n m; induction l as [|y l IH]; intros n m; simpl.
  - destruct (m =? n)%nat; destruct m; reflexivity.
  - destruct n as [|n], m as [|m]; simpl; try reflexivity.
    rewrite IH. reflexivity.
Qed.

Lemma length_update {X} (l : list X) n x : length (update l n x) = length l.
Proof.
  revert n; induction l as [|y l IH]; intros [|n]; simpl; auto.
Qed.

Lemma update_same {X} (l : list X) n x : nth_error l n = Some x -> update l n x = l.
Proof.
  revert n; induction l as [|y l IH]; intros [|n]; simpl; try discriminate.
  - intros [= ->]. reflexivity.
  - intros H. f_equal. apply IH. exact H.
Qed.

Lemma update_update {X} (l : list X) n x y : update (update l n x) n y = update l n y.
Proof.
  revert n; induction l as [|z l IH]; intros [|n]; simpl; auto.
  f_equal. apply IH.
Qed.

Lemma lookupZ_update {X} (l : list X) t x y :
  lookupZ l t = Some x -> lookupZ (update l (Z.to_nat t) y) t = Some y.
Proof.
  unfold lookupZ. destruct (t <? 0); [discriminate|].
  intros H. rewrite nth_error_update, Nat.eqb_refl.
  assert (Z.to_nat t < length l)%nat as Hlt
      by (apply nth_error_Some; congruence).
  apply Nat.ltb_lt in Hlt. rewrite Hlt. reflexivity.
Qed.

Lemma nth_error_upto n m :
  nth_error (upto n) m = if (m <? Z.to_nat n)%nat then Some (Z.of_nat m) else None.
Proof.
  unfold upto. destruct (Nat.ltb_spec m (Z.to_nat n)) as [Hlt|Hge].
  - rewrite nth_error_map, nth_error_seq.
    apply Nat.ltb_lt in Hlt. rewrite Hlt. reflexivity.
  - apply nth_error_None. rewrite length_map, length_seq. exact Hge.
Qed.

Lemma lookupZ_map_upto {X} (g : Z -> X) T t :
  0 <= t < T -> lookupZ (map g (upto T)) t = Some (g t).
Proof.
  intros Ht. unfold lookupZ. destruct (Z.ltb_spec t 0); [lia|].
  rewrite nth_error_map, nth_error_upto.
  destruct (Nat.ltb_spec (Z.to_nat t) (Z.to_nat T)); [|lia].
  simpl. rewrite Z2Nat.id by lia. reflexivity.
Qed.

Lemma update_map_upto {X} (g : Z -> X) T t v :
  0 <= t < T ->
  update (map g (upto T)) (Z.to_nat t) v
  = map (fun t' => if t' =? t then v else g t') (upto T).
Proof.
  intros Ht. apply nth_error_ext. intros m.
  rewrite nth_error_update, !nth_error_map, nth_error_upto, length_map, length_upto.
  destruct (Nat.eqb_spec m (Z.to_nat t)) as [->|Hne].
  - destruct (Nat.ltb_spec (Z.to_nat t) (Z.to_nat T)); [|lia].
    simpl. rewrite Z2Nat.id by lia. rewrite Z.eqb_refl. reflexivity.
  - destruct (Nat.ltb_spec m (Z.to_nat T)); [|reflexivity].
    simpl. destruct (Z.eqb_spec (Z.of_nat m) t); [lia|reflexivity].
Qed.

Lemma slots_nil T (P : Z -> F) : slots T P [] = repeat fzero (Z.to_nat T).
Proof.
  unfold slots, upto. simpl. rewrite map_map.
  generalize 0%nat. induction (Z.to_nat T) as [|n IH]; intros k; simpl.
  - reflexivity.
  - f_equal. apply IH.
Qed.

Lemma slots_step T (P : Z -> F) done t :
  0 <= t < T ->
  update (slots T P done) (Z.to_nat t) (P t) = slots T P (done ++ [t]).
Proof.
  intros Ht. unfold slots. rewrite update_map_upto by assumption.
  apply map_ext. intros t'. rewrite existsb_app. simpl.
  destruct (Z.eqb_spec t' t) as [->|Hne].
  - rewrite orb_true_r. reflexivity.
  - rewrite !orb_false_r. reflexivity.
Qed.

Lemma lookupZ_slots T (P : Z -> F) done t :
  0 <= t < T -> ~ In t done -> lookupZ (slots T P done) t = Some fzero.
Proof.
  intros Ht Hnot. unfold slots. rewrite lookupZ_map_upto by assumption.
  destruct (existsb (Z.eqb t) done) eqn:E; [|reflexivity].
  apply existsb_exists in E as (t' & Hin & Heq).
  apply Z.eqb_eq in Heq. subst t'. contradiction.
Qed.

Lemma slots_all T (P : Z -> F) sched :
  Permutation sched (workers T) -> slots T P sched = map P (upto T).
Proof.
  intros Hperm. unfold slots. apply map_ext_in. intros t Ht.
  assert (existsb (Z.eqb t) sched = true) as ->; [|reflexivity].
  apply existsb_exists. exists t. split; [|apply Z.eqb_refl].
  apply Permutation_in with (workers T); [symmetry; exact Hperm|exact Ht].
Qed.

(** *** The slot strategies

    A worker function [wk] over a state that holds the slots ([inj] wraps
    them: the vector itself in PS, the pointer to the cells in Arr): each
    worker adds its samples into its own slot. *)

#[local] Abbreviation P2 T :=
  (fun t : Z => fold_left (acc (sample2 N a b)) (strided T N t) fzero).

Lemma slot_workers {S} (inj : list F -> S) (wk : Z -> S -> M (World F) S) (T : Z) :
  (forall t cells x (w : World F),
      0 <= t < T -> lookupZ cells t = Some x ->
      wk t (inj cells) w
      = Done (inj (update cells (Z.to_nat t)
                          (fold_left (acc (sample2 N a b)) (strided T N t) x)),
              logged w (map (tag (sample2 N a b)) (strided T N t)))) ->
  forall sched done (w : World F),
    NoDup (done ++ sched) -> (forall t, In t sched -> 0 <= t < T) ->
    foldM wk sched (inj (slots T (P2 T) done)) w
    = Done (inj (slots T (P2 T) (done ++ sched)),
            logged w (map (tag (sample2 N a b)) (concat (map (strided T N) sched)))).
Proof.
  intros Hwk. induction sched as [|t sched IH]; intros done w Hnd Hin; simpl.
  - unfold ret. rewrite app_nil_r, logged_nil. reflexivity.
  - assert (0 <= t < T) as Ht by (apply Hin; left; reflexivity).
    assert (~ In t done) as Hnot.
    { intros Hd. apply NoDup_remove_2 in Hnd. apply Hnd.
      apply in_or_app. left. exact Hd. }
    erewrite bind_done.
    2:{ apply Hwk; [exact Ht|]. apply lookupZ_slots; assumption. }
    rewrite slots_step by assumption.
    rewrite IH.
    + rewrite <- app_assoc, logged_logged, map_app. reflexivity.
    + rewrite <- app_assoc. exact Hnd.
    + intros t' Ht'. apply Hin. right. exact Ht'.
Qed.

Lemma foldM_threadProc_body t l vec x (w : World F) :
  lookupZ vec t = Some x ->
  foldM (fun i vec =>
           v <- call_f f i (sample2 N a b i) ;;
           x <- read vec t ;;
           write vec t (fadd x v)) l vec w
  = Done (update vec (Z.to_nat t) (fold_left (acc (sample2 N a b)) l x),
          logged w (map (tag (sample2 N a b)) l)).
Proof.
  revert vec x w; induction l as [|i l IH]; intros vec x w Hx; simpl.
  - unfold ret. rewrite logged_nil, update_same; [reflexivity|].
    unfold lookupZ in Hx. destruct (t <? 0); [discriminate|exact Hx].
  - unfold bind at 1 2 3, call_f, read, write, ret. rewrite Hx.
    rewrite (IH _ (fadd x (f (sample2 N a b i)))).
    + rewrite update_update. unfold logged; simpl. rewrite <- app_assoc. reflexivity.
    + eapply lookupZ_update. exact Hx.
Qed.

Lemma foldM_slot_accumulate t l cells x (w : World F) :
  lookupZ cells t = Some x ->
  foldM (slot_accumulate N a b f t) l (Some cells) w
  = Done (Some (update cells (Z.to_nat t) (fold_left (acc (sample2 N a b)) l x)),
          logged w (map (tag (sample2 N a b)) l)).
Proof.
  revert cells x w; induction l as [|i l IH]; intros cells x w Hx; simpl.
  - unfold ret. rewrite logged_nil, update_same; [reflexivity|].
    unfold lookupZ in Hx. destruct (t <? 0); [discriminate|exact Hx].
  - unfold slot_accumulate at 1, bind at 1 2 3 4 5, call_f, deref, read, write, ret.
    rewrite Hx.
    rewrite (IH _ (fadd x (f (sample2 N a b i)))).
    + rewrite update_update. unfold logged; simpl. rewrite <- app_assoc. reflexivity.
    + eapply lookupZ_update. exact Hx.
Qed.

Lemma foldM_slot_collect cells rest r (w : World F) :
  foldM (slot_collect (Some (cells ++ rest))) (upto (Z.of_nat (length cells))) r w
  = Done (fold_left fadd cells r, w).
Proof.
  revert rest r w. induction cells as [|x cells IH] using rev_ind; intros rest r w.
  - reflexivity.
  - rewrite length_app, Nat2Z.inj_add. simpl length.
    unfold upto. rewrite Z2Nat.inj_add, seq_app, map_app by lia.
    fold (upto (Z.of_nat (length cells))).
    rewrite foldM_app. erewrite bind_done.
    2:{ rewrite <- app_assoc. apply IH. }
    rewrite fold_left_app. simpl.
    unfold slot_collect, bind, deref, read, ret, lookupZ.
    rewrite Nat2Z.id.
    destruct (Z.ltb_spec (Z.of_nat (length cells)) 0); [lia|].
    rewrite Nat2Z.id, <- app_assoc, nth_error_app2, Nat.sub_diag by lia.
    reflexivity.
Qed.

Lemma foldM_elems (vec : list F) r (w : World F) :
  foldM (fun elem result => ret (fadd result elem)) vec r w = Done (fold_left fadd vec r, w).
Proof.
  revert r w; induction vec as [|x vec IH]; intros r w; simpl; [reflexivity|].
  unfold bind, ret at 1. apply IH.
Qed.

End Shapes.

Section IntegratorShapes.
Context {F : Type} {AF : Arith F}.
Variables (N : Z) (a b : F) (f : F -> F).

#[local] Abbreviation tag sample := (fun i : Z => (i, sample i)).
#[local] Abbreviation P1 T :=
  (fun t : Z => fold_left (fun R i => fadd R (f (sample1 N a b i))) (strided T N t) fzero).
#[local] Abbreviation P2 T :=
  (fun t : Z => fold_left (fun R i => fadd R (f (sample2 N a b i))) (strided T N t) fzero).

Lemma integrateCrit_shape fuel T choices (w : World F) :
  1 <= T -> 1 <= N -> N + T <= 2 ^ 32 -> (Z.to_nat (N + T) <= fuel)%nat ->
  let sched := schedule choices (workers T) in
  integrateCrit N a b f fuel T choices w
  = Done (fmul (fold_left (fun r t => fadd r (P1 T t)) sched fzero) (dx N a b),
          logged w (map (tag (sample1 N a b)) (concat (map (strided T N) sched)))).
Proof.
  intros HT HN1 HN Hfuel sched. unfold integrateCrit, team.
  rewrite Z.max_r by lia. fold sched.
  erewrite bind_done; [reflexivity|].
  apply combine_workers; try lia.
  intros t Ht. apply (Permutation_in _ (schedule_perm choices (workers T))) in Ht.
  apply workers_nonneg in Ht. lia.
Qed.

Lemma integrateMutex_shape fuel T choices (w : World F) :
  1 <= T -> 1 <= N -> N + T <= 2 ^ 32 -> (Z.to_nat (N + T) <= fuel)%nat ->
  let sched := schedule choices (workers T) in
  integrateMutex N a b f fuel T choices w
  = Done (fmul (fold_left (fun r t => fadd r (P1 T t)) sched fzero) (dx N a b),
          logged (forked w (workers T))
                 (map (tag (sample1 N a b)) (concat (map (strided T N) sched)))).
Proof.
  intros HT HN1 HN Hfuel sched. unfold integrateMutex.
  erewrite bind_done.
  2:{ apply spawn_threads_shape; simpl; lia. }
  rewrite strided_one. fold (workers T). fold sched.
  erewrite bind_done; [reflexivity|].
  apply combine_workers; try lia.
  intros t Ht. apply (Permutation_in _ (schedule_perm choices (workers T))) in Ht.
  apply workers_nonneg in Ht. lia.
Qed.

Lemma integrateAtomic_shape fuel T choices (w : World F) :
  1 <= T -> 1 <= N -> N + T <= 2 ^ 32 -> (Z.to_nat (N + T) <= fuel)%nat ->
  let sched := schedule choices (strided 1 T 1 ++ [0]) in
  integrateAtomic N a b f fuel T choices w
  = Done (fmul (fold_left (fun r t => fadd r (P1 T t)) sched fzero) (dx N a b),
          logged (forked w (strided 1 T 1))
                 (map (tag (sample1 N a b)) (concat (map (strided T N) sched)))).
Proof.
  intros HT HN1 HN Hfuel sched. unfold integrateAtomic.
  erewrite bind_done.
  2:{ apply spawn_threads_shape; simpl; lia. }
  fold sched.
  erewrite bind_done; [reflexivity|].
  apply combine_workers; try lia.
  intros t Ht. apply (Permutation_in _ (schedule_perm _ _)) in Ht.
  apply (Permutation_in _ (threads_and_main T HT)) in Ht.
  apply workers_nonneg in Ht. lia.
Qed.

Lemma slot_loop_Arr fuel T t cells x (w : World F) :
  1 <= T -> 1 <= N -> N + T <= 2 ^ 32 -> (Z.to_nat (N + T) <= fuel)%nat ->
  0 <= t < T -> lookupZ cells t = Some x ->
  strided_for U32 fuel T N t (slot_accumulate N a b f t) (Some cells) w
  = Done (Some (update cells (Z.to_nat t)
                       (fold_left (fun R i => fadd R (f (sample2 N a b i))) (strided T N t) x)),
          logged w (map (tag (sample2 N a b)) (strided T N t))).
Proof.
  intros HT HN1 HN Hfuel Ht Hx.
  rewrite (strided_for_foldM U32); try (simpl; lia).
  - apply foldM_slot_accumulate. exact Hx.
  - pose proof (count_le T N t). lia.
Qed.

Lemma slot_loop_PS fuel T t vec x (w : World F) :
  1 <= T -> 1 <= N -> N + T <= 2 ^ 31 -> (Z.to_nat (N + T) <= fuel)%nat ->
  0 <= t < T -> lookupZ vec t = Some x ->
  threadProc N a b f fuel T t vec w
  = Done (update vec (Z.to_nat t)
                 (fold_left (fun R i => fadd R (f (sample2 N a b i))) (strided T N t) x),
          logged w (map (tag (sample2 N a b)) (strided T N t))).
Proof.
  intros HT HN1 HN Hfuel Ht Hx. unfold threadProc.
  rewrite (strided_for_foldM S32); try (simpl; lia).
  - apply foldM_threadProc_body. exact Hx.
  - pose proof (count_le T N t). lia.
Qed.

Lemma collect_slots fuel T (cells : list F) r (w : World F) :
  0 <= T -> T + 1 <= 2 ^ 32 -> (Z.to_nat T <= fuel)%nat ->
  length cells = Z.to_nat T ->
  strided_for U32 fuel 1 T 0 (slot_collect (Some cells)) r w
  = Done (fold_left fadd cells r, w).
Proof.
  intros HT Hlim Hfuel Hlen.
  rewrite (strided_for_foldM U32); try (simpl; lia).
  - rewrite strided_one.
    replace T with (Z.of_nat (length cells)) by lia.
    rewrite <- (app_nil_r cells) at 1. apply foldM_slot_collect.
  - pose proof (count_le 1 T 0). lia.
Qed.

Lemma length_slots T (P : Z -> F) done : length (slots T P done) = Z.to_nat T.
Proof. unfold slots. rewrite length_map. apply length_upto. Qed.

Lemma NoDup_schedule {X} choices (l : list X) : NoDup l -> NoDup (schedule choices l).
Proof.
  intros H. apply (Permutation_NoDup (l := l)); [|exact H].
  symmetry. apply schedule_perm.
Qed.

Lemma integrateArr_shape fuel T choices base (w : World F) :
  1 <= T -> 1 <= N -> N + T <= 2 ^ 32 -> (Z.to_nat (N + T) <= fuel)%nat ->
  let sched := schedule choices (workers T) in
  integrateArr N a b f fuel T choices (Some base) w
  = Done (fmul (fold_left fadd (map (P2 T) (upto T)) fzero) (dx N a b),
          logged w (map (tag (sample2 N a b)) (concat (map (strided T N) sched)))).
Proof.
  intros HT HN1 HN Hfuel sched. unfold integrateArr, calloc, team.
  rewrite Z.max_r by lia.
  rewrite <- (slots_nil T (P2 T)).
  erewrite bind_done.
  2:{ apply (slot_workers N a b f (@Some (list F))) with (T := T).
      - intros t cells x w0 Ht Hx. apply slot_loop_Arr; assumption.
      - simpl. apply NoDup_schedule, NoDup_upto.
      - intros t Ht. apply (Permutation_in _ (schedule_perm _ _)) in Ht.
        apply workers_nonneg in Ht. exact Ht. }
  simpl app. fold sched.
  rewrite (slots_all T _ sched) by apply schedule_perm.
  erewrite bind_done; [reflexivity|].
  apply collect_slots; try lia.
  rewrite length_map. apply length_upto.
Qed.

Lemma integrateArrAlign_shape fuel T choices base (w : World F) :
  1 <= T -> 1 <= N -> N + T <= 2 ^ 32 -> (Z.to_nat (N + T) <= fuel)%nat ->
  let sched := schedule choices (workers T) in
  integrateArrAlign N a b f fuel T choices (Some base) w
  = Done (fmul (fold_left fadd (map (P2 T) (upto T)) fzero) (dx N a b),
          logged w (map (tag (sample2 N a b)) (concat (map (strided T N) sched)))).
Proof.
  intros HT HN1 HN Hfuel sched. unfold integrateArrAlign, aligned_alloc_memset.
  erewrite bind_done; [|reflexivity].
  rewrite <- (slots_nil T (P2 T)).
  erewrite bind_done.
  2:{ apply (slot_workers N a b f (@Some (list F))) with (T := T).
      - intros t cells x w0 Ht Hx. apply slot_loop_Arr; assumption.
      - simpl. apply NoDup_schedule, NoDup_upto.
      - intros t Ht. apply (Permutation_in _ (schedule_perm _ _)) in Ht.
        apply workers_nonneg in Ht. exact Ht. }
  simpl app. fold sched.
  rewrite (slots_all T _ sched) by apply schedule_perm.
  erewrite bind_done; [reflexivity|].
  apply collect_slots; try lia.
  rewrite length_map. apply length_upto.
Qed.

Lemma integratePS_shape fuel T choices (w : World F) :
  1 <= T -> 1 <= N -> N + T <= 2 ^ 31 -> (Z.to_nat (N + T) <= fuel)%nat ->
  let sched := schedule choices (strided 1 T 1 ++ [0]) in
  integratePS N a b f fuel T choices w
  = Done (fmul (fold_left fadd (map (P2 T) (upto T)) fzero) (dx N a b),
          logged (forked w (strided 1 T 1))
                 (map (tag (sample2 N a b)) (concat (map (strided T N) sched)))).
Proof.
  intros HT HN1 HN Hfuel sched. unfold integratePS.
  erewrite bind_done.
  2:{ apply spawn_threads_shape; simpl; lia. }
  fold sched.
  rewrite <- (slots_nil T (P2 T)).
  assert (Permutation sched (workers T)) as Hperm.
  { unfold sched. etransitivity; [apply schedule_perm|apply threads_and_main; lia]. }
  erewrite bind_done.
  2:{ apply (slot_workers N a b f (fun l => l)) with (T := T).
      - intros t cells x w0 Ht Hx. apply slot_loop_PS; assumption.
      - simpl. apply (Permutation_NoDup (l := workers T));
          [symmetry; exact Hperm|apply NoDup_upto].
      - intros t Ht. apply (Permutation_in _ Hperm) in Ht.
        apply workers_nonneg in Ht. exact Ht. }
  simpl app.
  rewrite (slots_all T _ sched) by exact Hperm.
  erewrite bind_done; [reflexivity|].
  apply foldM_elems.
Qed.

Lemma integrateReduction_shape chunks (w : World F) :
  integrateReduction N a b f chunks w
  = Done (fmul (fold_left (fun r chunk =>
                             fadd r (fold_left (fun R i => fadd R (f (sample2 N a b i)))
                                               chunk fzero))
                          chunks fzero) (dx N a b),
          logged w (map (tag (sample2 N a b)) (concat chunks))).
Proof.
  unfold integrateReduction.
  erewrite bind_done; [reflexivity|].
  generalize (@fzero F AF) at 2 4. revert w.
  induction chunks as [|chunk chunks IH]; intros w r; simpl.
  - unfold ret. rewrite logged_nil. reflexivity.
  - erewrite bind_done.
    2:{ erewrite bind_done; [reflexivity|]. apply foldM_accumulate. }
    rewrite IH, logged_logged, map_app. reflexivity.
Qed.

End IntegratorShapes.

(** ** Exact arithmetic: every strategy computes the left Riemann sum *)

#[export] Instance Qc_exact : Exact Qc.
Proof.
  constructor; simpl.
  - apply Qcplus_assoc.
  - apply Qcplus_comm.
  - apply Qcplus_0_l.
  - apply Qcmult_comm.
Qed.

Section ExactSums.
Context {F : Type} {AF : Arith F} {EF : Exact F}.

Lemma fadd_zero_r (x : F) : fadd x fzero = x.
Proof. rewrite fadd_comm. apply fadd_zero_l. Qed.

Lemma fold_left_fadd {X} (g : X -> F) l r :
  fold_left (fun R i => fadd R (g i)) l r = fadd r (sum_list (map g l)).
Proof.
  revert r; induction l as [|i l IH]; intros r; simpl.
  - symmetry. apply fadd_zero_r.
  - rewrite IH, fadd_assoc. reflexivity.
Qed.

Lemma fold_left_sum_list (l : list F) : fold_left fadd l fzero = sum_list l.
Proof.
  rewrite <- (map_id l) at 2.
  rewrite <- fadd_zero_l. apply (fold_left_fadd (fun x => x)).
Qed.

Lemma sum_list_app (l1 l2 : list F) :
  sum_list (l1 ++ l2) = fadd (sum_list l1) (sum_list l2).
Proof.
  induction l1 as [|x l1 IH]; simpl.
  - symmetry. apply fadd_zero_l.
  - rewrite IH. apply fadd_assoc.
Qed.

Lemma sum_list_perm (l l' : list F) : Permutation l l' -> sum_list l = sum_list l'.
Proof.
  induction 1 as [|x l l' _ IH|x y l|l l' l'' _ IH1 _ IH2]; simpl.
  - reflexivity.
  - rewrite IH. reflexivity.
  - rewrite !fadd_assoc, (fadd_comm y x). reflexivity.
  - rewrite IH1. exact IH2.
Qed.

Lemma sum_list_concat {X} (g : X -> F) (ls : list (list X)) :
  sum_list (map (fun l => sum_list (map g l)) ls) = sum_list (map g (concat ls)).
Proof.
  induction ls as [|l ls IH]; simpl.
  - reflexivity.
  - rewrite map_app, sum_list_app, IH. reflexivity.
Qed.

Variables (N : Z) (a b : F) (f : F -> F).

#[local] Abbreviation pt := (fun i : Z => fadd a (fmul (of_int i) (dx N a b))).

Lemma sample1_pt i : sample1 N a b i = pt i.
Proof. unfold sample1. apply fadd_comm. Qed.

Lemma sample2_pt i : sample2 N a b i = pt i.
Proof. unfold sample2. rewrite fadd_comm, fmul_comm. reflexivity. Qed.

Lemma partial_sum (sample : Z -> F) l :
  (forall i, sample i = pt i) ->
  fold_left (fun R i => fadd R (f (sample i))) l fzero
  = sum_list (map (fun i => f (pt i)) l).
Proof.
  intros Hs. rewrite (fold_left_fadd (fun i => f (sample i))), fadd_zero_l.
  f_equal. apply map_ext. intros i. rewrite Hs. reflexivity.
Qed.

Lemma cover_of_schedule T sched :
  0 < T -> Permutation sched (workers T) ->
  Permutation (concat (map (strided T N) sched)) (upto N).
Proof.
  intros HT Hperm. rewrite <- (strided_cover T N HT).
  rewrite <- !flat_map_concat_map. apply Permutation_flat_map. exact Hperm.
Qed.

(** Private sums combined in the order of a schedule. *)
Lemma workers_sum (sample : Z -> F) T sched :
  (forall i, sample i = pt i) -> 0 < T -> Permutation sched (workers T) ->
  fold_left (fun r t =>
               fadd r (fold_left (fun R i => fadd R (f (sample i))) (strided T N t) fzero))
            sched fzero
  = sum_list (map (fun i => f (pt i)) (upto N)).
Proof.
  intros Hs HT Hperm.
  rewrite (fold_left_fadd
             (fun t => fold_left (fun R i => fadd R (f (sample i))) (strided T N t) fzero)),
    fadd_zero_l.
  rewrite (map_ext _ (fun t => sum_list (map (fun i => f (pt i)) (strided T N t))))
    by (intros t; apply partial_sum; exact Hs).
  rewrite <- (map_map (strided T N) (fun l => sum_list (map (fun i => f (pt i)) l))).
  rewrite sum_list_concat.
  apply sum_list_perm, Permutation_map, cover_of_schedule; assumption.
Qed.

(** Private sums collected from the slots in index order. *)
Lemma slots_sum (sample : Z -> F) T :
  (forall i, sample i = pt i) -> 0 < T ->
  fold_left fadd
            (map (fun t => fold_left (fun R i => fadd R (f (sample i))) (strided T N t) fzero)
                 (upto T)) fzero
  = sum_list (map (fun i => f (pt i)) (upto N)).
Proof.
  intros Hs HT. rewrite fold_left_sum_list.
  rewrite (map_ext _ (fun t => sum_list (map (fun i => f (pt i)) (strided T N t))))
    by (intros t; apply partial_sum; exact Hs).
  rewrite <- (map_map (strided T N) (fun l => sum_list (map (fun i => f (pt i)) l))).
  rewrite sum_list_concat.
  apply sum_list_perm, Permutation_map, (strided_cover T N HT).
Qed.

(** Private sums of the chunks of a worksharing loop. *)
Lemma chunks_sum (sample : Z -> F) chunks :
  (forall i, sample i = pt i) -> Permutation (concat chunks) (upto N) ->
  fold_left (fun r chunk =>
               fadd r (fold_left (fun R i => fadd R (f (sample i))) chunk fzero))
            chunks fzero
  = sum_list (map (fun i => f (pt i)) (upto N)).
Proof.
  intros Hs Hperm.
  rewrite (fold_left_fadd
             (fun chunk => fold_left (fun R i => fadd R (f (sample i))) chunk fzero)),
    fadd_zero_l.
  rewrite (map_ext _ (fun chunk => sum_list (map (fun i => f (pt i)) chunk)))
    by (intros t; apply partial_sum; exact Hs).
  rewrite sum_list_concat.
  apply sum_list_perm, Permutation_map. exact Hperm.
Qed.

Lemma logged_points (sample : Z -> F) l :
  (forall i, sample i = pt i) -> Permutation l (upto N) ->
  Permutation (evals (logged start (map (fun i => (i, sample i)) l)))
              (sample_points N a b).
Proof.
  intros Hs Hperm. unfold logged, sample_points; simpl.
  rewrite (map_ext _ (fun i => (i, pt i))) by (intros i; rewrite Hs; reflexivity).
  apply Permutation_map. exact Hperm.
Qed.

Lemma logged_forked_points (sample : Z -> F) ths l :
  (forall i, sample i = pt i) -> Permutation l (upto N) ->
  Permutation (evals (logged (forked start ths) (map (fun i => (i, sample i)) l)))
              (sample_points N a b).
Proof. intros Hs Hperm. apply (logged_points sample l Hs Hperm). Qed.

(** Every strategy, run to completion, returns the left Riemann sum and
    has called the integrand at the sample points, each once. *)
Lemma integrate_exact (s : strategy) fuel T choices base chunks :
  1 <= T -> 1 <= N -> N + T <= 2 ^ 31 -> (Z.to_nat (N + T) <= fuel)%nat ->
  Permutation (concat chunks) (upto N) ->
  exists w' : World F,
    integrate s N a b f fuel T choices (Some base) chunks start
    = Done (left_riemann_sum N a b f, w') /\
    Permutation (evals w') (sample_points N a b).
Proof.
  intros HT HN Hlim Hfuel Hchunks.
  assert (Permutation (schedule choices (workers T)) (workers T)) as Hsched
      by apply schedule_perm.
  assert (Permutation (schedule choices (strided 1 T 1 ++ [0])) (workers T)) as Hsched'
      by (etransitivity; [apply schedule_perm|apply threads_and_main; lia]).
  unfold left_riemann_sum.
  destruct s; simpl integrate; eexists.
  - rewrite integrateDefault_shape by lia. split.
    + rewrite (partial_sum _ _ sample1_pt). reflexivity.
    + apply (logged_points _ _ sample1_pt). apply Permutation_refl.
  - rewrite integrateCrit_shape by lia. split.
    + rewrite (workers_sum _ T _ sample1_pt) by (lia || assumption). reflexivity.
    + apply (logged_points _ _ sample1_pt), cover_of_schedule; [lia|assumption].
  - rewrite integrateMutex_shape by lia. split.
    + rewrite (workers_sum _ T _ sample1_pt) by (lia || assumption). reflexivity.
    + apply (logged_forked_points _ _ _ sample1_pt), cover_of_schedule; [lia|assumption].
  - rewrite integrateArr_shape by lia. split.
    + rewrite (slots_sum _ T sample2_pt) by lia. reflexivity.
    + apply (logged_points _ _ sample2_pt), cover_of_schedule; [lia|assumption].
  - rewrite integrateArrAlign_shape by lia. split.
    + rewrite (slots_sum _ T sample2_pt) by lia. reflexivity.
    + apply (logged_points _ _ sample2_pt), cover_of_schedule; [lia|assumption].
  - rewrite integrateReduction_shape. split.
    + rewrite (chunks_sum _ _ sample2_pt) by assumption. reflexivity.
    + apply (logged_points _ _ sample2_pt). assumption.
  - rewrite integratePS_shape by lia. split.
    + rewrite (slots_sum _ T sample2_pt) by lia. reflexivity.
    + apply (logged_forked_points _ _ _ sample2_pt), cover_of_schedule; [lia|assumption].
  - rewrite integrateAtomic_shape by lia. split.
    + rewrite (workers_sum _ T _ sample1_pt) by (lia || assumption). reflexivity.
    + apply (logged_forked_points _ _ _ sample1_pt), cover_of_schedule; [lia|assumption].
Qed.

End ExactSums.



(** ** A worker count of zero *)

Lemma zero_stride_diverges {W S} k fuel N i (body : Z -> S -> M W S) :
  0 <= i < N -> i < limit k ->
  (forall s w, exists s' w', body i s w = Done (s', w')) ->
  forall s w, strided_for k fuel 0 N i body s w = OutOfFuel.
Proof.
  intros Hi Hlim Hbody. induction fuel as [|fuel IH]; intros s w; simpl.
  - destruct (Z.ltb_spec i N); [reflexivity|lia].
  - destruct (Z.ltb_spec i N); [|lia].
    destruct (Hbody s w) as (s' & w' & Hb).
    erewrite bind_done by exact Hb.
    rewrite Z.add_0_r, wrap_small by lia. apply IH.
Qed.

Lemma strided_for_skip {W S} k fuel T N i (body : Z -> S -> M W S) s w :
  N <= i -> strided_for k fuel T N i body s w = Done (s, w).
Proof.
  intros Hi. destruct fuel; simpl; destruct (Z.ltb_spec i N); try lia; reflexivity.
Qed.

(** C4 (as amended): a worker count of zero is not rejected. With
    [T = 0], [integrateMutex] creates no thread, evaluates no sample and
    returns [0 * dx]; [integrateAtomic] creates no thread and runs worker
    0 on the calling thread with stride zero, which never terminates;
    [integratePS] creates no thread and its worker 0 accesses slot 0 of an
    empty vector, which is undefined behaviour. *)
Theorem zero_workers_not_rejected {F : Type} {AF : Arith F}
        (a b : F) (g : F -> F) (fuel : nat) (choices : list nat) :
  integrateMutex STEPS a b g fuel 0 choices start
  = Done (fmul fzero (dx STEPS a b), start) /\
  integrateAtomic STEPS a b g fuel 0 choices start = OutOfFuel /\
  integratePS STEPS a b g (S fuel) 0 choices start = Undefined OutOfBounds.
Proof.
  split; [|split].
  - unfold integrateMutex, spawn_threads.
    erewrite bind_done by (apply strided_for_skip; lia).
    rewrite schedule_nil. reflexivity.
  - unfold integrateAtomic, spawn_threads.
    erewrite bind_done by (apply strided_for_skip; lia).
    simpl app. rewrite schedule_single. simpl foldM.
    unfold bind at 1 2, private_then_combine, bind at 1.
    rewrite (zero_stride_diverges U32); [reflexivity|unfold STEPS; lia|simpl; lia|].
    intros s w. unfold accumulate, bind, call_f, ret. eauto.
  - unfold integratePS, spawn_threads.
    erewrite bind_done by (apply strided_for_skip; lia).
    simpl app. rewrite schedule_single. reflexivity.
Qed.

(** C4 as stated fails: with [T = 0], [integrateMutex] returns a number. *)
Lemma zero_workers_mutex_returns :
  value_of (integrateMutex STEPS A B f 0 0 [] start) = Done 0%float.
Proof. vm_compute. reflexivity. Qed.

(** ** A failed allocation *)

Lemma null_accum_workers {F : Type} {AF : Arith F} (N : Z) (a b : F) (g : F -> F)
      fuel T sched (w : World F) :
  (exists t, In t sched /\ t < N) ->
  foldM (fun t accum => strided_for U32 (S fuel) T N t (slot_accumulate N a b g t) accum)
        sched None w
  = Undefined NullDeref.
Proof.
  revert w; induction sched as [|t sched IH]; intros w (t0 & Hin & Hlt).
  - destruct Hin.
  - simpl. unfold bind at 1.
    destruct (Z.ltb_spec t N) as [Ht|Ht].
    + reflexivity.
    + apply IH. destruct Hin as [->|Hin]; [lia|]. exists t0. split; assumption.
Qed.

(** C5 (as amended): a failed allocation is not detected. In
    [integrateArr] the pointer stays null and a worker writes [accum[t]]
    through it; in [integrateArrAlign] the null pointer is handed to
    [memset]. Both are undefined behaviour; the program raises no error
    of its own. *)
Theorem failed_allocation_not_detected {F : Type} {AF : Arith F}
        (a b : F) (g : F -> F) (fuel : nat) (T : Z) (choices : list nat) :
  1 <= T ->
  integrateArr STEPS a b g (S fuel) T choices None start = Undefined NullDeref /\
  integrateArrAlign STEPS a b g fuel T choices None start = Undefined NullDeref.
Proof.
  intros HT. split; [|reflexivity].
  unfold integrateArr, calloc, team. rewrite Z.max_r by lia. unfold bind at 1.
  rewrite null_accum_workers; [reflexivity|].
  exists 0. split; [|unfold STEPS; lia].
  apply Permutation_in with (workers T); [symmetry; apply schedule_perm|].
  apply in_upto. lia.
Qed.

Lemma failed_allocation_not_detected_witness :
  integrateArr STEPS A B (@f float _) 1 4 [] None start = Undefined NullDeref /\
  integrateArrAlign STEPS A B (@f float _) 0 4 [] None start = Undefined NullDeref.
Proof. apply (failed_allocation_not_detected A B f 0 4 []). lia. Defined.

(** C5 as stated fails: when the allocation fails, worker 0 of
    [integrateArr] accumulates through the null pointer at its first
    sample, and that is how the run ends. *)
Lemma failed_allocation_null_write :
  slot_accumulate STEPS A B (@f float _) 0 0 None start = Undefined NullDeref /\
  integrateArr STEPS A B (@f float _) 1 1 [] None start = Undefined NullDeref.
Proof. split; vm_compute; reflexivity. Qed.

(** ** binary64 facts *)

Lemma Prim2SF_zero : Prim2SF PrimFloat.zero = S754_zero false.
Proof. reflexivity. Qed.





(** ** The driver *)

Lemma range_step lo hi : lo <= hi -> range lo hi = lo :: range (lo + 1) hi.
Proof. intros H. unfold range. apply strided_step; lia. Qed.

Lemma range_done lo hi : hi < lo -> range lo hi = [].
Proof. intros H. unfold range. apply strided_done; lia. Qed.

Section DriverFacts.
Context {F : Type} {AF : Arith F}.
Variables (clock : nat -> F) (val : Z -> F).

(** The row the driver prints for the run with [T] threads. *)
#[local] Abbreviation row T1 :=
  (fun T : Z => (val T, elapsed clock (Z.to_nat (T - 1)),
                 fdiv T1 (elapsed clock (Z.to_nat (T - 1))))).

Lemma sweep_rows T1 P fuel :
  P < INT_MAX ->
  forall T (w : Bench F),
    1 <= T -> (Z.to_nat (P + 1 - T) <= fuel)%nat -> ticks w = (2 * Z.to_nat (T - 1))%nat ->
    exists w' : Bench F,
      sweep clock (fun T => Done (val T)) fuel T1 T P w = Done (tt, w') /\
      runs w' = runs w ++ range T P /\
      printed w' = printed w ++ map (row T1) (range T P).
Proof.
  intros HP. induction fuel as [|fuel IH]; intros T w HT Hfuel Hticks.
  - exists w. simpl. destruct (Z.leb_spec T P); [lia|].
    rewrite range_done by lia. simpl. rewrite !app_nil_r.
    split; [reflexivity|split; reflexivity].
  - simpl. destruct (Z.leb_spec T P) as [Hle|Hgt].
    + unfold bind, set_num_threads, runExperiment, bind, omp_get_wtime, invoke, printf, ret.
      simpl. destruct (Z.eqb_spec T INT_MAX) as [->|_]; [lia|].
      edestruct (IH (T + 1)) as (w' & Hrun & Hruns & Hprinted);
        [| | |exists w'; split; [exact Hrun|]].
      * lia.
      * lia.
      * simpl. rewrite Hticks. replace (T + 1 - 1) with T by ring. lia.
      * rewrite Hruns, Hprinted, (range_step T P) by assumption. simpl.
        rewrite <- !app_assoc, Hticks. simpl.
        split; [reflexivity|]. reflexivity.
    + exists w. rewrite range_done by lia. simpl. rewrite !app_nil_r.
      split; [reflexivity|split; reflexivity].
Qed.

Lemma showExperimentResults_rows P fuel :
  P < INT_MAX -> (Z.to_nat P <= fuel)%nat ->
  exists w' : Bench F,
    showExperimentResults clock (fun T => Done (val T)) fuel P boot = Done (tt, w') /\
    runs w' = 1 :: range 2 P /\
    printed w' = map (row (elapsed clock 0)) (1 :: range 2 P).
Proof.
  intros HP Hfuel. unfold showExperimentResults.
  unfold bind at 1 2 3, set_num_threads, runExperiment, bind, omp_get_wtime, invoke,
    printf, ret. simpl.
  edestruct (sweep_rows (fsub (clock 1%nat) (clock 0%nat)) P fuel HP 2) as (w' & Hrun & Hruns & Hprinted);
    [| | |exists w'; split; [exact Hrun|]].
  - lia.
  - lia.
  - reflexivity.
  - rewrite Hruns, Hprinted. simpl. split; reflexivity.
Qed.

End DriverFacts.



(** ** The padded slots *)

Lemma sizeof_partialSumT_value : sizeof_partialSumT = 64.
Proof. reflexivity. Qed.

Lemma cache_line_of_slot (accum t o : Z) :
  aligned CACHE_LINE accum -> 0 <= o < sizeof_partialSumT ->
  cache_line_of (slot_address accum t + o) = accum / CACHE_LINE + t.
Proof.
  unfold aligned, cache_line_of, slot_address. rewrite sizeof_partialSumT_value.
  unfold CACHE_LINE. intros Hal Ho.
  pose proof (Z.div_mod accum 64 ltac:(lia)) as Hdm. rewrite Hal in Hdm.
  set (q := accum / 64) in *.
  replace (accum + t * 64 + o) with (o + (q + t) * 64) by lia.
  rewrite Z.div_add by lia. rewrite Z.div_small by lia. lia.
Qed.

(** C7: in the padded strategy, for every [T >= 1] and every pointer
    that [aligned_alloc(CACHE_LINE, ...)] may return, a slot is at least a
    cache line long, the address of every slot is a multiple of the cache
    line size, and no byte of one worker's slot lies in a cache line that
    holds a byte of another worker's slot. *)
Theorem padded_slots_do_not_share (accum T : Z) :
  1 <= T -> aligned CACHE_LINE accum ->
  CACHE_LINE <= sizeof_partialSumT /\
  (forall t, 0 <= t < T -> slot_address accum t mod CACHE_LINE = 0) /\
  (forall t t' o o',
      0 <= t < T -> 0 <= t' < T -> t <> t' ->
      0 <= o < sizeof_partialSumT -> 0 <= o' < sizeof_partialSumT ->
      cache_line_of (slot_address accum t + o)
      <> cache_line_of (slot_address accum t' + o')).
Proof.
  intros HT Hal. split; [|split].
  - rewrite sizeof_partialSumT_value. unfold CACHE_LINE. lia.
  - intros t Ht. unfold slot_address. rewrite sizeof_partialSumT_value.
    unfold aligned, CACHE_LINE in *.
    rewrite Z.mod_add by lia. exact Hal.
  - intros t t' o o' Ht Ht' Hne Ho Ho'.
    rewrite !cache_line_of_slot by assumption. lia.
Qed.

Lemma padded_slots_do_not_share_witness :
  CACHE_LINE <= sizeof_partialSumT /\
  (forall t, 0 <= t < 4 -> slot_address 4096 t mod CACHE_LINE = 0) /\
  (forall t t' o o',
      0 <= t < 4 -> 0 <= t' < 4 -> t <> t' ->
      0 <= o < sizeof_partialSumT -> 0 <= o' < sizeof_partialSumT ->
      cache_line_of (slot_address 4096 t + o)
      <> cache_line_of (slot_address 4096 t' + o')).
Proof.
  apply (padded_slots_do_not_share 4096 4).
  - lia.
  - reflexivity.
Defined.

(** ** binary64: rounding never produces a zero from a nonzero sum *)

Lemma digits2_pos_lower (p : positive) : 2 ^ (Zpos (digits2_pos p) - 1) <= Zpos p.
Proof.
  induction p as [p IH|p IH|]; simpl digits2_pos.
  - rewrite Pos2Z.inj_succ. replace (Z.succ (Zpos (digits2_pos p)) - 1) with (Z.succ (Zpos (digits2_pos p) - 1)) by lia.
    rewrite Z.pow_succ_r by lia. lia.
  - rewrite Pos2Z.inj_succ. replace (Z.succ (Zpos (digits2_pos p)) - 1) with (Z.succ (Zpos (digits2_pos p) - 1)) by lia.
    rewrite Z.pow_succ_r by lia. lia.
  - simpl. lia.
Qed.

Lemma shr_1_m (mrs : shr_record) : 0 <= shr_m mrs -> shr_m (shr_1 mrs) = shr_m mrs / 2.
Proof.
  destruct mrs as [m r s]. simpl. intros Hm.
  destruct m as [|p|p]; try lia.
  - reflexivity.
  - destruct p as [p|p|]; simpl shr_m.
    + rewrite Pos2Z.inj_xI. apply Z.div_unique with 1; lia.
    + rewrite Pos2Z.inj_xO. apply Z.div_unique with 0; lia.
    + reflexivity.
Qed.

Lemma iter_shr_1_m (p : positive) (mrs : shr_record) :
  0 <= shr_m mrs -> shr_m (SpecFloat.iter_pos shr_1 p mrs) = shr_m mrs / 2 ^ Zpos p.
Proof.
  revert mrs. induction p as [p IH|p IH|]; intros mrs Hm; simpl SpecFloat.iter_pos.
  - assert (0 < 2 ^ Zpos p) as Hpow by (apply Z.pow_pos_nonneg; lia).
    assert (0 <= shr_m (shr_1 mrs)) as H1 by (rewrite shr_1_m by lia; apply Z.div_pos; lia).
    assert (0 <= shr_m (SpecFloat.iter_pos shr_1 p (shr_1 mrs))) as H2
        by (rewrite IH by lia; apply Z.div_pos; lia).
    rewrite IH, IH, shr_1_m by lia.
    rewrite !Z.div_div by lia.
    replace (2 ^ Zpos p~1) with (2 * (2 ^ Zpos p * 2 ^ Zpos p)); [reflexivity|].
    replace (Zpos p~1) with (1 + Zpos p + Zpos p) by lia.
    rewrite !Z.pow_add_r by lia. lia.
  - assert (0 < 2 ^ Zpos p) as Hpow by (apply Z.pow_pos_nonneg; lia).
    assert (0 <= shr_m (SpecFloat.iter_pos shr_1 p mrs)) as H2
        by (rewrite IH by lia; apply Z.div_pos; lia).
    rewrite IH, IH by lia.
    rewrite !Z.div_div by lia.
    replace (2 ^ Zpos p~0) with (2 ^ Zpos p * 2 ^ Zpos p); [reflexivity|].
    replace (Zpos p~0) with (Zpos p + Zpos p) by lia.
    rewrite Z.pow_add_r by lia. reflexivity.
  - rewrite shr_1_m by lia. reflexivity.
Qed.

Lemma shr_m_of_loc m l : shr_m (shr_record_of_loc m l) = m.
Proof. destruct l as [|[| |]]; reflexivity. Qed.

Lemma shr_fexp_pos (m e : Z) (l : location) :
  0 < m -> emin <= e ->
  0 < shr_m (fst (shr_fexp prec emax m e l)) /\ emin <= snd (shr_fexp prec emax m e l).
Proof.
  intros Hm He. unfold shr_fexp, shr.
  destruct m as [|p|p]; try lia. simpl Zdigits2.
  pose proof (digits2_pos_lower p) as Hd.
  set (d := Zpos (digits2_pos p)) in *.
  assert (fexp prec emax (d + e) - e = Z.max (d - prec) (emin - e)) as Hn
      by (unfold fexp; fold emin; lia).
  rewrite Hn.
  destruct (Z.max (d - prec) (emin - e)) as [|n|n] eqn:En; simpl fst; simpl snd.
  - rewrite shr_m_of_loc. lia.
  - rewrite iter_shr_1_m by (rewrite shr_m_of_loc; lia).
    rewrite shr_m_of_loc. split; [|lia].
    assert (Zpos n <= d - 1) by (unfold prec in *; lia).
    assert (2 ^ Zpos n <= 2 ^ (d - 1)) by (apply Z.pow_le_mono_r; lia).
    assert (1 <= Zpos p / 2 ^ Zpos n); [|lia].
    apply Z.div_le_lower_bound; lia.
  - rewrite shr_m_of_loc. lia.
Qed.

Lemma round_nearest_even_pos m l : 0 < m -> 0 < round_nearest_even m l.
Proof.
  intros Hm. unfold round_nearest_even.
  destruct l as [|[| |]]; try lia. destruct (Z.even m); lia.
Qed.

Lemma binary_round_aux_nonzero sx mx ex lx s :
  0 < mx -> emin <= ex -> binary_round_aux prec emax sx mx ex lx <> S754_zero s.
Proof.
  intros Hm He. unfold binary_round_aux.
  destruct (shr_fexp_pos mx ex lx Hm He) as [Hm1 He1].
  destruct (shr_fexp prec emax mx ex lx) as [mrs' e'] eqn:E1. simpl in Hm1, He1.
  pose proof (round_nearest_even_pos (shr_m mrs') (loc_of_shr_record mrs') Hm1) as Hr.
  destruct (shr_fexp_pos _ e' loc_Exact Hr He1) as [Hm2 He2].
  destruct (shr_fexp prec emax _ e' loc_Exact) as [mrs'' e''] eqn:E2. simpl in Hm2, He2.
  destruct (shr_m mrs'') as [|m|m]; try lia.
  destruct (e'' <=? emax - prec); discriminate.
Qed.

Lemma binary_round_nonzero sx mx ex s :
  emin <= ex -> binary_round prec emax sx mx ex <> S754_zero s.
Proof.
  intros He. unfold binary_round, shl_align.
  set (ex' := fexp prec emax (Zpos (digits2_pos mx) + ex)).
  assert (emin <= ex') by (unfold ex', fexp; fold emin; lia).
  destruct (ex' - ex) as [|d|d]; apply binary_round_aux_nonzero; lia.
Qed.

Lemma binary_normalize_not_neg_zero m e :
  emin <= e -> binary_normalize prec emax m e false <> S754_zero true.
Proof.
  intros He. unfold binary_normalize.
  destruct m; [discriminate| |]; apply binary_round_nonzero; exact He.
Qed.

Lemma valid_finite_emin s m e :
  valid_binary (S754_finite s m e) = true -> emin <= e.
Proof.
  unfold SpecFloat.valid_binary, bounded, canonical_mantissa.
  intros H. apply andb_prop in H as [H _]. apply Z.eqb_eq in H.
  unfold fexp in H. fold emin in H. lia.
Qed.

Lemma SFadd_not_neg_zero x y :
  valid_binary x = true -> valid_binary y = true ->
  x <> S754_zero true -> SF64add x y <> S754_zero true.
Proof.
  intros Hx Hy Hnz. unfold SF64add, SFadd.
  destruct x as [sx|sx| |sx mx ex], y as [sy|sy| |sy my ey];
    try discriminate; try assumption.
  - destruct sx, sy; try discriminate. congruence.
  - destruct sx, sy; discriminate.
  - apply valid_finite_emin in Hx, Hy.
    apply binary_normalize_not_neg_zero. lia.
Qed.

Lemma Prim2SF_neg_zero : Prim2SF neg_zero = S754_zero true.
Proof. reflexivity. Qed.

Lemma float_add_not_neg_zero (x y : float) :
  x <> neg_zero -> PrimFloat.add x y <> neg_zero.
Proof.
  intros Hx Hxy. apply (f_equal Prim2SF) in Hxy.
  rewrite add_spec, Prim2SF_neg_zero in Hxy. revert Hxy.
  apply SFadd_not_neg_zero; try apply Prim2SF_valid.
  intros H. apply Hx. apply Prim2SF_inj. rewrite H. reflexivity.
Qed.

Lemma float_add_zero_l (x : float) : x <> neg_zero -> PrimFloat.add PrimFloat.zero x = x.
Proof.
  intros Hx. apply Prim2SF_inj. rewrite add_spec.
  change (Prim2SF PrimFloat.zero) with (S754_zero false).
  assert (Prim2SF x <> S754_zero true) as Hnz.
  { intros H. apply Hx. apply Prim2SF_inj. rewrite H. reflexivity. }
  unfold SF64add, SFadd. destruct (Prim2SF x) as [s|s| |s m e]; try reflexivity.
  destruct s; [congruence|reflexivity].
Qed.

Lemma SFmul_comm x y : SF64mul x y = SF64mul y x.
Proof.
  unfold SF64mul, SFmul.
  destruct x as [sx|sx| |sx mx ex], y as [sy|sy| |sy my ey];
    try reflexivity; try (rewrite xorb_comm; reflexivity).
  rewrite xorb_comm, Pos.mul_comm, Z.add_comm. reflexivity.
Qed.

Lemma float_mul_comm (x y : float) : PrimFloat.mul x y = PrimFloat.mul y x.
Proof. apply Prim2SF_inj. rewrite !mul_spec. apply SFmul_comm. Qed.

Lemma zero_not_neg_zero : PrimFloat.zero <> neg_zero.
Proof.
  intros H. apply (f_equal Prim2SF) in H. discriminate H.
Qed.

(** ** One worker: the same additions in the same order *)

Lemma running_sum_not_neg_zero {X} (h : X -> float) (l : list X) (r : float) :
  r <> neg_zero -> fold_left (fun R i => fadd R (h i)) l r <> neg_zero.
Proof.
  revert r; induction l as [|i l IH]; intros r Hr; simpl.
  - exact Hr.
  - apply IH. apply float_add_not_neg_zero. exact Hr.
Qed.

Lemma sample2_sample1_float (N : Z) (a b : float) (i : Z) :
  sample2 N a b i = sample1 N a b i.
Proof. unfold sample1, sample2. simpl fmul. rewrite float_mul_comm. reflexivity. Qed.

Lemma single_worker_sum (N : Z) (a b : float) (g : float -> float) (sample : Z -> float) :
  (forall i, sample i = sample1 N a b i) ->
  fadd fzero (fold_left (fun R i => fadd R (g (sample i))) (strided 1 N 0) fzero)
  = fold_left (fun R i => fadd R (g (sample1 N a b i))) (upto N) fzero.
Proof.
  intros Hs. rewrite strided_one.
  replace (fold_left (fun R i => fadd R (g (sample i))) (upto N) fzero)
    with (fold_left (fun R i => fadd R (g (sample1 N a b i))) (upto N) fzero).
  - apply float_add_zero_l.
    apply (running_sum_not_neg_zero (fun i => g (sample1 N a b i))).
    exact zero_not_neg_zero.
  - generalize (@fzero float _). induction (upto N) as [|i l IH]; intros r; simpl.
    + reflexivity.
    + rewrite Hs. apply IH.
Qed.

Lemma single_worker_log (N : Z) (a b : float) (sample : Z -> float) (w : World float) :
  (forall i, sample i = sample1 N a b i) ->
  logged w (map (fun i => (i, sample i)) (concat (map (strided 1 N) [0])))
  = logged w (map (fun i => (i, sample1 N a b i)) (upto N)).
Proof.
  intros Hs. cbn [map concat]. rewrite app_nil_r, strided_one.
  f_equal. apply map_ext. intros i. rewrite Hs. reflexivity.
Qed.

Lemma single_worker_same (N : Z) (a b : float) (g : float -> float)
      (fuel : nat) (choices : list nat) :
  1 <= N -> N + 1 <= 2 ^ 31 -> (Z.to_nat (N + 1) <= fuel)%nat ->
  exists (v : float) (w : World float),
    integrateDefault N a b g fuel start = Done (v, w) /\
    evals w = map (fun i => (i, sample1 N a b i)) (upto N) /\
    spawned w = [] /\
    integratePS N a b g fuel 1 choices start = Done (v, w) /\
    integrateAtomic N a b g fuel 1 choices start = Done (v, w) /\
    integrateMutex N a b g fuel 1 choices start = Done (v, forked w [0]).
Proof.
  intros HN Hlim Hfuel.
  exists (fmul (fold_left (fun R i => fadd R (g (sample1 N a b i))) (upto N) fzero)
               (dx N a b)),
         (logged start (map (fun i => (i, sample1 N a b i)) (upto N))).
  split; [apply integrateDefault_shape; lia|].
  split; [reflexivity|]. split; [reflexivity|].
  assert (strided 1 1 1 = []) as Hno by (apply strided_done; lia).
  split; [|split].
  - rewrite integratePS_shape by lia.
    rewrite Hno. cbn [app]. rewrite schedule_single.
    rewrite (single_worker_log N a b (sample2 N a b))
      by apply sample2_sample1_float.
    change (upto 1) with [0]. cbn [map fold_left].
    rewrite (single_worker_sum N a b g (sample2 N a b))
      by apply sample2_sample1_float.
    reflexivity.
  - rewrite integrateAtomic_shape by lia.
    rewrite Hno. cbn [app]. rewrite schedule_single.
    rewrite (single_worker_log N a b (sample1 N a b)) by reflexivity.
    cbn [fold_left].
    rewrite (single_worker_sum N a b g (sample1 N a b)) by reflexivity.
    reflexivity.
  - rewrite integrateMutex_shape by lia.
    change (workers 1) with [0]. rewrite schedule_single.
    rewrite (single_worker_log N a b (sample1 N a b)) by reflexivity.
    cbn [fold_left].
    rewrite (single_worker_sum N a b g (sample1 N a b)) by reflexivity.
    reflexivity.
Qed.

(** C10: with one worker, over binary64, [integratePS] and
    [integrateAtomic] create no thread and [integrateMutex] creates one;
    each calls the integrand at indices 0, 1, 2, ... in increasing order,
    at the same arguments as [integrateDefault], and returns the very
    float [integrateDefault] returns. *)
Theorem single_worker_bitwise (a b : float) (g : float -> float)
        (fuel : nat) (choices : list nat) :
  (Z.to_nat (STEPS + 1) <= fuel)%nat ->
  exists (v : float) (w : World float),
    integrateDefault STEPS a b g fuel start = Done (v, w) /\
    evals w = map (fun i => (i, sample1 STEPS a b i)) (upto STEPS) /\
    spawned w = [] /\
    integratePS STEPS a b g fuel 1 choices start = Done (v, w) /\
    integrateAtomic STEPS a b g fuel 1 choices start = Done (v, w) /\
    integrateMutex STEPS a b g fuel 1 choices start = Done (v, forked w [0]).
Proof.
  intros Hfuel. apply single_worker_same.
  - unfold STEPS; lia.
  - unfold STEPS; lia.
  - exact Hfuel.
Qed.

Lemma single_worker_bitwise_witness :
  exists (v : float) (w : World float),
    integrateDefault STEPS A B f (Z.to_nat (STEPS + 1)) start = Done (v, w) /\
    evals w = map (fun i => (i, sample1 STEPS A B i)) (upto STEPS) /\
    spawned w = [] /\
    integratePS STEPS A B f (Z.to_nat (STEPS + 1)) 1 [] start = Done (v, w) /\
    integrateAtomic STEPS A B f (Z.to_nat (STEPS + 1)) 1 [] start = Done (v, w) /\
    integrateMutex STEPS A B f (Z.to_nat (STEPS + 1)) 1 [] start = Done (v, forked w [0]).
Proof. apply (single_worker_bitwise A B f (Z.to_nat (STEPS + 1)) []). apply le_n. Defined.

(** ** The jump-ahead generator *)

Lemma getA_returns (fuel : nat) (size a : Z) :
  0 <= size -> size + 2 <= 2 ^ 32 -> (Z.to_nat (size + 1) <= fuel)%nat ->
  exists v : Z, getA fuel size a tt = Done (v, tt).
Proof.
  intros Hs Hlim Hfuel. unfold getA.
  rewrite (strided_for_foldM U32); try (simpl; lia).
  - assert (forall (l : list Z) (r : Z),
               exists v : Z,
                 foldM (W := unit) (fun _ res => ret (u64 (res * a))) l r tt = Done (v, tt)) as H.
    { induction l as [|i l IH]; intros r; simpl.
      - exists r. reflexivity.
      - unfold bind, ret at 1. apply IH. }
    apply H.
  - pose proof (count_le 1 (size + 1) 1). lia.
Qed.

(** [getB] writes [acc[1]] in its first iteration, past the one cell that
    [new uint64_t(size)] allocated. *)
Lemma getB_out_of_bounds (fuel : nat) (size a : Z) :
  1 <= size -> getB (S fuel) size a tt = Undefined OutOfBounds.
Proof.
  intros Hs. unfold getB.
  erewrite bind_done by reflexivity.
  unfold bind at 1. cbn [strided_for].
  destruct (Z.ltb_spec 1 (size + 1)); [|lia].
  reflexivity.
Qed.

(** C9 (the defect): for every worker count [T >= 2],
    [randomize_arr_fs] computes [getB(T - 1, a)] before any worker runs,
    and that call writes outside its allocation: the behaviour of the
    parallel generator is undefined, whatever the array. *)
Theorem randomize_arr_fs_out_of_bounds {F : Type} {AF : Arith F}
        (fuel : nat) (T : Z) (choices : list nat) (V : list Z) (n : Z) :
  2 <= T -> T + 2 <= 2 ^ 32 -> (Z.to_nat (T + 1) <= fuel)%nat ->
  randomize_arr_fs (F := F) (S fuel) T choices V n tt = Undefined OutOfBounds.
Proof.
  intros HT Hlim Hfuel. unfold randomize_arr_fs.
  destruct (getA_returns (S fuel) T lcg_a) as (v & Hv); try lia.
  erewrite bind_done by exact Hv.
  unfold bind at 1.
  rewrite wrap_small by (simpl; lia).
  rewrite getB_out_of_bounds by lia. reflexivity.
Qed.

Lemma randomize_arr_fs_out_of_bounds_witness :
  randomize_arr_fs (F := float) 4 2 [] [0; 0] 2 tt = Undefined OutOfBounds.
Proof.
  apply (randomize_arr_fs_out_of_bounds 3 2 [] [0; 0] 2); simpl; lia.
Defined.

(** On the same input the sequential generator fills the array. *)
Lemma randomize_arr_single_two :
  randomize_arr_single (F := float) 4 [0; 0] 2 tt
  = Done ([58; 151], mean 209 2, tt).
Proof. vm_compute. reflexivity. Qed.

(** ** Rounding errors of binary64 and the value of the benchmark *)

(** *** Shifting and rounding a mantissa

    [shr_1] on a nonnegative mantissa. *)
Lemma shr_1_spec (m : Z) (r s : bool) :
  0 <= m ->
  shr_1 {| shr_m := m; shr_r := r; shr_s := s |}
  = {| shr_m := m / 2; shr_r := Z.odd m; shr_s := r || s |}.
Proof.
  intros Hm. destruct m as [|p|p]; try lia.
  - reflexivity.
  - destruct p as [p|p|]; simpl.
    + f_equal. rewrite Pos2Z.inj_xI. apply Z.div_unique with 1; lia.
    + f_equal. rewrite Pos2Z.inj_xO. apply Z.div_unique with 0; lia.
    + reflexivity.
Qed.

Lemma iter_pos_nat {X} (g : X -> X) (p : positive) (x : X) :
  SpecFloat.iter_pos g p x = Nat.iter (Pos.to_nat p) g x.
Proof.
  revert x. induction p as [p IH|p IH|]; intros x; simpl SpecFloat.iter_pos.
  - rewrite !IH, Pos2Nat.inj_xI.
    replace (S (2 * Pos.to_nat p)) with (Pos.to_nat p + (Pos.to_nat p + 1))%nat by lia.
    rewrite !Nat.iter_add. simpl. reflexivity.
  - rewrite !IH, Pos2Nat.inj_xO.
    replace (2 * Pos.to_nat p)%nat with (Pos.to_nat p + Pos.to_nat p)%nat by lia.
    rewrite Nat.iter_add. reflexivity.
  - reflexivity.
Qed.

Lemma shr_iter_rest (m0 : Z) (k : nat) :
  0 <= m0 ->
  rest_ok (Z.of_nat (S k)) m0
          (Nat.iter (S k) shr_1 {| shr_m := m0; shr_r := false; shr_s := false |}).
Proof.
  intros Hm. induction k as [|k IH].
  - unfold Nat.iter. cbn [nat_rect]. rewrite shr_1_spec by assumption. unfold rest_ok.
    cbn [shr_m shr_r shr_s orb].
    change (2 ^ Z.of_nat 1) with 2. change (2 ^ (Z.of_nat 1 - 1)) with 1.
    split; [reflexivity|].
    rewrite Zodd_mod.
    pose proof (Z.mod_pos_bound m0 2 ltac:(lia)).
    destruct (Z.eqb_spec (m0 mod 2) 1); lia.
  - set (kk := S k) in *.
    change (Nat.iter (S kk) shr_1 ?x) with (shr_1 (Nat.iter kk shr_1 x)).
    destruct (Nat.iter kk shr_1 _) as [m r s]. destruct IH as [Hmk Hrest].
    cbn [shr_m shr_r shr_s] in Hmk, Hrest.
    assert (0 < 2 ^ Z.of_nat kk) as Hpow by (apply Z.pow_pos_nonneg; lia).
    assert (0 <= m) as Hm' by (rewrite Hmk; apply Z.div_pos; lia).
    rewrite shr_1_spec by assumption. unfold rest_ok. cbn [shr_m shr_r shr_s].
    replace (Z.of_nat (S kk)) with (Z.of_nat kk + 1) by lia.
    rewrite Z.pow_add_r, Z.pow_1_r by lia.
    replace (Z.of_nat kk + 1 - 1) with (Z.of_nat kk) by lia.
    split.
    + rewrite Hmk, Z.div_div by lia. reflexivity.
    + rewrite Z.rem_mul_r by lia. rewrite <- Hmk.
      pose proof (Z.mod_pos_bound m0 (2 ^ Z.of_nat kk) Hpow) as Hb.
      assert (2 ^ Z.of_nat kk = 2 * 2 ^ (Z.of_nat kk - 1)) as Hhalf.
      { replace (Z.of_nat kk) with (Z.of_nat kk - 1 + 1) at 1 by lia.
        rewrite Z.pow_add_r by lia. lia. }
      rewrite Zodd_mod.
      pose proof (Z.mod_pos_bound m 2 ltac:(lia)).
      destruct (Z.eqb_spec (m mod 2) 1) as [E|E]; destruct r, s; cbn [orb]; lia.
Qed.

Lemma round_shift_error (m0 : Z) (k : nat) :
  0 <= m0 ->
  let K := Z.of_nat (S k) in
  let mrs := Nat.iter (S k) shr_1 {| shr_m := m0; shr_r := false; shr_s := false |} in
  let m2 := round_nearest_even (shr_m mrs) (loc_of_shr_record mrs) in
  m0 / 2 ^ K <= m2 <= m0 / 2 ^ K + 1 /\ 2 * Z.abs (m2 * 2 ^ K - m0) <= 2 ^ K.
Proof.
  intros Hm K mrs m2.
  pose proof (shr_iter_rest m0 k Hm) as [Hq Hrest]. fold K mrs in Hq, Hrest.
  assert (0 < 2 ^ K) as Hpow by (apply Z.pow_pos_nonneg; lia).
  assert (2 ^ K = 2 * 2 ^ (K - 1)) as Hhalf.
  { replace K with (K - 1 + 1) at 1 by lia.
    rewrite Z.pow_add_r by lia. lia. }
  pose proof (Z.div_mod m0 (2 ^ K) ltac:(lia)) as Hdm.
  pose proof (Z.mod_pos_bound m0 (2 ^ K) Hpow) as Hb.
  unfold m2, round_nearest_even, loc_of_shr_record.
  destruct mrs as [m r s]. cbn [shr_m shr_r shr_s] in *. subst m.
  destruct r, s; try (split; nia).
  destruct (Z.even (m0 / 2 ^ K)); split; nia.
Qed.

Lemma digits2_pos_upper (p : positive) : Zpos p < 2 ^ Zpos (digits2_pos p).
Proof.
  induction p as [p IH|p IH|]; simpl digits2_pos.
  - rewrite Pos2Z.inj_succ, Z.pow_succ_r by lia. lia.
  - rewrite Pos2Z.inj_succ, Z.pow_succ_r by lia. lia.
  - reflexivity.
Qed.

Lemma Zdigits2_bounds (m : Z) :
  0 < m -> 2 ^ (Zdigits2 m - 1) <= m < 2 ^ Zdigits2 m.
Proof.
  intros Hm. destruct m as [|p|p]; try lia. simpl Zdigits2.
  split; [apply digits2_pos_lower|apply digits2_pos_upper].
Qed.

Lemma Zdigits2_pos (m : Z) : 0 < m -> 0 < Zdigits2 m.
Proof. intros Hm. destruct m as [|p|p]; try lia. simpl. lia. Qed.

Lemma Zdigits2_le (m : Z) (k : Z) : 0 < m -> m < 2 ^ k -> 0 <= k -> Zdigits2 m <= k.
Proof.
  intros Hm Hlt Hk. pose proof (Zdigits2_bounds m Hm) as [Hlo _].
  destruct (Z.le_gt_cases (Zdigits2 m) k) as [H|H]; [exact H|].
  assert (2 ^ k <= 2 ^ (Zdigits2 m - 1)) by (apply Z.pow_le_mono_r; lia). lia.
Qed.

Lemma Zdigits2_ge (m : Z) (k : Z) : 0 < m -> 2 ^ k <= m -> 0 <= k -> k + 1 <= Zdigits2 m.
Proof.
  intros Hm Hle Hk. pose proof (Zdigits2_bounds m Hm) as [_ Hhi].
  pose proof (Zdigits2_pos m Hm) as Hd.
  destruct (Z.le_gt_cases (k + 1) (Zdigits2 m)) as [H|H]; [exact H|].
  assert (2 ^ Zdigits2 m <= 2 ^ k) by (apply Z.pow_le_mono_r; lia). lia.
Qed.

(** How [shr_fexp] shifts. *)
Lemma shr_fexp_noshift (m e : Z) (l : location) :
  fexp prec emax (Zdigits2 m + e) - e <= 0 ->
  shr_fexp prec emax m e l = (shr_record_of_loc m l, e).
Proof.
  intros Hn. unfold shr_fexp, shr.
  destruct (fexp prec emax (Zdigits2 m + e) - e); try reflexivity. lia.
Qed.

Lemma shr_fexp_shift (m e : Z) :
  0 < fexp prec emax (Zdigits2 m + e) - e ->
  shr_fexp prec emax m e loc_Exact
  = (Nat.iter (Z.to_nat (fexp prec emax (Zdigits2 m + e) - e)) shr_1
              {| shr_m := m; shr_r := false; shr_s := false |},
     fexp prec emax (Zdigits2 m + e)).
Proof.
  intros Hn. unfold shr_fexp, shr.
  destruct (fexp prec emax (Zdigits2 m + e) - e) as [|p|p] eqn:E; try lia.
  rewrite iter_pos_nat. simpl shr_record_of_loc. f_equal. lia.
Qed.

Lemma fexp_ge_emin k : emin <= fexp prec emax k.
Proof. unfold fexp. fold emin. lia. Qed.

Lemma fexp_spec k : fexp prec emax k = Z.max (k - prec) emin.
Proof. reflexivity. Qed.

(** The mantissa and exponent that [binary_round_aux] ends with. *)
Lemma binary_round_aux_int (sx : bool) (mx ex : Z) :
  0 < mx ->
  let e1 := fexp prec emax (Zdigits2 mx + ex) in
  exists m3 e3 : Z,
    0 <= m3 /\
    binary_round_aux prec emax sx mx ex loc_Exact
    = match m3 with
      | Z0 => S754_zero sx
      | Zpos m => if e3 <=? emax - prec then S754_finite sx m e3 else S754_infinity sx
      | Zneg _ => S754_nan
      end /\
    ((e1 <= ex /\ m3 = mx /\ e3 = ex) \/
     (ex < e1 /\ e1 <= e3 <= e1 + 1 /\
      2 * Z.abs (m3 * 2 ^ (e3 - e1) * 2 ^ (e1 - ex) - mx) <= 2 ^ (e1 - ex))).
Proof.
  intros Hm e1. unfold binary_round_aux.
  destruct (Z.le_gt_cases e1 ex) as [Hle|Hgt].
  - (* no shift: the number is representable *)
    exists mx, ex. split; [lia|]. split; [|left; lia].
    rewrite shr_fexp_noshift by (fold e1; lia).
    cbn [shr_record_of_loc shr_m loc_of_shr_record shr_r shr_s round_nearest_even].
    rewrite shr_fexp_noshift by (fold e1; lia).
    cbn [shr_record_of_loc shr_m]. reflexivity.
  - rewrite shr_fexp_shift by (fold e1; lia). fold e1.
    destruct (Z.to_nat (e1 - ex)) as [|k] eqn:Ek; [lia|].
    pose proof (round_shift_error mx k ltac:(lia)) as Hround.
    cbv zeta in Hround.
    replace (Z.of_nat (S k)) with (e1 - ex) in Hround by lia.
    set (mrs := Nat.iter (S k) shr_1 _) in *.
    set (m2 := round_nearest_even (shr_m mrs) (loc_of_shr_record mrs)) in *.
    destruct Hround as [[Hlo Hhi] Herr].
    pose proof (fexp_ge_emin (Zdigits2 mx + ex)) as He1. fold e1 in He1.
    assert (0 < 2 ^ (e1 - ex)) as Hpow by (apply Z.pow_pos_nonneg; lia).
    assert (0 <= mx / 2 ^ (e1 - ex)) as Hq by (apply Z.div_pos; lia).
    assert (mx / 2 ^ (e1 - ex) < 2 ^ prec) as Hm1.
    { pose proof (Zdigits2_bounds mx Hm) as [_ Hup].
      pose proof (Zdigits2_pos mx Hm) as Hd.
      apply Z.div_lt_upper_bound; [lia|].
      rewrite <- Z.pow_add_r by (unfold prec; lia).
      apply Z.lt_le_trans with (1 := Hup).
      apply Z.pow_le_mono_r; [lia|].
      unfold e1. rewrite fexp_spec. lia. }
    destruct (Z.eq_dec m2 0) as [Hz|Hnz].
    + (* rounded to zero *)
      exists 0, e1. split; [lia|]. split.
      * rewrite Hz. rewrite shr_fexp_noshift
          by (simpl Zdigits2; rewrite fexp_spec; unfold prec in *; lia).
        reflexivity.
      * right. split; [lia|]. split; [lia|].
        rewrite Hz in Herr. rewrite Z.sub_diag. simpl Z.pow. lia.
    + assert (0 < m2) as Hm2 by lia.
      assert (m2 <= 2 ^ prec) as Hm2' by lia.
      destruct (Z.eq_dec m2 (2 ^ prec)) as [Hcarry|Hnocarry].
      * (* the rounding carried into a new digit *)
        exists (2 ^ (prec - 1)), (e1 + 1). split; [unfold prec; simpl; lia|]. split.
        -- assert (Zdigits2 m2 = prec + 1) as Hd2 by (rewrite Hcarry; reflexivity).
           rewrite shr_fexp_shift
             by (rewrite Hd2, fexp_spec; unfold prec in *; lia).
           rewrite Hd2.
           replace (fexp prec emax (prec + 1 + e1)) with (e1 + 1)
             by (rewrite fexp_spec; unfold prec in *; lia).
           replace (Z.to_nat (e1 + 1 - e1)) with 1%nat by lia.
           unfold Nat.iter. cbn [nat_rect]. rewrite shr_1_spec by lia.
           cbn [shr_m]. rewrite Hcarry. reflexivity.
        -- right. split; [lia|]. split; [lia|].
           replace (e1 + 1 - e1) with 1 by lia.
           replace (2 ^ (prec - 1) * 2 ^ 1) with m2 by (rewrite Hcarry; reflexivity).
           exact Herr.
      * exists m2, e1. split; [lia|]. split.
        -- assert (Zdigits2 m2 <= prec) as Hd2
               by (apply Zdigits2_le; [lia|lia|unfold prec; lia]).
           rewrite shr_fexp_noshift by (rewrite fexp_spec; lia).
           cbn [shr_record_of_loc shr_m]. destruct m2; try lia. reflexivity.
        -- right. split; [lia|]. split; [lia|].
           rewrite Z.sub_diag. simpl (2 ^ 0). rewrite Z.mul_1_r. exact Herr.
Qed.

Lemma bpow_gt_0 e : (0 < bpow e)%R.
Proof. apply powerRZ_lt. lra. Qed.

Lemma bpow_add a b : bpow (a + b) = (bpow a * bpow b)%R.
Proof. apply powerRZ_add. lra. Qed.

Lemma bpow_IZR k : 0 <= k -> bpow k = IZR (2 ^ k).
Proof.
  intros Hk. unfold bpow.
  rewrite <- (Z2Nat.id k Hk) at 1. rewrite <- pow_powerRZ.
  rewrite pow_IZR, Z2Nat.id by lia. reflexivity.
Qed.

Lemma bpow_0 : bpow 0 = 1%R.
Proof. reflexivity. Qed.

Lemma bpow_le a b : a <= b -> (bpow a <= bpow b)%R.
Proof.
  intros H. replace b with (a + (b - a)) by lia. rewrite bpow_add.
  rewrite (bpow_IZR (b - a)) by lia.
  assert (0 < 2 ^ (b - a)) as Hp by (apply Z.pow_pos_nonneg; lia).
  assert (1 <= 2 ^ (b - a)) as H0 by lia.
  apply IZR_le in H0. pose proof (bpow_gt_0 a). nra.
Qed.

Lemma bpow_lt a b : a < b -> (bpow a < bpow b)%R.
Proof.
  intros H. replace b with (a + (b - a)) by lia. rewrite bpow_add.
  rewrite (bpow_IZR (b - a)) by lia.
  assert (2 <= 2 ^ (b - a)).
  { replace (b - a) with (1 + (b - a - 1)) by lia. rewrite Z.pow_add_r by lia.
    assert (0 < 2 ^ (b - a - 1)) by (apply Z.pow_pos_nonneg; lia). lia. }
  apply IZR_le in H0. pose proof (bpow_gt_0 a). nra.
Qed.

Lemma bpow_lt_inv a b : (bpow a < bpow b)%R -> a < b.
Proof.
  intros H. destruct (Z.lt_ge_cases a b) as [Hlt|Hge]; [exact Hlt|].
  apply bpow_le in Hge. lra.
Qed.

Lemma bpow_succ e : bpow (e + 1) = (2 * bpow e)%R.
Proof. rewrite bpow_add. change (bpow 1) with (2 * 1)%R. lra. Qed.

Lemma F2R_digits_lower (m e : Z) :
  0 < m -> (bpow (Zdigits2 m - 1 + e) <= F2R m e)%R.
Proof.
  intros Hm. unfold F2R. rewrite bpow_add.
  pose proof (Zdigits2_bounds m Hm) as [Hlo _].
  pose proof (Zdigits2_pos m Hm).
  rewrite (bpow_IZR (Zdigits2 m - 1)) by lia.
  apply IZR_le in Hlo. pose proof (bpow_gt_0 e). nra.
Qed.

Lemma F2R_digits_upper (m e : Z) :
  0 < m -> (F2R m e < bpow (Zdigits2 m + e))%R.
Proof.
  intros Hm. unfold F2R. rewrite bpow_add.
  pose proof (Zdigits2_bounds m Hm) as [_ Hhi].
  pose proof (Zdigits2_pos m Hm).
  rewrite (bpow_IZR (Zdigits2 m)) by lia.
  apply IZR_lt in Hhi. pose proof (bpow_gt_0 e). nra.
Qed.

(** The value [binary_round_aux] ends with, and its distance to the exact
    one. *)
Lemma binary_round_aux_R (sx : bool) (mx ex : Z) :
  0 < mx ->
  let e1 := fexp prec emax (Zdigits2 mx + ex) in
  let r := binary_round_aux prec emax sx mx ex loc_Exact in
  exists V : R,
    (0 <= V)%R /\
    (Rabs (V - F2R mx ex) <= if e1 <=? ex then 0 else bpow (e1 - 1))%R /\
    (Z.max e1 ex + 1 <= emax - prec -> is_finite_SF r = true) /\
    (is_finite_SF r = true -> SF2R r = if sx then (- V)%R else V).
Proof.
  intros Hm e1 r.
  destruct (binary_round_aux_int sx mx ex Hm) as (m3 & e3 & Hm3 & Hr & Hcase).
  fold e1 in Hcase. fold r in Hr.
  exists (F2R m3 e3).
  assert (0 <= F2R m3 e3)%R as HV.
  { unfold F2R. apply IZR_le in Hm3. pose proof (bpow_gt_0 e3). nra. }
  split; [exact HV|].
  assert (is_finite_SF r = true -> SF2R r = if sx then (- F2R m3 e3)%R else F2R m3 e3) as Hval.
  { rewrite Hr. destruct m3 as [|m|m]; try lia.
    - intros _. simpl. unfold F2R. destruct sx; lra.
    - destruct (e3 <=? emax - prec); [|discriminate].
      intros _. simpl SF2R. unfold F2R. destruct sx; simpl cond_Zopp.
      + change (Z.neg m) with (- Z.pos m)%Z. rewrite opp_IZR. ring.
      + reflexivity. }
  destruct Hcase as [(Hle & -> & ->)|(Hgt & He3 & Herr)].
  - destruct (Z.leb_spec e1 ex); [|lia].
    split; [|split].
    + rewrite Rminus_diag, Rabs_R0. lra.
    + intros Hmax. rewrite Hr. destruct mx; try lia.
      destruct (Z.leb_spec ex (emax - prec)); [reflexivity|lia].
    + exact Hval.
  - destruct (Z.leb_spec e1 ex); [lia|].
    split; [|split].
    + apply IZR_le in Herr. rewrite mult_IZR, abs_IZR, minus_IZR, !mult_IZR in Herr.
      rewrite <- !bpow_IZR in Herr by lia.
      unfold F2R.
      replace (IZR m3 * bpow e3 - IZR mx * bpow ex)%R
        with ((IZR m3 * bpow (e3 - e1) * bpow (e1 - ex) - IZR mx) * bpow ex)%R.
      2:{ replace e3 with ((e3 - e1) + (e1 - ex) + ex) at 2 by lia.
          rewrite !bpow_add. ring. }
      rewrite Rabs_mult, (Rabs_pos_eq (bpow ex)) by (left; apply bpow_gt_0).
      replace (e1 - 1) with ((e1 - ex - 1) + ex) by lia. rewrite bpow_add.
      assert (bpow (e1 - ex) = 2 * bpow (e1 - ex - 1))%R as Hh
          by (rewrite <- bpow_succ; f_equal; lia).
      pose proof (bpow_gt_0 ex).
      apply Rmult_le_compat_r; [lra|]. lra.
    + intros Hmax. rewrite Hr. destruct m3 as [|m|m]; try lia; [reflexivity|].
      destruct (Z.leb_spec e3 (emax - prec)); [reflexivity|lia].
    + exact Hval.
Qed.

Lemma bpow_le_inv a b : (bpow a <= bpow b)%R -> a <= b.
Proof.
  intros H. destruct (Z.le_gt_cases a b) as [Hle|Hgt]; [exact Hle|].
  apply bpow_lt in Hgt. lra.
Qed.

Lemma round_error_rel (mx ex : Z) :
  0 < mx -> emin <= ex ->
  ((if fexp prec emax (Zdigits2 mx + ex) <=? ex then 0
    else bpow (fexp prec emax (Zdigits2 mx + ex) - 1)) <= u64r * F2R mx ex)%R.
Proof.
  intros Hm He. pose proof (F2R_digits_lower mx ex Hm) as Hlow.
  pose proof (bpow_gt_0 (Zdigits2 mx - 1 + ex)).
  assert (0 < u64r)%R by apply bpow_gt_0.
  destruct (Z.leb_spec (fexp prec emax (Zdigits2 mx + ex)) ex) as [Hle|Hgt].
  - nra.
  - rewrite fexp_spec in *.
    replace (Z.max (Zdigits2 mx + ex - prec) emin - 1)
      with (- prec + (Zdigits2 mx - 1 + ex)) by lia.
    rewrite bpow_add. fold u64r. nra.
Qed.

Lemma round_error_gen (mx ex : Z) :
  0 < mx ->
  ((if fexp prec emax (Zdigits2 mx + ex) <=? ex then 0
    else bpow (fexp prec emax (Zdigits2 mx + ex) - 1)) <= u64r * F2R mx ex + eta)%R.
Proof.
  intros Hm. pose proof (F2R_digits_lower mx ex Hm) as Hlow.
  pose proof (bpow_gt_0 (Zdigits2 mx - 1 + ex)).
  assert (0 < u64r)%R by apply bpow_gt_0.
  assert (0 < eta)%R by apply bpow_gt_0.
  destruct (Z.leb_spec (fexp prec emax (Zdigits2 mx + ex)) ex) as [Hle|Hgt].
  - nra.
  - rewrite fexp_spec in *.
    destruct (Z.max_spec (Zdigits2 mx + ex - prec) emin) as [[_ ->]|[_ ->]].
    + fold eta. nra.
    + replace (Zdigits2 mx + ex - prec - 1)
        with (- prec + (Zdigits2 mx - 1 + ex)) by lia.
      rewrite bpow_add. fold u64r. nra.
Qed.

(** A magnitude below 2^900 keeps the result's exponent in range. *)
Lemma round_in_range (mx ex : Z) :
  0 < mx -> (F2R mx ex <= bpow 900)%R ->
  Z.max (fexp prec emax (Zdigits2 mx + ex)) ex + 1 <= emax - prec.
Proof.
  intros Hm Hb.
  pose proof (F2R_digits_lower mx ex Hm) as Hlow.
  assert (Zdigits2 mx - 1 + ex <= 900) by (apply bpow_le_inv; lra).
  pose proof (Zdigits2_pos mx Hm).
  rewrite fexp_spec. unfold emax, prec, emin in *. simpl. lia.
Qed.

Lemma shl_align_F2R (mx : positive) (ex ex' : Z) :
  F2R (Zpos (fst (shl_align mx ex ex'))) (snd (shl_align mx ex ex')) = F2R (Zpos mx) ex /\
  (snd (shl_align mx ex ex') = ex \/ snd (shl_align mx ex ex') = ex').
Proof.
  unfold shl_align. destruct (ex' - ex) as [|d|d] eqn:E; simpl fst; simpl snd.
  - split; [reflexivity|left; reflexivity].
  - split; [reflexivity|left; reflexivity].
  - split; [|right; reflexivity].
    change (Pos.iter xO mx d) with (shift_pos d mx).
    rewrite shift_pos_correct. change (Z.pow_pos 2 d) with (2 ^ Zpos d).
    unfold F2R. rewrite mult_IZR, <- bpow_IZR by lia.
    replace ex with (Zpos d + ex') by lia. rewrite bpow_add. ring.
Qed.

Lemma shl_align_fst (mx : positive) (ex ez : Z) :
  ez <= ex -> Zpos (fst (shl_align mx ex ez)) = Zpos mx * 2 ^ (ex - ez).
Proof.
  intros H. unfold shl_align. destruct (ez - ex) as [|d|d] eqn:E; simpl fst.
  - replace (ex - ez) with 0 by lia. simpl. lia.
  - lia.
  - change (Pos.iter xO mx d) with (shift_pos d mx).
    rewrite shift_pos_correct. change (Z.pow_pos 2 d) with (2 ^ Zpos d).
    replace (ex - ez) with (Zpos d) by lia. lia.
Qed.

(** Rounding a nonzero integer multiple of a power of two whose exponent
    is at least [emin]: the relative error is at most the unit roundoff. *)
Lemma binary_round_R (sx : bool) (m : positive) (e : Z) :
  emin <= e -> (F2R (Zpos m) e <= bpow 900)%R ->
  let r := binary_round prec emax sx m e in
  is_finite_SF r = true /\
  (Rabs (SF2R r - (if sx then - F2R (Zpos m) e else F2R (Zpos m) e))
   <= u64r * F2R (Zpos m) e)%R.
Proof.
  intros He Hb r. unfold r, binary_round.
  pose proof (shl_align_F2R m e (fexp prec emax (Zpos (digits2_pos m) + e))) as [Hval Hexp].
  destruct (shl_align m e (fexp prec emax (Zpos (digits2_pos m) + e))) as [mz ez].
  simpl fst in *. simpl snd in *.
  assert (emin <= ez) as Hez by (destruct Hexp as [->| ->]; [lia|apply fexp_ge_emin]).
  destruct (binary_round_aux_R sx (Zpos mz) ez ltac:(lia)) as (V & HV & Herr & Hfin & Hres).
  rewrite <- Hval in *.
  assert (is_finite_SF (binary_round_aux prec emax sx (Zpos mz) ez loc_Exact) = true) as Hf
      by (apply Hfin, round_in_range; [lia|exact Hb]).
  split; [exact Hf|].
  rewrite (Hres Hf).
  pose proof (round_error_rel (Zpos mz) ez ltac:(lia) Hez) as Hrel.
  destruct sx.
  - replace (- V - - F2R (Zpos mz) ez)%R with (- (V - F2R (Zpos mz) ez))%R by ring.
    rewrite Rabs_Ropp. lra.
  - lra.
Qed.

Lemma F2R_cond_Zopp (s : bool) (m e : Z) :
  F2R (cond_Zopp s m) e = (if s then - F2R m e else F2R m e)%R.
Proof.
  unfold F2R, cond_Zopp. destruct s; [|reflexivity].
  rewrite opp_IZR. ring.
Qed.

Lemma F2R_align (s : bool) (mx : positive) (ex ez : Z) :
  ez <= ex ->
  F2R (cond_Zopp s (Zpos (fst (shl_align mx ex ez)))) ez = F2R (cond_Zopp s (Zpos mx)) ex.
Proof.
  intros H. rewrite shl_align_fst by assumption. rewrite !F2R_cond_Zopp.
  assert (F2R (Zpos mx * 2 ^ (ex - ez)) ez = F2R (Zpos mx) ex) as ->.
  { unfold F2R. rewrite mult_IZR, <- bpow_IZR by lia.
    replace ex with ((ex - ez) + ez) at 2 by lia. rewrite bpow_add. ring. }
  reflexivity.
Qed.

Lemma F2R_plus (m1 m2 e : Z) : F2R (m1 + m2) e = (F2R m1 e + F2R m2 e)%R.
Proof. unfold F2R. rewrite plus_IZR. ring. Qed.

Lemma SFadd_R (x y : spec_float) :
  valid_binary x = true -> valid_binary y = true ->
  is_finite_SF x = true -> is_finite_SF y = true ->
  (Rabs (SF2R x) + Rabs (SF2R y) <= bpow 900)%R ->
  is_finite_SF (SF64add x y) = true /\
  (Rabs (SF2R (SF64add x y) - (SF2R x + SF2R y)) <= u64r * Rabs (SF2R x + SF2R y))%R.
Proof.
  intros Hvx Hvy Hfx Hfy Hb.
  assert (0 < u64r)%R as Hu by apply bpow_gt_0.
  assert (forall z : R, Rabs (z - z) <= u64r * Rabs z)%R as Hexact.
  { intros z. rewrite Rminus_diag, Rabs_R0. pose proof (Rabs_pos z). nra. }
  unfold SF64add, SFadd.
  destruct x as [sx|sx| |sx mx ex], y as [sy|sy| |sy my ey]; try discriminate.
  - split; [destruct sx, sy; reflexivity|].
    replace (SF2R _) with 0%R by (destruct sx, sy; reflexivity). simpl SF2R.
    rewrite Rplus_0_r. apply Hexact.
  - split; [reflexivity|]. simpl (SF2R (S754_zero sx)). rewrite Rplus_0_l. apply Hexact.
  - split; [reflexivity|]. simpl (SF2R (S754_zero sy)). rewrite Rplus_0_r. apply Hexact.
  - apply valid_finite_emin in Hvx, Hvy.
    set (ez := Z.min ex ey).
    set (M := cond_Zopp sx (Zpos (fst (shl_align mx ex ez)))
              + cond_Zopp sy (Zpos (fst (shl_align my ey ez)))).
    assert (F2R M ez = SF2R (S754_finite sx mx ex) + SF2R (S754_finite sy my ey))%R as HM.
    { unfold M. rewrite F2R_plus, !F2R_align by (unfold ez; lia). reflexivity. }
    rewrite <- HM.
    assert (Rabs (F2R M ez) <= bpow 900)%R as HbM.
    { rewrite HM. eapply Rle_trans; [apply Rabs_triang|exact Hb]. }
    unfold binary_normalize. destruct M as [|m|m].
    + split; [reflexivity|]. simpl SF2R. unfold F2R. rewrite Rmult_0_l.
      apply Hexact.
    + assert (0 < F2R (Zpos m) ez)%R as Hpos
          by (unfold F2R; pose proof (bpow_gt_0 ez); pose proof (IZR_lt 0 (Zpos m) ltac:(lia)); nra).
      rewrite (Rabs_pos_eq (F2R (Zpos m) ez)) in * by lra.
      apply (binary_round_R false m ez); [unfold ez; lia|exact HbM].
    + assert (0 < F2R (Zpos m) ez)%R as Hpos
          by (unfold F2R; pose proof (bpow_gt_0 ez); pose proof (IZR_lt 0 (Zpos m) ltac:(lia)); nra).
      assert (F2R (Zneg m) ez = - F2R (Zpos m) ez)%R as Hneg
          by (apply (F2R_cond_Zopp true (Zpos m) ez)).
      rewrite Hneg in *. rewrite Rabs_Ropp in *.
      rewrite (Rabs_pos_eq (F2R (Zpos m) ez)) in * by lra.
      apply (binary_round_R true m ez); [unfold ez; lia|exact HbM].
Qed.

Lemma SFmul_R (x y : spec_float) :
  is_finite_SF x = true -> is_finite_SF y = true ->
  (Rabs (SF2R x * SF2R y) <= bpow 900)%R ->
  is_finite_SF (SF64mul x y) = true /\
  (Rabs (SF2R (SF64mul x y) - SF2R x * SF2R y)
   <= u64r * Rabs (SF2R x * SF2R y) + eta)%R.
Proof.
  intros Hfx Hfy Hb.
  assert (0 < u64r)%R as Hu by apply bpow_gt_0.
  assert (0 < eta)%R as Heta by apply bpow_gt_0.
  assert (forall z : R, Rabs (z - z) <= u64r * Rabs z + eta)%R as Hexact.
  { intros z. rewrite Rminus_diag, Rabs_R0. pose proof (Rabs_pos z). nra. }
  unfold SF64mul, SFmul.
  destruct x as [sx|sx| |sx mx ex], y as [sy|sy| |sy my ey]; try discriminate.
  - split; [reflexivity|]. simpl SF2R. rewrite Rmult_0_l. apply Hexact.
  - split; [reflexivity|]. simpl SF2R. rewrite Rmult_0_l. apply Hexact.
  - split; [reflexivity|]. simpl SF2R. rewrite Rmult_0_r. apply Hexact.
  - assert (SF2R (S754_finite sx mx ex) * SF2R (S754_finite sy my ey)
            = if xorb sx sy then - F2R (Zpos (mx * my)) (ex + ey)
              else F2R (Zpos (mx * my)) (ex + ey))%R as Hprod.
    { simpl SF2R. rewrite !F2R_cond_Zopp. unfold F2R.
      rewrite Pos2Z.inj_mul, mult_IZR, bpow_add. destruct sx, sy; cbv [xorb]; ring. }
    assert (0 < F2R (Zpos (mx * my)) (ex + ey))%R as Hpos.
    { unfold F2R. pose proof (bpow_gt_0 (ex + ey)).
      pose proof (IZR_lt 0 (Zpos (mx * my)) ltac:(lia)). nra. }
    assert (Rabs (SF2R (S754_finite sx mx ex) * SF2R (S754_finite sy my ey))
            = F2R (Zpos (mx * my)) (ex + ey)) as Habs.
    { rewrite Hprod. destruct (xorb sx sy).
      - rewrite Rabs_Ropp. apply Rabs_pos_eq. lra.
      - apply Rabs_pos_eq. lra. }
    rewrite Habs in *.
    destruct (binary_round_aux_R (xorb sx sy) (Zpos (mx * my)) (ex + ey) ltac:(lia))
      as (V & HV & Herr & Hfin & Hres).
    assert (is_finite_SF (binary_round_aux prec emax (xorb sx sy) (Zpos (mx * my))
                                           (ex + ey) loc_Exact) = true) as Hf
        by (apply Hfin, round_in_range; [lia|exact Hb]).
    split; [exact Hf|].
    rewrite (Hres Hf), Hprod.
    pose proof (round_error_gen (Zpos (mx * my)) (ex + ey) ltac:(lia)) as Hgen.
    destruct (xorb sx sy).
    + replace (- V - - F2R (Zpos (mx * my)) (ex + ey))%R
        with (- (V - F2R (Zpos (mx * my)) (ex + ey)))%R by ring.
      rewrite Rabs_Ropp. lra.
    + lra.
Qed.

(** *** binary64 operations on primitive floats *)

Lemma add_R (x y : float) :
  finite x -> finite y -> (Rabs (B2R x) + Rabs (B2R y) <= bpow 900)%R ->
  finite (PrimFloat.add x y) /\
  (Rabs (B2R (PrimFloat.add x y) - (B2R x + B2R y)) <= u64r * Rabs (B2R x + B2R y))%R.
Proof.
  unfold finite, B2R. intros Hx Hy Hb. rewrite add_spec.
  apply SFadd_R; auto using Prim2SF_valid.
Qed.

Lemma mul_R (x y : float) :
  finite x -> finite y -> (Rabs (B2R x * B2R y) <= bpow 900)%R ->
  finite (PrimFloat.mul x y) /\
  (Rabs (B2R (PrimFloat.mul x y) - B2R x * B2R y)
   <= u64r * Rabs (B2R x * B2R y) + eta)%R.
Proof.
  unfold finite, B2R. intros Hx Hy Hb. rewrite mul_spec.
  apply SFmul_R; auto.
Qed.

Lemma Zdigits2_shift (m : positive) (k : Z) :
  0 <= k -> Zdigits2 (Zpos m * 2 ^ k) = Zdigits2 (Zpos m) + k.
Proof.
  intros Hk.
  pose proof (Zdigits2_bounds (Zpos m) ltac:(lia)) as [Hlo Hhi].
  pose proof (Zdigits2_pos (Zpos m) ltac:(lia)) as Hd.
  assert (0 < 2 ^ k) as Hp by (apply Z.pow_pos_nonneg; lia).
  assert (0 < Zpos m * 2 ^ k) as Hpos by lia.
  apply Z.le_antisymm.
  - apply Zdigits2_le; [lia| |lia]. rewrite Z.pow_add_r by lia. nia.
  - replace (Zdigits2 (Zpos m) + k) with (Zdigits2 (Zpos m) - 1 + k + 1) by lia.
    apply Zdigits2_ge; [lia| |lia]. rewrite Z.pow_add_r by lia. nia.
Qed.

(** A representable number is rounded to itself. *)
Lemma binary_round_exact (sx : bool) (m : positive) (e : Z) :
  fexp prec emax (Zdigits2 (Zpos m) + e) <= e ->
  (F2R (Zpos m) e <= bpow 900)%R ->
  let r := binary_round prec emax sx m e in
  is_finite_SF r = true /\
  SF2R r = (if sx then - F2R (Zpos m) e else F2R (Zpos m) e)%R.
Proof.
  intros Hrep Hb r. unfold r, binary_round.
  change (Zpos (digits2_pos m)) with (Zdigits2 (Zpos m)).
  set (e1 := fexp prec emax (Zdigits2 (Zpos m) + e)) in *.
  pose proof (shl_align_F2R m e e1) as [Hval _].
  assert (fexp prec emax (Zdigits2 (Zpos (fst (shl_align m e e1))) + snd (shl_align m e e1))
          <= snd (shl_align m e e1)) as Hrep'.
  { destruct (Z.eq_dec e1 e) as [Heq|Hne].
    - unfold shl_align. rewrite Heq, Z.sub_diag. simpl fst; simpl snd. fold e1. lia.
    - rewrite shl_align_fst by lia.
      assert (snd (shl_align m e e1) = e1) as ->.
      { unfold shl_align. destruct (e1 - e) eqn:E; try lia. reflexivity. }
      rewrite Zdigits2_shift by lia.
      replace (Zdigits2 (Zpos m) + (e - e1) + e1) with (Zdigits2 (Zpos m) + e) by lia.
      fold e1. lia. }
  destruct (shl_align m e e1) as [mz ez]. simpl fst in *. simpl snd in *.
  destruct (binary_round_aux_R sx (Zpos mz) ez ltac:(lia)) as (V & HV & Herr & Hfin & Hres).
  rewrite <- Hval in *.
  assert (is_finite_SF (binary_round_aux prec emax sx (Zpos mz) ez loc_Exact) = true) as Hf
      by (apply Hfin, round_in_range; [lia|exact Hb]).
  split; [exact Hf|]. rewrite (Hres Hf).
  destruct (Z.leb_spec (fexp prec emax (Zdigits2 (Zpos mz) + ez)) ez); [|lia].
  assert (V = F2R (Zpos mz) ez) as ->.
  { unfold Rabs in Herr. destruct (Rcase_abs (V - F2R (Zpos mz) ez)); lra. }
  reflexivity.
Qed.

Lemma of_int_R (i : Z) :
  0 <= i < 2 ^ 53 -> finite (of_int i) /\ B2R (of_int i) = IZR i.
Proof.
  intros Hi. unfold finite, B2R. simpl of_int.
  destruct (Z.ltb_spec i 0); [lia|].
  rewrite of_uint63_spec.
  assert (Uint63.to_Z (Uint63.of_Z i) = i) as ->.
  { rewrite Uint63.of_Z_spec. apply Z.mod_small.
    change Uint63.wB with (2 ^ 63). lia. }
  unfold binary_normalize. destruct i as [|m|m]; try lia.
  - split; reflexivity.
  - assert (F2R (Zpos m) 0 = IZR (Zpos m)) as HF by (unfold F2R; rewrite bpow_0; ring).
    destruct (binary_round_exact false m 0) as [Hf Hv].
    + pose proof (Zdigits2_pos (Zpos m) ltac:(lia)).
      assert (Zdigits2 (Zpos m) <= 53) by (apply Zdigits2_le; lia).
      rewrite fexp_spec. unfold prec, emin, emax. lia.
    + rewrite HF. rewrite (bpow_IZR 900) by lia. apply IZR_le.
      assert (2 ^ 53 <= 2 ^ 900) by (apply Z.pow_le_mono_r; lia). lia.
    + split; [exact Hf|]. rewrite Hv. exact HF.
Qed.

#[local] Open Scope R_scope.

Lemma bpow_neg_IZR (k : Z) : (0 <= k)%Z -> bpow (- k) = / IZR (2 ^ k).
Proof.
  intros Hk. unfold bpow. rewrite powerRZ_neg'. fold (bpow k).
  rewrite bpow_IZR by assumption. reflexivity.
Qed.

Lemma u64r_bounds : 0 < u64r <= 12 / 100000000000000000.
Proof.
  unfold u64r. rewrite (bpow_neg_IZR prec) by (unfold prec; lia).
  change (2 ^ prec)%Z with 9007199254740992%Z. lra.
Qed.

Lemma eta_bounds : 0 < eta <= u64r / 1000000.
Proof.
  split; [apply bpow_gt_0|].
  apply Rle_trans with (bpow (- 100)).
  - apply bpow_le. unfold emin, emax, prec. lia.
  - unfold u64r. rewrite (bpow_neg_IZR prec) by (unfold prec; lia).
    replace (bpow (- 100)) with (/ IZR (2 ^ 100))
      by (symmetry; apply (bpow_neg_IZR 100); lia).
    change (2 ^ prec)%Z with 9007199254740992%Z.
    change (2 ^ 100)%Z with 1267650600228229401496703205376%Z. lra.
Qed.

Lemma bpow_900_big : 1000000000000 <= bpow 900.
Proof.
  apply Rle_trans with (bpow 40).
  - rewrite bpow_IZR by lia. change (2 ^ 40)%Z with 1099511627776%Z. lra.
  - apply bpow_le. lia.
Qed.

(** *** The samples of the benchmark

    The benchmark's float constants. *)
Lemma dxf_R : finite dxf /\ B2R dxf = 6044629098073146 * / IZR (2 ^ 78).
Proof.
  split; [reflexivity|].
  unfold B2R. replace (Prim2SF dxf) with (S754_finite false 6044629098073146 (-78))
    by (vm_compute; reflexivity).
  simpl SF2R. unfold F2R. f_equal. apply (bpow_neg_IZR 78). lia.
Qed.

Lemma dxf_bounds :
  2 / 100000000 * (1 - u64r) <= B2R dxf <= 2 / 100000000 * (1 + u64r).
Proof.
  destruct dxf_R as [_ ->]. unfold u64r.
  rewrite (bpow_neg_IZR prec) by (unfold prec; lia).
  change (2 ^ prec)%Z with 9007199254740992%Z.
  change (2 ^ 78)%Z with 302231454903657293676544%Z. lra.
Qed.

Lemma A_R : finite (A (F := float)) /\ B2R (A (F := float)) = -1.
Proof.
  split; [reflexivity|].
  unfold B2R. replace (Prim2SF A) with (S754_finite true 4503599627370496 (-52))
    by (vm_compute; reflexivity).
  simpl SF2R. unfold F2R.
  replace (bpow (-52)) with (/ IZR (2 ^ 52)) by (symmetry; apply (bpow_neg_IZR 52); lia).
  change (2 ^ 52)%Z with 4503599627370496%Z. lra.
Qed.

Lemma Rabs_le_inv (x b : R) : Rabs x <= b -> - b <= x <= b.
Proof. unfold Rabs. destruct (Rcase_abs x); lra. Qed.

Lemma real_mul_step (u h s t P : R) :
  0 < u <= 12 / 100000000000000000 -> 0 < h <= u / 1000000 ->
  0 <= s <= 2 -> s * (1 - u) <= t <= s * (1 + u) ->
  Rabs (P - t) <= u * Rabs t + h ->
  Rabs (P - s) <= 5 * u.
Proof.
  intros Hu Hh Hs Ht HP.
  assert (0 <= t) by nra.
  rewrite (Rabs_pos_eq t) in HP by assumption.
  apply Rabs_le_inv in HP. apply Rabs_le. split; nra.
Qed.

Lemma real_add_step (u s P X : R) :
  0 < u <= 12 / 100000000000000000 ->
  0 <= s <= 2 -> Rabs (P - s) <= 5 * u ->
  Rabs (X - (P + -1)) <= u * Rabs (P + -1) ->
  Rabs (X - (s - 1)) <= 7 * u.
Proof.
  intros Hu Hs HP HX.
  apply Rabs_le_inv in HP.
  assert (Rabs (P + -1) <= 1 + 5 * u) as Hb by (apply Rabs_le; split; lra).
  assert (u * Rabs (P + -1) <= u * (1 + 5 * u)) by (apply Rmult_le_compat_l; lra).
  apply Rabs_le_inv in HX. apply Rabs_le. split; nra.
Qed.

Lemma real_square_step (u h y X V : R) :
  0 < u <= 12 / 100000000000000000 -> 0 < h <= u / 1000000 ->
  -1 <= y <= 1 -> Rabs (X - y) <= 7 * u ->
  Rabs (V - X * X) <= u * Rabs (X * X) + h ->
  Rabs (V - y * y) <= 16 * u /\ Rabs (X * X) <= 2.
Proof.
  intros Hu Hh Hy HX HV.
  apply Rabs_le_inv in HX.
  assert (0 <= X * X) as Hsq by nra.
  rewrite (Rabs_pos_eq (X * X)) in * by assumption.
  assert (X * X <= 1 + 15 * u) as Hup by nra.
  assert (- (15 * u) <= X * X - y * y <= 15 * u) as Hd by nra.
  apply Rabs_le_inv in HV.
  split; [apply Rabs_le; split; nra|lra].
Qed.

Lemma SFmul_nonneg (x y : spec_float) :
  is_finite_SF x = true -> is_finite_SF y = true ->
  0 <= SF2R x * SF2R y -> 0 <= SF2R (SF64mul x y).
Proof.
  intros Hfx Hfy Hnn. unfold SF64mul, SFmul.
  destruct x as [sx|sx| |sx mx ex], y as [sy|sy| |sy my ey]; try discriminate;
    try (simpl; lra).
  destruct (binary_round_aux_R (xorb sx sy) (Zpos (mx * my)) (ex + ey) ltac:(lia))
    as (V & HV & _ & _ & Hres).
  destruct (is_finite_SF (binary_round_aux prec emax (xorb sx sy) (Zpos (mx * my))
                                           (ex + ey) loc_Exact)) eqn:Hf.
  - rewrite (Hres eq_refl).
    destruct (xorb sx sy) eqn:Hs; [|exact HV].
    exfalso. simpl SF2R in Hnn. rewrite !F2R_cond_Zopp in Hnn. unfold F2R in Hnn.
    pose proof (bpow_gt_0 ex). pose proof (bpow_gt_0 ey).
    pose proof (IZR_lt 0 (Zpos mx) ltac:(lia)). pose proof (IZR_lt 0 (Zpos my) ltac:(lia)).
    assert (0 < IZR (Zpos mx) * bpow ex) by nra.
    assert (0 < IZR (Zpos my) * bpow ey) by nra.
    destruct sx, sy; try discriminate; nra.
  - destruct (binary_round_aux prec emax (xorb sx sy) (Zpos (mx * my)) (ex + ey) loc_Exact);
      try discriminate; simpl; lra.
Qed.

Lemma mul_nonneg (x y : float) :
  finite x -> finite y -> 0 <= B2R x * B2R y -> 0 <= B2R (PrimFloat.mul x y).
Proof.
  unfold finite, B2R. intros Hx Hy Hnn. rewrite mul_spec. apply SFmul_nonneg; assumption.
Qed.

(** The value the benchmark adds for sample [i]: within 16 units roundoff
    of the exact [(2 i / N - 1)^2]. *)
Lemma sample_value (i : Z) :
  (0 <= i < STEPS)%Z ->
  let v := f (sample1 STEPS A B i) in
  finite v /\ 0 <= B2R v <= 2 /\
  Rabs (B2R v - (2 * IZR i / 100000000 - 1) * (2 * IZR i / 100000000 - 1)) <= 16 * u64r.
Proof.
  intros Hi v.
  pose proof u64r_bounds as Hu. pose proof eta_bounds as Hh.
  pose proof bpow_900_big as Hbig.
  destruct (of_int_R i) as [Hfi HiR]; [unfold STEPS in Hi; lia|].
  destruct dxf_R as [Hfc _]. pose proof dxf_bounds as Hc.
  destruct A_R as [HfA HA].
  assert (0 <= IZR i <= 99999999) as HI.
  { split; [apply (IZR_le 0); lia|apply IZR_le; unfold STEPS in Hi; lia]. }
  set (s := 2 * IZR i / 100000000).
  assert (0 <= s <= 2) as Hs by (unfold s; lra).
  set (p := PrimFloat.mul (of_int i) dxf).
  assert (s * (1 - u64r) <= B2R (of_int i) * B2R dxf <= s * (1 + u64r)) as Ht
      by (rewrite HiR; unfold s; nra).
  destruct (mul_R (of_int i) dxf Hfi Hfc) as [Hfp Hp].
  { apply Rabs_le. nra. }
  fold p in Hfp, Hp.
  pose proof (real_mul_step _ _ _ _ _ Hu Hh Hs Ht Hp) as Hps.
  set (x := PrimFloat.add p A).
  destruct (add_R p A Hfp HfA) as [Hfx Hx].
  { rewrite HA. apply Rabs_le_inv in Hps.
    assert (Rabs (B2R p) <= 3) by (apply Rabs_le; lra).
    assert (Rabs (-1) = 1) as -> by (unfold Rabs; destruct (Rcase_abs (-1)); lra). lra. }
  fold x in Hfx, Hx. rewrite HA in Hx.
  pose proof (real_add_step _ _ _ _ Hu Hs Hps Hx) as Hxy.
  assert (-1 <= s - 1 <= 1) as Hy by lra.
  assert (Rabs (B2R x * B2R x) <= bpow 900) as Hguard.
  { apply Rabs_le_inv in Hxy. apply Rabs_le. nra. }
  destruct (mul_R x x Hfx Hfx Hguard) as [Hfv Hv].
  destruct (real_square_step _ _ _ _ _ Hu Hh Hy Hxy Hv) as [Herr Hsq].
  change (f (sample1 STEPS A B i)) with (PrimFloat.mul x x) in v.
  subst v. split; [exact Hfv|]. split; [|exact Herr].
  split.
  - apply mul_nonneg; try assumption. nra.
  - apply Rabs_le_inv in Herr. nra.
Qed.

(** *** Sums of nonnegative doubles *)

Lemma Rsum_app (l1 l2 : list R) : Rsum (l1 ++ l2) = Rsum l1 + Rsum l2.
Proof. induction l1 as [|x l1 IH]; simpl; [lra|rewrite IH; lra]. Qed.

Lemma Rsum_nonneg (l : list R) : (forall x, In x l -> 0 <= x) -> 0 <= Rsum l.
Proof.
  induction l as [|x l IH]; intros H; simpl; [lra|].
  pose proof (H x (or_introl eq_refl)).
  assert (0 <= Rsum l) by (apply IH; intros y Hy; apply H; right; exact Hy). lra.
Qed.

Lemma Rsum_perm (l l' : list R) : Permutation l l' -> Rsum l = Rsum l'.
Proof.
  induction 1 as [|x l l' _ IH|x y l|l l' l'' _ IH1 _ IH2]; simpl; lra.
Qed.

Lemma pow_1pu_ge_1 (u : R) (n : nat) : 0 <= u -> 1 <= (1 + u) ^ n.
Proof. intros Hu. apply pow_R1_Rle. lra. Qed.

Lemma pow_1mu_bounds (u : R) (n : nat) : 0 <= u <= 1 -> 0 <= (1 - u) ^ n <= 1.
Proof.
  intros Hu. induction n as [|n IH]; simpl; [lra|nra].
Qed.

Lemma fold_left_map_fadd {X} (v : X -> float) (l : list X) (r : float) :
  fold_left (fun R i => fadd R (v i)) l r = fold_left fadd (map v l) r.
Proof. revert r; induction l as [|i l IH]; intros r; simpl; [reflexivity|apply IH]. Qed.

Lemma Rmult_ge_1 (X Y : R) : 0 <= X -> 1 <= Y -> X <= X * Y.
Proof. intros HX HY. pose proof (Rmult_le_compat_l X 1 Y HX HY). lra. Qed.

Lemma float_sum_nonneg (vs : list float) (r : float) :
  finite r -> 0 <= B2R r ->
  (forall v, In v vs -> finite v /\ 0 <= B2R v) ->
  (B2R r + Rsum (map B2R vs)) * (1 + u64r) ^ length vs <= bpow 899 ->
  finite (fold_left fadd vs r) /\
  (B2R r + Rsum (map B2R vs)) * (1 - u64r) ^ length vs
  <= B2R (fold_left fadd vs r)
  <= (B2R r + Rsum (map B2R vs)) * (1 + u64r) ^ length vs.
Proof.
  pose proof u64r_bounds as Hu.
  revert r. induction vs as [|v vs IH]; intros r Hfr Hr Hvs Hguard.
  - simpl. split; [exact Hfr|]. lra.
  - destruct (Hvs v (or_introl eq_refl)) as [Hfv Hv].
    assert (forall w, In w vs -> finite w /\ 0 <= B2R w) as Hvs'
        by (intros w Hw; apply Hvs; right; exact Hw).
    assert (0 <= Rsum (map B2R vs)) as Hsum.
    { apply Rsum_nonneg. intros x Hx. apply in_map_iff in Hx as (w & <- & Hw).
      apply Hvs'. exact Hw. }
    simpl map in *. simpl Rsum in *. simpl length in *. simpl fold_left.
    pose proof (pow_1pu_ge_1 u64r (length vs) ltac:(lra)) as Hp1.
    pose proof (pow_1mu_bounds u64r (length vs) ltac:(lra)) as Hm1.
    simpl pow in Hguard |- *.
    generalize dependent (Rsum (map B2R vs)). intros S'.
    generalize dependent ((1 + u64r) ^ length vs). intros pp.
    generalize dependent ((1 - u64r) ^ length vs). intros pm.
    intros Hm1 Hp1 IH' Hguard Hsum.
    change (fold_left add vs (r + v)%float) with (fold_left fadd vs (fadd r v)).
    assert (bpow 899 <= bpow 900) as H899 by (apply bpow_le; lia).
    set (x := B2R r) in *. set (y := B2R v) in *.
    assert (x + y <= (x + (y + S')) * ((1 + u64r) * pp)) as Hxy.
    { apply Rle_trans with (x + (y + S')); [lra|].
      apply Rmult_ge_1; [lra|].
      apply Rle_trans with (1 * pp); [lra|]. apply Rmult_le_compat_r; lra. }
    destruct (add_R r v Hfr Hfv) as [Hfr' Hr'].
    { fold x y. rewrite !Rabs_pos_eq by assumption. lra. }
    change (PrimFloat.add r v) with (fadd r v) in Hfr', Hr'.
    fold x y in Hr'.
    rewrite (Rabs_pos_eq (x + y)) in Hr' by lra.
    apply Rabs_le_inv in Hr'.
    set (z := B2R (fadd r v)) in *.
    assert (0 <= z) as Hz by nra.
    assert ((x + y) * (1 - u64r) <= z <= (x + y) * (1 + u64r)) as Hzb by nra.
    assert (z + S' <= (x + (y + S')) * (1 + u64r)) as Hup by nra.
    assert ((x + (y + S')) * (1 - u64r) <= z + S') as Hdn by nra.
    destruct (IH' (fadd r v) Hfr' Hz Hvs') as [Hfin [Hlo Hhi]].
    { fold z. apply Rle_trans with ((x + (y + S')) * (1 + u64r) * pp); [|lra].
      apply Rmult_le_compat_r; lra. }
    fold z in Hlo, Hhi.
    split; [exact Hfin|]. split.
    + apply Rle_trans with ((z + S') * pm); [|exact Hlo].
      rewrite <- Rmult_assoc. apply Rmult_le_compat_r; lra.
    + apply Rle_trans with ((z + S') * pp); [exact Hhi|].
      rewrite <- Rmult_assoc. apply Rmult_le_compat_r; lra.
Qed.

Lemma pow_1mu_anti (u : R) (n m : nat) :
  0 <= u <= 1 -> (n <= m)%nat -> (1 - u) ^ m <= (1 - u) ^ n.
Proof.
  intros Hu Hnm. induction Hnm as [|m Hnm IH]; [lra|].
  pose proof (pow_1mu_bounds u m Hu). simpl. nra.
Qed.

Lemma pow_1pu_mono (u : R) (n m : nat) :
  0 <= u -> (n <= m)%nat -> (1 + u) ^ n <= (1 + u) ^ m.
Proof. intros Hu Hnm. apply Rle_pow; [lra|exact Hnm]. Qed.

(** [(1+u)^n <= 1/(1 - n u)] and [1 - n u <= (1-u)^n], without division. *)
Lemma pow_1pu_upper (u : R) (n : nat) : 0 <= u -> (1 + u) ^ n * (1 - INR n * u) <= 1.
Proof.
  intros Hu. induction n as [|n IH]; [simpl; lra|].
  rewrite S_INR. pose proof (pow_1pu_ge_1 u n Hu) as Hp. pose proof (pos_INR n) as Hn.
  simpl pow. generalize dependent ((1 + u) ^ n). intros p IH Hp.
  assert (0 <= p * ((INR n + 1) * (u * u))).
  { apply Rmult_le_pos; [lra|]. apply Rmult_le_pos; [lra|]. apply Rmult_le_pos; lra. }
  nra.
Qed.

Lemma pow_1mu_lower (u : R) (n : nat) : 0 <= u <= 1 -> 1 - INR n * u <= (1 - u) ^ n.
Proof.
  intros Hu. induction n as [|n IH]; [simpl; lra|].
  rewrite S_INR. pose proof (pow_1mu_bounds u n Hu) as Hp. pose proof (pos_INR n) as Hn.
  simpl pow. generalize dependent ((1 - u) ^ n). intros p IH Hp.
  assert (0 <= INR n * (u * u)) by (apply Rmult_le_pos; [lra|apply Rmult_le_pos; lra]).
  nra.
Qed.

Lemma Rsum_over_nonneg v l : nonneg_on v l -> 0 <= Rsum_over v l.
Proof.
  intros H. apply Rsum_nonneg. intros x Hx.
  apply in_map_iff in Hx as (i & <- & Hi). apply H. exact Hi.
Qed.

Lemma Rsum_over_app v l1 l2 : Rsum_over v (l1 ++ l2) = Rsum_over v l1 + Rsum_over v l2.
Proof. unfold Rsum_over. rewrite map_app. apply Rsum_app. Qed.

Lemma Rsum_over_perm v l l' : Permutation l l' -> Rsum_over v l = Rsum_over v l'.
Proof. intros H. apply Rsum_perm, Permutation_map, H. Qed.

Lemma fzero_R : finite (fzero (F := float)) /\ B2R (fzero (F := float)) = 0.
Proof. split; [reflexivity|]. unfold B2R. simpl. reflexivity. Qed.

Lemma private_sum_R (v : Z -> float) (part : list Z) (n : nat) :
  nonneg_on v part -> (length part <= n)%nat ->
  Rsum_over v part * (1 + u64r) ^ n <= bpow 899 ->
  finite (private_sum v part) /\
  Rsum_over v part * (1 - u64r) ^ n <= B2R (private_sum v part)
  <= Rsum_over v part * (1 + u64r) ^ n.
Proof.
  intros Hv Hlen Hguard. pose proof u64r_bounds as Hu.
  pose proof (Rsum_over_nonneg v part Hv) as HE.
  unfold private_sum. rewrite fold_left_map_fadd.
  destruct fzero_R as [Hf0 H0].
  pose proof (pow_1pu_mono u64r (length part) n ltac:(lra) Hlen) as Hup.
  pose proof (pow_1mu_anti u64r (length part) n ltac:(lra) Hlen) as Hdn.
  destruct (float_sum_nonneg (map v part) fzero Hf0 ltac:(lra)) as [Hfin [Hlo Hhi]].
  - intros x Hx. apply in_map_iff in Hx as (i & <- & Hi). apply Hv, Hi.
  - rewrite H0, map_map, length_map, Rplus_0_l. fold (Rsum_over v part).
    apply Rle_trans with (Rsum_over v part * (1 + u64r) ^ n); [|exact Hguard].
    apply Rmult_le_compat_l; assumption.
  - rewrite H0, map_map, length_map, Rplus_0_l in Hlo, Hhi.
    fold (Rsum_over v part) in Hlo, Hhi.
    split; [exact Hfin|]. split.
    + apply Rle_trans with (Rsum_over v part * (1 - u64r) ^ length part); [|exact Hlo].
      apply Rmult_le_compat_l; assumption.
    + apply Rle_trans with (Rsum_over v part * (1 + u64r) ^ length part); [exact Hhi|].
      apply Rmult_le_compat_l; assumption.
Qed.

Lemma private_sums_R (v : Z -> float) (parts : list (list Z)) (n : nat) :
  nonneg_on v (concat parts) ->
  (forall part, In part parts -> (length part <= n)%nat) ->
  Rsum_over v (concat parts) * (1 + u64r) ^ n <= bpow 899 ->
  (forall x, In x (map (private_sum v) parts) -> finite x /\ 0 <= B2R x) /\
  Rsum_over v (concat parts) * (1 - u64r) ^ n
  <= Rsum (map B2R (map (private_sum v) parts))
  <= Rsum_over v (concat parts) * (1 + u64r) ^ n.
Proof.
  pose proof u64r_bounds as Hu.
  pose proof (pow_1pu_ge_1 u64r n ltac:(lra)) as Hp.
  pose proof (pow_1mu_bounds u64r n ltac:(lra)) as Hm.
  induction parts as [|part parts IH]; intros Hv Hlen Hguard.
  - simpl. split; [intros x []|]. unfold Rsum_over; simpl. lra.
  - simpl concat in *. rewrite Rsum_over_app in *.
    assert (nonneg_on v part) as Hv1 by (intros i Hi; apply Hv, in_or_app; left; exact Hi).
    assert (nonneg_on v (concat parts)) as Hv2
        by (intros i Hi; apply Hv, in_or_app; right; exact Hi).
    pose proof (Rsum_over_nonneg v part Hv1) as HE1.
    pose proof (Rsum_over_nonneg v (concat parts) Hv2) as HE2.
    pose proof (private_sum_R v part n Hv1 (Hlen part (or_introl eq_refl))) as Hpart.
    assert (forall p, In p parts -> (length p <= n)%nat) as Hlen'
        by (intros p Hp'; apply Hlen; right; exact Hp').
    specialize (IH Hv2 Hlen'). simpl map.  simpl Rsum.
    set (E1 := Rsum_over v part) in *. set (E2 := Rsum_over v (concat parts)) in *.
    set (pp := (1 + u64r) ^ n) in *. set (pm := (1 - u64r) ^ n) in *.
    assert (E1 * pp <= (E1 + E2) * pp) as G1 by (apply Rmult_le_compat_r; lra).
    assert (E2 * pp <= (E1 + E2) * pp) as G2 by (apply Rmult_le_compat_r; lra).
    destruct Hpart as [Hfin [Hlo Hhi]]; [lra|].
    destruct IH as [IHf [IHlo IHhi]]; [lra|].
    assert (0 <= E1 * pm) by (apply Rmult_le_pos; lra).
    split.
    + intros x [<-|Hx]; [split; [exact Hfin|lra]|apply IHf, Hx].
    + lra.
Qed.

Lemma within_weaken (S : float) (E : R) (D D' : nat) :
  0 <= E -> (D <= D')%nat -> within S E D -> within S E D'.
Proof.
  intros HE HD [Hfin [Hlo Hhi]]. pose proof u64r_bounds as Hu.
  pose proof (pow_1pu_mono u64r D D' ltac:(lra) HD).
  pose proof (pow_1mu_anti u64r D D' ltac:(lra) HD).
  split; [exact Hfin|]. split.
  - apply Rle_trans with (E * (1 - u64r) ^ D); [|exact Hlo].
    apply Rmult_le_compat_l; assumption.
  - apply Rle_trans with (E * (1 + u64r) ^ D); [exact Hhi|].
    apply Rmult_le_compat_l; assumption.
Qed.

Lemma one_level_within (v : Z -> float) (l : list Z) :
  nonneg_on v l ->
  Rsum_over v l * (1 + u64r) ^ length l <= bpow 899 ->
  within (private_sum v l) (Rsum_over v l) (length l).
Proof. intros Hv Hguard. apply private_sum_R; [exact Hv|apply le_n|exact Hguard]. Qed.

Lemma fold_left_map_parts {X} (g : X -> list Z) (v : Z -> float) (l : list X) (r : float) :
  fold_left (fun r t => fadd r (private_sum v (g t))) l r
  = fold_left fadd (map (private_sum v) (map g l)) r.
Proof. revert r; induction l as [|t l IH]; intros r; simpl; [reflexivity|apply IH]. Qed.

Lemma two_level_within (v : Z -> float) (parts : list (list Z)) (n : nat) :
  nonneg_on v (concat parts) ->
  (forall part, In part parts -> (length part <= n)%nat) ->
  Rsum_over v (concat parts) * (1 + u64r) ^ (n + length parts) <= bpow 899 ->
  within (fold_left fadd (map (private_sum v) parts) fzero)
         (Rsum_over v (concat parts)) (n + length parts).
Proof.
  intros Hv Hlen Hguard. pose proof u64r_bounds as Hu.
  pose proof (Rsum_over_nonneg v _ Hv) as HE.
  rewrite pow_add in Hguard. unfold within. rewrite !pow_add.
  pose proof (pow_1pu_ge_1 u64r n ltac:(lra)) as Hp.
  pose proof (pow_1mu_bounds u64r n ltac:(lra)) as Hm.
  pose proof (pow_1pu_ge_1 u64r (length parts) ltac:(lra)) as Hp'.
  pose proof (pow_1mu_bounds u64r (length parts) ltac:(lra)) as Hm'.
  destruct (private_sums_R v parts n Hv Hlen) as [Hf [Hlo Hhi]].
  { apply Rle_trans with (Rsum_over v (concat parts) * ((1 + u64r) ^ n * (1 + u64r) ^ length parts));
      [|exact Hguard].
    apply Rmult_le_compat_l; [exact HE|]. apply Rmult_ge_1; lra. }
  destruct fzero_R as [Hf0 H0].
  destruct (float_sum_nonneg (map (private_sum v) parts) fzero Hf0 ltac:(lra) Hf)
    as [Hfin [Slo Shi]].
  { rewrite H0, Rplus_0_l, length_map.
    apply Rle_trans with (Rsum_over v (concat parts) * (1 + u64r) ^ n * (1 + u64r) ^ length parts);
      [|rewrite Rmult_assoc; exact Hguard].
    apply Rmult_le_compat_r; lra. }
  rewrite H0, Rplus_0_l, length_map in Slo, Shi.
  split; [exact Hfin|]. rewrite <- !Rmult_assoc. split.
  - apply Rle_trans with (Rsum (map B2R (map (private_sum v) parts)) * (1 - u64r) ^ length parts);
      [|exact Slo].
    apply Rmult_le_compat_r; lra.
  - apply Rle_trans with (Rsum (map B2R (map (private_sum v) parts)) * (1 + u64r) ^ length parts);
      [exact Shi|].
    apply Rmult_le_compat_r; lra.
Qed.

(** The last multiplication, by [dx]. *)
Lemma final_real (u e E lo hi S d r : R) :
  0 < u <= 12 / 100000000000000000 -> 0 < e <= u / 1000000 ->
  33333333 <= E <= 33333334 ->
  1 - 3 / 10000000 <= lo -> hi <= 1 + 3 / 10000000 ->
  E * lo <= S <= E * hi ->
  2 / 100000000 * (1 - u) <= d <= 2 / 100000000 * (1 + u) ->
  Rabs (r - S * d) <= u * Rabs (S * d) + e ->
  Rabs (r - 2 / 3) <= 1 / 1000000.
Proof.
  intros Hu He HE Hlo Hhi HS Hd Hr.
  assert (33333322 <= S <= 33333345) as HS' by nra.
  assert (66666643 / 100000000 <= S * d <= 66666691 / 100000000) as HP by nra.
  rewrite (Rabs_pos_eq (S * d)) in Hr by lra.
  apply Rabs_le_inv in Hr.
  assert (u * (S * d) <= u) by nra.
  unfold Rabs. destruct (Rcase_abs (r - 2 / 3)); lra.
Qed.

Lemma bpow_899_big : 100000000000 <= bpow 899.
Proof.
  pose proof bpow_900_big as H. change 900%Z with (899 + 1)%Z in H.
  rewrite bpow_succ in H. lra.
Qed.

Lemma guard_ok (E : R) (D : nat) :
  0 <= E <= 33333334 -> INR D <= 2300000000 -> E * (1 + u64r) ^ D <= bpow 899.
Proof.
  intros HE HD. pose proof u64r_bounds as Hu. pose proof bpow_899_big as Hb.
  pose proof (pow_1pu_upper u64r D ltac:(lra)) as Hup.
  pose proof (pow_1pu_ge_1 u64r D ltac:(lra)) as Hp1.
  pose proof (pos_INR D) as HD0.
  generalize dependent ((1 + u64r) ^ D). intros hi Hup Hp1.
  assert (INR D * u64r <= 276 / 1000000000) as HDu by nra.
  assert (hi <= 2) by nra.
  nra.
Qed.

Lemma within_value (S : float) (E : R) (D : nat) (d : float) :
  within S E D -> INR D <= 2300000000 -> 33333333 <= E <= 33333334 ->
  finite d -> 2 / 100000000 * (1 - u64r) <= B2R d <= 2 / 100000000 * (1 + u64r) ->
  finite (fmul S d) /\ Rabs (B2R (fmul S d) - 2 / 3) <= 1 / 1000000.
Proof.
  intros [Hfin [Hlo Hhi]] HD HE Hfd Hd.
  pose proof u64r_bounds as Hu. pose proof eta_bounds as He.
  pose proof (pow_1pu_upper u64r D ltac:(lra)) as Hup.
  pose proof (pow_1mu_lower u64r D ltac:(lra)) as Hdn.
  pose proof (pow_1pu_ge_1 u64r D ltac:(lra)) as Hp1.
  pose proof (pos_INR D) as HD0.
  generalize dependent ((1 + u64r) ^ D). intros hi Hhi Hup Hp1.
  generalize dependent ((1 - u64r) ^ D). intros lo Hlo Hdn.
  assert (INR D * u64r <= 276 / 1000000000) as HDu by nra.
  assert (hi <= 1 + 3 / 10000000) as Hhi' by nra.
  assert (1 - 3 / 10000000 <= lo) as Hlo' by lra.
  assert (33333322 <= B2R S <= 33333345) as HS by nra.
  assert (0 <= B2R S * B2R d <= 1) as HP by nra.
  destruct (mul_R S d Hfin Hfd) as [Hfr Hr].
  { rewrite Rabs_pos_eq by lra. pose proof bpow_900_big. lra. }
  split; [exact Hfr|].
  apply (final_real u64r eta E lo hi (B2R S) (B2R d)); try assumption; lra.
Qed.

(** One running sum over a list of samples, times [d]. *)
Lemma one_level_value (v : Z -> float) (l : list Z) (d : float) :
  nonneg_on v l -> INR (length l) <= 2300000000 ->
  33333333 <= Rsum_over v l <= 33333334 ->
  finite d -> 2 / 100000000 * (1 - u64r) <= B2R d <= 2 / 100000000 * (1 + u64r) ->
  finite (fmul (fold_left (fun R i => fadd R (v i)) l fzero) d) /\
  Rabs (B2R (fmul (fold_left (fun R i => fadd R (v i)) l fzero) d) - 2 / 3) <= 1 / 1000000.
Proof.
  intros Hv HD HE Hfd Hd.
  apply (within_value (private_sum v l) (Rsum_over v l) (length l) d); try assumption.
  apply one_level_within; [exact Hv|]. apply guard_ok; [lra|exact HD].
Qed.

(** Private sums over the parts of a list of samples, added up, times [d]. *)
Lemma two_level_value (v : Z -> float) (parts : list (list Z)) (n : nat) (d : float) :
  nonneg_on v (concat parts) ->
  (forall part, In part parts -> (length part <= n)%nat) ->
  INR (n + length parts) <= 2300000000 ->
  33333333 <= Rsum_over v (concat parts) <= 33333334 ->
  finite d -> 2 / 100000000 * (1 - u64r) <= B2R d <= 2 / 100000000 * (1 + u64r) ->
  finite (fmul (fold_left fadd (map (private_sum v) parts) fzero) d) /\
  Rabs (B2R (fmul (fold_left fadd (map (private_sum v) parts) fzero) d) - 2 / 3)
  <= 1 / 1000000.
Proof.
  intros Hv Hlen HD HE Hfd Hd.
  apply (within_value _ (Rsum_over v (concat parts)) (n + length parts) d); try assumption.
  apply two_level_within; [exact Hv|exact Hlen|]. apply guard_ok; [lra|exact HD].
Qed.

Lemma Rsum_close {X} (w q : X -> R) (e : R) (l : list X) :
  (forall x, In x l -> Rabs (w x - q x) <= e) ->
  Rabs (Rsum (map w l) - Rsum (map q l)) <= INR (length l) * e.
Proof.
  induction l as [|x l IH]; intros H.
  - simpl. rewrite Rminus_diag, Rabs_R0. lra.
  - change (length (x :: l)) with (S (length l)). rewrite S_INR. simpl map. simpl Rsum.
    pose proof (H x (or_introl eq_refl)) as Hx.
    assert (Rabs (Rsum (map w l) - Rsum (map q l)) <= INR (length l) * e) as Hl
        by (apply IH; intros y Hy; apply H; right; exact Hy).
    replace (w x + Rsum (map w l) - (q x + Rsum (map q l)))
      with ((w x - q x) + (Rsum (map w l) - Rsum (map q l))) by ring.
    eapply Rle_trans; [apply Rabs_triang|]. lra.
Qed.

(** The left Riemann sum of [x^2] on [-1, 1], before the factor [dx]. *)
Lemma sum_of_squares (m : R) (n : nat) :
  m <> 0 ->
  Rsum (map (fun i : Z => (2 * IZR i / m - 1) * (2 * IZR i / m - 1)) (map Z.of_nat (seq 0 n)))
  = 4 / (m * m) * ((INR n - 1) * INR n * (2 * INR n - 1) / 6)
    - 4 / m * (INR n * (INR n - 1) / 2) + INR n.
Proof.
  intros Hm. induction n as [|n IH].
  - simpl. field. exact Hm.
  - rewrite seq_S, !map_app, Rsum_app, IH, S_INR. simpl.
    rewrite <- INR_IZR_INZ. field. exact Hm.
Qed.

Lemma sum_of_squares_upto (m : R) (N : Z) :
  m <> 0 ->
  Rsum (map (fun i : Z => (2 * IZR i / m - 1) * (2 * IZR i / m - 1)) (upto N))
  = 4 / (m * m) * ((INR (Z.to_nat N) - 1) * INR (Z.to_nat N) * (2 * INR (Z.to_nat N) - 1) / 6)
    - 4 / m * (INR (Z.to_nat N) * (INR (Z.to_nat N) - 1) / 2) + INR (Z.to_nat N).
Proof. intros Hm. unfold upto. apply sum_of_squares. exact Hm. Qed.

Lemma samples_nonneg :
  nonneg_on (fun i => f (sample1 STEPS A B i)) (upto STEPS).
Proof.
  intros i Hi. apply in_upto in Hi.
  destruct (sample_value i Hi) as [Hfin [Hv _]]. split; [exact Hfin|lra].
Qed.

Lemma samples_sum :
  33333333 <= Rsum_over (fun i => f (sample1 STEPS A B i)) (upto STEPS) <= 33333334.
Proof.
  pose proof u64r_bounds as Hu.
  unfold Rsum_over.
  pose proof (Rsum_close (fun i => B2R (f (sample1 STEPS A B i)))
                (fun i : Z => (2 * IZR i / 100000000 - 1) * (2 * IZR i / 100000000 - 1))
                (16 * u64r) (upto STEPS)) as H.
  rewrite length_upto in H.
  assert (INR (Z.to_nat STEPS) = 100000000) as HN.
  { rewrite INR_IZR_INZ, Z2Nat.id by (unfold STEPS; lia). reflexivity. }
  rewrite sum_of_squares_upto in H by lra.
  rewrite HN in H.
  assert (forall x, In x (upto STEPS) ->
            Rabs (B2R (f (sample1 STEPS A B x))
                  - (2 * IZR x / 100000000 - 1) * (2 * IZR x / 100000000 - 1)) <= 16 * u64r) as Hx.
  { intros x Hx. apply in_upto in Hx. apply (sample_value x Hx). }
  specialize (H Hx). apply Rabs_le_inv in H. lra.
Qed.

Lemma length_part_le_concat {X} (parts : list (list X)) (part : list X) :
  In part parts -> (length part <= length (concat parts))%nat.
Proof.
  induction parts as [|p parts IH]; intros Hin; [destruct Hin|].
  simpl. rewrite length_app. destruct Hin as [->|Hin]; [lia|].
  specialize (IH Hin). lia.
Qed.

#[local] Abbreviation sq_sample := (fun i : Z => f (sample1 STEPS A B i)).

Lemma INR_STEPS : INR (Z.to_nat STEPS) = 100000000.
Proof. rewrite INR_IZR_INZ, Z2Nat.id by (unfold STEPS; lia). reflexivity. Qed.

Lemma dx_R :
  finite (dx STEPS A B) /\
  2 / 100000000 * (1 - u64r) <= B2R (dx STEPS A B) <= 2 / 100000000 * (1 + u64r).
Proof. split; [apply dxf_R|apply dxf_bounds]. Qed.

(** One running sum over all the samples, times [dx]. *)
Lemma sequential_value :
  finite (fmul (fold_left (fun R i => fadd R (f (sample1 STEPS A B i))) (upto STEPS) fzero)
               (dx STEPS A B)) /\
  Rabs (B2R (fmul (fold_left (fun R i => fadd R (f (sample1 STEPS A B i))) (upto STEPS) fzero)
                  (dx STEPS A B)) - 2 / 3) <= 1 / 1000000.
Proof.
  pose proof INR_STEPS as HN. destruct dx_R as [Hfd Hd].
  apply (one_level_value (fun i => f (sample1 STEPS A B i))).
  - exact samples_nonneg.
  - rewrite length_upto, HN. lra.
  - exact samples_sum.
  - exact Hfd.
  - exact Hd.
Qed.

(** Private sums over the parts of a partition, added up, times [dx]. *)
Lemma parts_value (parts : list (list Z)) :
  Permutation (concat parts) (upto STEPS) ->
  (Z.of_nat (length parts) <= 2 ^ 31)%Z ->
  finite (fmul (fold_left fadd (map (private_sum sq_sample) parts) fzero) (dx STEPS A B)) /\
  Rabs (B2R (fmul (fold_left fadd (map (private_sum sq_sample) parts) fzero) (dx STEPS A B))
        - 2 / 3) <= 1 / 1000000.
Proof.
  intros Hperm Hlen. pose proof samples_sum as HE. pose proof INR_STEPS as HN.
  destruct dx_R as [Hfd Hd].
  rewrite <- (Rsum_over_perm sq_sample _ _ Hperm) in HE.
  apply (two_level_value sq_sample parts (Z.to_nat STEPS)).
  - intros i Hi. apply samples_nonneg. apply (Permutation_in _ Hperm). exact Hi.
  - intros part Hin. rewrite <- length_upto, <- (Permutation_length Hperm).
    apply length_part_le_concat. exact Hin.
  - rewrite plus_INR, HN, (INR_IZR_INZ (length parts)).
    apply IZR_le in Hlen. change (2 ^ 31)%Z with 2147483648%Z in Hlen. lra.
  - exact HE.
  - exact Hfd.
  - exact Hd.
Qed.

Lemma private_sum_sample2 (l : list Z) :
  fold_left (fun R i => fadd R (f (sample2 STEPS A B i))) l fzero = private_sum sq_sample l.
Proof.
  unfold private_sum. generalize (@fzero float _).
  induction l as [|i l IH]; intros r; cbn [fold_left]; [reflexivity|].
  rewrite sample2_sample1_float. apply IH.
Qed.

Lemma workers_value (T : Z) (sched : list Z) :
  (1 <= T)%Z -> (T + STEPS <= 2 ^ 31)%Z -> Permutation sched (workers T) ->
  let S := fold_left (fun r t => fadd r (private_sum sq_sample (strided T STEPS t)))
                     sched fzero in
  finite (fmul S (dx STEPS A B)) /\ Rabs (B2R (fmul S (dx STEPS A B)) - 2 / 3) <= 1 / 1000000.
Proof.
  intros HT Hlim Hperm S. unfold S.
  rewrite (fold_left_map_fadd (fun t => private_sum sq_sample (strided T STEPS t))).
  rewrite <- (map_map (strided T STEPS) (private_sum sq_sample)).
  apply parts_value.
  - apply cover_of_schedule; [lia|exact Hperm].
  - rewrite length_map, (Permutation_length Hperm). unfold workers.
    rewrite length_upto, Z2Nat.id by lia. unfold STEPS in Hlim. lia.
Qed.

Lemma slots_value (T : Z) :
  (1 <= T)%Z -> (T + STEPS <= 2 ^ 31)%Z ->
  let S := fold_left fadd
             (map (fun t => fold_left (fun R i => fadd R (f (sample2 STEPS A B i)))
                                      (strided T STEPS t) fzero) (upto T)) fzero in
  finite (fmul S (dx STEPS A B)) /\ Rabs (B2R (fmul S (dx STEPS A B)) - 2 / 3) <= 1 / 1000000.
Proof.
  intros HT Hlim S. unfold S.
  rewrite (map_ext _ (fun t => private_sum sq_sample (strided T STEPS t)))
    by (intros t; apply private_sum_sample2).
  rewrite <- (map_map (strided T STEPS) (private_sum sq_sample)).
  apply parts_value.
  - apply (strided_cover T STEPS). lia.
  - rewrite length_map, length_upto, Z2Nat.id by lia. unfold STEPS in Hlim. lia.
Qed.

Lemma chunks_value (chunks : list (list Z)) :
  Permutation (concat chunks) (upto STEPS) ->
  (Z.of_nat (length chunks) <= 2 ^ 31)%Z ->
  let S := fold_left (fun r chunk =>
                        fadd r (fold_left (fun R i => fadd R (f (sample2 STEPS A B i)))
                                          chunk fzero)) chunks fzero in
  finite (fmul S (dx STEPS A B)) /\ Rabs (B2R (fmul S (dx STEPS A B)) - 2 / 3) <= 1 / 1000000.
Proof.
  intros Hperm Hlen S. unfold S.
  rewrite (fold_left_map_fadd
             (fun chunk => fold_left (fun R i => fadd R (f (sample2 STEPS A B i))) chunk fzero)).
  rewrite (map_ext _ (private_sum sq_sample)) by (intros t; apply private_sum_sample2).
  apply parts_value; assumption.
Qed.

(** C8: over binary64, with [f(x) = x*x] on [[-1, 1]] and [STEPS]
    samples, every strategy (and the sequential [integrateDefault]) run
    with [T >= 1] workers under any schedule terminates and returns a
    finite double within [1e-6] of [2/3]; [T + STEPS <= 2^31] keeps the
    loop counters from wrapping, the allocation succeeds, and the
    worksharing loop runs each iteration once, in at most [2^31] chunks. *)
Theorem benchmark_within_tolerance (s : strategy) (fuel : nat) (T : Z)
        (choices : list nat) (base : Z) (chunks : list (list Z)) :
  (1 <= T)%Z -> (T + STEPS <= 2 ^ 31)%Z -> (Z.to_nat (STEPS + T) <= fuel)%nat ->
  Permutation (concat chunks) (upto STEPS) ->
  (Z.of_nat (length chunks) <= 2 ^ 31)%Z ->
  exists v : float,
    experiment s fuel choices (Some base) chunks T = Done v /\
    finite v /\ Rabs (B2R v - 2 / 3) <= 1 / 1000000.
Proof.
  intros HT Hlim Hfuel Hchunks Hlen.
  assert (1 <= STEPS)%Z as HN by (unfold STEPS; lia).
  assert (STEPS + T <= 2 ^ 31)%Z as Hlim' by lia.
  assert (STEPS + T <= 2 ^ 32)%Z as Hlim32 by lia.
  assert (STEPS + 1 <= 2 ^ 32)%Z as Hlim1 by lia.
  assert (Z.to_nat STEPS <= fuel)%nat as Hfuel1 by lia.
  assert (Permutation (schedule choices (workers T)) (workers T)) as Hsched
      by apply schedule_perm.
  assert (Permutation (schedule choices (strided 1 T 1 ++ [0%Z])) (workers T)) as Hsched'
      by (etransitivity; [apply schedule_perm|apply threads_and_main; lia]).
  unfold experiment.
  destruct s; unfold integrate; eexists.
  - rewrite integrateDefault_shape by assumption. cbv [value_of]. split; [reflexivity|].
    exact sequential_value.
  - rewrite integrateCrit_shape by assumption. cbv [value_of]. split; [reflexivity|].
    apply (workers_value T); assumption.
  - rewrite integrateMutex_shape by assumption. cbv [value_of]. split; [reflexivity|].
    apply (workers_value T); assumption.
  - rewrite integrateArr_shape by assumption. cbv [value_of]. split; [reflexivity|].
    apply (slots_value T); assumption.
  - rewrite integrateArrAlign_shape by assumption. cbv [value_of]. split; [reflexivity|].
    apply (slots_value T); assumption.
  - rewrite integrateReduction_shape. cbv [value_of]. split; [reflexivity|].
    apply chunks_value; assumption.
  - rewrite integratePS_shape by assumption. cbv [value_of]. split; [reflexivity|].
    apply (slots_value T); assumption.
  - rewrite integrateAtomic_shape by assumption. cbv [value_of]. split; [reflexivity|].
    apply (workers_value T); assumption.
Qed.

Lemma benchmark_within_tolerance_witness :
  exists v : float,
    experiment Crit (Z.to_nat (STEPS + 4)) [] (Some 0%Z) [upto STEPS] 4 = Done v /\
    finite v /\ Rabs (B2R v - 2 / 3) <= 1 / 1000000.
Proof.
  apply (benchmark_within_tolerance Crit (Z.to_nat (STEPS + 4)) 4 [] 0 [upto STEPS]).
  - lia.
  - unfold STEPS; lia.
  - apply le_n.
  - rewrite concat_cons, concat_nil, app_nil_r. apply Permutation_refl.
  - cbn [length]. lia.
Defined.

(** ** Agreement of the strategies

    *** Sums of nonnegative doubles in any order *)

(** A sum of at most [2.3e9] rounded accumulations of nonnegative terms is
    the exact sum up to a relative [3e-7]. *)
Lemma within_bounds (S : float) (E : R) (D : nat) :
  within S E D -> INR D <= 2300000000 -> 0 <= E ->
  finite S /\ E * (1 - 3 / 10000000) <= B2R S <= E * (1 + 3 / 10000000).
Proof.
  intros [Hfin [Hlo Hhi]] HD HE. split; [exact Hfin|].
  pose proof u64r_bounds as Hu.
  pose proof (pow_1pu_upper u64r D ltac:(lra)) as Hup.
  pose proof (pow_1mu_lower u64r D ltac:(lra)) as Hdn.
  pose proof (pow_1pu_ge_1 u64r D ltac:(lra)) as Hp1.
  pose proof (pos_INR D) as HD0.
  generalize dependent ((1 + u64r) ^ D). intros hi Hhi Hup Hp1.
  generalize dependent ((1 - u64r) ^ D). intros lo Hlo Hdn.
  assert (INR D * u64r <= 276 / 1000000000) as HDu by nra.
  assert (hi <= 1 + 3 / 10000000) as Hhi' by nra.
  assert (1 - 3 / 10000000 <= lo) as Hlo' by lra.
  split.
  - apply Rle_trans with (E * lo); [|exact Hlo]. apply Rmult_le_compat_l; assumption.
  - apply Rle_trans with (E * hi); [exact Hhi|]. apply Rmult_le_compat_l; assumption.
Qed.

Lemma guard_below (E : R) (D : nat) :
  0 <= E <= bpow 898 -> INR D <= 2300000000 -> E * (1 + u64r) ^ D <= bpow 899.
Proof.
  intros HE HD. pose proof u64r_bounds as Hu.
  pose proof (pow_1pu_upper u64r D ltac:(lra)) as Hup.
  pose proof (pow_1pu_ge_1 u64r D ltac:(lra)) as Hp1.
  pose proof (pos_INR D) as HD0.
  change 899%Z with (898 + 1)%Z. rewrite bpow_succ.
  generalize dependent ((1 + u64r) ^ D). intros hi Hup Hp1.
  assert (INR D * u64r <= 276 / 1000000000) as HDu by nra.
  assert (hi <= 2) by nra.
  apply Rle_trans with (E * 2); [apply Rmult_le_compat_l; lra|lra].
Qed.

Lemma eta_tiny : eta <= bpow (-1000) / 100000000000000000000.
Proof.
  unfold eta. change (emin - 1)%Z with (-75 + -1000)%Z. rewrite bpow_add.
  replace (bpow (-75)) with (/ IZR (2 ^ 75)) by (symmetry; apply (bpow_neg_IZR 75); lia).
  change (2 ^ 75)%Z with 37778931862957161709568%Z.
  pose proof (bpow_gt_0 (-1000)) as Hp.
  assert (/ 37778931862957161709568 <= / 100000000000000000000) as Hinv
      by (apply Rinv_le_contravar; lra).
  unfold Rdiv. rewrite (Rmult_comm (bpow (-1000))).
  apply Rmult_le_compat_r; lra.
Qed.

(** Two sums close to the same [E], both multiplied by [d]. *)
Lemma close_products_real (u e X q1 q0 p1 p0 v1 v0 : R) :
  0 < u <= 12 / 100000000000000000 -> 0 <= e <= X / 100000000000000000000 ->
  0 < X ->
  X * (1 - 3 / 10000000) <= q1 <= X * (1 + 3 / 10000000) ->
  X * (1 - 3 / 10000000) <= q0 <= X * (1 + 3 / 10000000) ->
  (p1 = q1 /\ p0 = q0) \/ (p1 = - q1 /\ p0 = - q0) ->
  Rabs (v1 - p1) <= u * q1 + e -> Rabs (v0 - p0) <= u * q0 + e ->
  Rabs (v1 - v0) <= 1 / 1000000 * Rabs v0.
Proof.
  intros Hu He HX Hq1 Hq0 Hsign H1 H0.
  apply Rabs_le_inv in H1. apply Rabs_le_inv in H0.
  assert (u * q1 <= 12 / 100000000000000000 * q1) as Hu1
      by (apply Rmult_le_compat_r; lra).
  assert (u * q0 <= 12 / 100000000000000000 * q0) as Hu0
      by (apply Rmult_le_compat_r; lra).
  destruct Hsign as [[-> ->]|[-> ->]].
  - rewrite (Rabs_pos_eq v0) by lra. apply Rabs_le. lra.
  - rewrite (Rabs_left v0) by lra. apply Rabs_le. lra.
Qed.

Lemma close_products (S1 S0 d : float) (E : R) :
  finite S1 -> finite S0 -> finite d ->
  E * (1 - 3 / 10000000) <= B2R S1 <= E * (1 + 3 / 10000000) ->
  E * (1 - 3 / 10000000) <= B2R S0 <= E * (1 + 3 / 10000000) ->
  0 <= E -> bpow (-1000) <= Rabs (B2R d) * E <= bpow 898 ->
  finite (fmul S1 d) /\ finite (fmul S0 d) /\
  Rabs (B2R (fmul S1 d) - B2R (fmul S0 d)) <= 1 / 1000000 * Rabs (B2R (fmul S0 d)).
Proof.
  intros Hf1 Hf0 Hfd H1 H0 HE HX.
  pose proof u64r_bounds as Hu. pose proof eta_bounds as He. pose proof eta_tiny as Het.
  pose proof (bpow_gt_0 (-1000)) as Hp.
  pose proof (Rabs_pos (B2R d)) as Hd0.
  set (X := Rabs (B2R d) * E) in *.
  assert (bpow 898 * 4 = bpow 900) as H900.
  { change 900%Z with (898 + 1 + 1)%Z. rewrite !bpow_succ. ring. }
  assert (forall S : float,
             E * (1 - 3 / 10000000) <= B2R S <= E * (1 + 3 / 10000000) ->
             X * (1 - 3 / 10000000) <= B2R S * Rabs (B2R d) <= X * (1 + 3 / 10000000) /\
             Rabs (B2R S * B2R d) = B2R S * Rabs (B2R d)) as Hq.
  { intros S HS. split.
    - unfold X. split.
      + replace (Rabs (B2R d) * E * (1 - 3 / 10000000))
          with (E * (1 - 3 / 10000000) * Rabs (B2R d)) by ring.
        apply Rmult_le_compat_r; lra.
      + replace (Rabs (B2R d) * E * (1 + 3 / 10000000))
          with (E * (1 + 3 / 10000000) * Rabs (B2R d)) by ring.
        apply Rmult_le_compat_r; lra.
    - rewrite Rabs_mult. rewrite (Rabs_pos_eq (B2R S)); [reflexivity|].
      apply Rle_trans with (E * (1 - 3 / 10000000)); [|lra].
      apply Rmult_le_pos; lra. }
  destruct (Hq S1 H1) as [Hq1 Ha1]. destruct (Hq S0 H0) as [Hq0 Ha0].
  destruct (mul_R S1 d Hf1 Hfd) as [Hfr1 Hr1]; [rewrite Ha1; lra|].
  destruct (mul_R S0 d Hf0 Hfd) as [Hfr0 Hr0]; [rewrite Ha0; lra|].
  change (PrimFloat.mul S1 d) with (fmul S1 d) in *.
  change (PrimFloat.mul S0 d) with (fmul S0 d) in *.
  rewrite Ha1 in Hr1. rewrite Ha0 in Hr0.
  split; [exact Hfr1|]. split; [exact Hfr0|].
  apply (close_products_real u64r eta X (B2R S1 * Rabs (B2R d)) (B2R S0 * Rabs (B2R d))
                             (B2R S1 * B2R d) (B2R S0 * B2R d)); try assumption.
  - split; [lra|]. unfold Rdiv in *. 
    apply Rle_trans with (bpow (-1000) * / 100000000000000000000); [exact Het|].
    apply Rmult_le_compat_r; lra.
  - lra.
  - unfold Rabs. destruct (Rcase_abs (B2R d)); [right|left]; split; ring.
Qed.

Section FloatSums.
Variables (N : Z) (a b : float) (g : float -> float).

#[local] Abbreviation smp := (fun i : Z => g (sample1 N a b i)).

Hypothesis HN : (1 <= N)%Z.
Hypothesis Hnn : nonneg_on smp (upto N).
Hypothesis Hsum : Rsum_over smp (upto N) <= bpow 898.

Lemma private_sum_sample2_any (l : list Z) :
  fold_left (fun R i => fadd R (g (sample2 N a b i))) l fzero = private_sum smp l.
Proof.
  unfold private_sum. generalize (@fzero float _).
  induction l as [|i l IH]; intros r; cbn [fold_left]; [reflexivity|].
  rewrite sample2_sample1_float. apply IH.
Qed.

Lemma INR_to_nat_bound (D : Z) (L : nat) :
  (D + Z.of_nat L <= 2 ^ 31)%Z -> (0 <= D)%Z -> INR (Z.to_nat D + L) <= 2300000000.
Proof.
  intros HD H0. rewrite plus_INR, !INR_IZR_INZ, Z2Nat.id by lia.
  rewrite <- plus_IZR. apply Rle_trans with (IZR (2 ^ 31)); [apply IZR_le; lia|].
  change (2 ^ 31)%Z with 2147483648%Z. lra.
Qed.

(** The sequential sum. *)
Lemma sequential_sum_close :
  (N <= 2 ^ 31)%Z ->
  finite (private_sum smp (upto N)) /\
  Rsum_over smp (upto N) * (1 - 3 / 10000000) <= B2R (private_sum smp (upto N))
  <= Rsum_over smp (upto N) * (1 + 3 / 10000000).
Proof.
  intros Hlim. pose proof (Rsum_over_nonneg _ _ Hnn) as HE.
  assert (INR (length (upto N)) <= 2300000000) as HD.
  { rewrite length_upto. pose proof (INR_to_nat_bound N 0) as H.
    rewrite Nat.add_0_r in H. apply H; simpl; lia. }
  apply (within_bounds _ _ (length (upto N))); [|exact HD|exact HE].
  apply one_level_within; [exact Hnn|]. apply guard_below; [lra|exact HD].
Qed.

(** Private sums over the parts of a partition of the samples, added up. *)
Lemma parts_sum_close (parts : list (list Z)) :
  Permutation (concat parts) (upto N) ->
  (N + Z.of_nat (length parts) <= 2 ^ 31)%Z ->
  finite (fold_left fadd (map (private_sum smp) parts) fzero) /\
  Rsum_over smp (upto N) * (1 - 3 / 10000000)
  <= B2R (fold_left fadd (map (private_sum smp) parts) fzero)
  <= Rsum_over smp (upto N) * (1 + 3 / 10000000).
Proof.
  intros Hperm Hlen. pose proof (Rsum_over_nonneg _ _ Hnn) as HE.
  assert (INR (Z.to_nat N + length parts) <= 2300000000) as HD
      by (apply INR_to_nat_bound; lia).
  rewrite <- (Rsum_over_perm smp _ _ Hperm) in *.
  apply (within_bounds _ _ (Z.to_nat N + length parts)); [|exact HD|exact HE].
  apply two_level_within.
  - intros i Hi. apply Hnn. apply (Permutation_in _ Hperm). exact Hi.
  - intros part Hin. rewrite <- length_upto, <- (Permutation_length Hperm).
    apply length_part_le_concat. exact Hin.
  - apply guard_below; [lra|exact HD].
Qed.

Lemma workers_sum_close (T : Z) (sched : list Z) :
  (1 <= T)%Z -> (N + T <= 2 ^ 31)%Z -> Permutation sched (workers T) ->
  let S := fold_left (fun r t => fadd r (private_sum smp (strided T N t))) sched fzero in
  finite S /\
  Rsum_over smp (upto N) * (1 - 3 / 10000000) <= B2R S
  <= Rsum_over smp (upto N) * (1 + 3 / 10000000).
Proof.
  intros HT Hlim Hperm S. unfold S.
  rewrite (fold_left_map_fadd (fun t => private_sum smp (strided T N t))).
  rewrite <- (map_map (strided T N) (private_sum smp)).
  apply parts_sum_close.
  - apply cover_of_schedule; [lia|exact Hperm].
  - rewrite length_map, (Permutation_length Hperm). unfold workers.
    rewrite length_upto, Z2Nat.id by lia. lia.
Qed.

Lemma slots_sum_close (T : Z) :
  (1 <= T)%Z -> (N + T <= 2 ^ 31)%Z ->
  let S := fold_left fadd
             (map (fun t => fold_left (fun R i => fadd R (g (sample2 N a b i)))
                                      (strided T N t) fzero) (upto T)) fzero in
  finite S /\
  Rsum_over smp (upto N) * (1 - 3 / 10000000) <= B2R S
  <= Rsum_over smp (upto N) * (1 + 3 / 10000000).
Proof.
  intros HT Hlim S. unfold S.
  rewrite (map_ext _ (fun t => private_sum smp (strided T N t)))
    by (intros t; apply private_sum_sample2_any).
  rewrite <- (map_map (strided T N) (private_sum smp)).
  apply parts_sum_close.
  - apply (strided_cover T N). lia.
  - rewrite length_map, length_upto, Z2Nat.id by lia. lia.
Qed.

Lemma chunks_sum_close (chunks : list (list Z)) :
  Permutation (concat chunks) (upto N) ->
  (N + Z.of_nat (length chunks) <= 2 ^ 31)%Z ->
  let S := fold_left (fun r chunk =>
                        fadd r (fold_left (fun R i => fadd R (g (sample2 N a b i)))
                                          chunk fzero)) chunks fzero in
  finite S /\
  Rsum_over smp (upto N) * (1 - 3 / 10000000) <= B2R S
  <= Rsum_over smp (upto N) * (1 + 3 / 10000000).
Proof.
  intros Hperm Hlen S. unfold S.
  rewrite (fold_left_map_fadd
             (fun chunk => fold_left (fun R i => fadd R (g (sample2 N a b i))) chunk fzero)).
  rewrite (map_ext _ (private_sum smp)) by (intros t; apply private_sum_sample2_any).
  apply parts_sum_close; assumption.
Qed.

(** Every strategy returns a sum close to the exact one, times [dx]. *)
Lemma strategy_sum_close (s : strategy) (fuel : nat) (T : Z) (choices : list nat)
      (base : Z) (chunks : list (list Z)) :
  (1 <= T)%Z -> (N + T <= 2 ^ 31)%Z -> (Z.to_nat (N + T) <= fuel)%nat ->
  Permutation (concat chunks) (upto N) ->
  (N + Z.of_nat (length chunks) <= 2 ^ 31)%Z ->
  exists S : float,
    value_of (integrate s N a b g fuel T choices (Some base) chunks start)
    = Done (fmul S (dx N a b)) /\
    finite S /\
    Rsum_over smp (upto N) * (1 - 3 / 10000000) <= B2R S
    <= Rsum_over smp (upto N) * (1 + 3 / 10000000).
Proof.
  intros HT Hlim Hfuel Hchunks Hlen.
  assert (N + T <= 2 ^ 32)%Z as Hlim32 by lia.
  assert (N + 1 <= 2 ^ 32)%Z as Hlim1 by lia.
  assert (Z.to_nat N <= fuel)%nat as Hfuel1 by lia.
  assert (Permutation (schedule choices (workers T)) (workers T)) as Hsched
      by apply schedule_perm.
  assert (Permutation (schedule choices (strided 1 T 1 ++ [0%Z])) (workers T)) as Hsched'
      by (etransitivity; [apply schedule_perm|apply threads_and_main; lia]).
  destruct s; unfold integrate; eexists.
  - rewrite integrateDefault_shape by assumption. cbv [value_of]. split; [reflexivity|].
    apply sequential_sum_close. lia.
  - rewrite integrateCrit_shape by assumption. cbv [value_of]. split; [reflexivity|].
    apply (workers_sum_close T); assumption.
  - rewrite integrateMutex_shape by assumption. cbv [value_of]. split; [reflexivity|].
    apply (workers_sum_close T); assumption.
  - rewrite integrateArr_shape by assumption. cbv [value_of]. split; [reflexivity|].
    apply (slots_sum_close T); assumption.
  - rewrite integrateArrAlign_shape by assumption. cbv [value_of]. split; [reflexivity|].
    apply (slots_sum_close T); assumption.
  - rewrite integrateReduction_shape. cbv [value_of]. split; [reflexivity|].
    apply chunks_sum_close; assumption.
  - rewrite integratePS_shape by assumption. cbv [value_of]. split; [reflexivity|].
    apply (slots_sum_close T); assumption.
  - rewrite integrateAtomic_shape by assumption. cbv [value_of]. split; [reflexivity|].
    apply (workers_sum_close T); assumption.
Qed.

End FloatSums.

(** Over binary64, for an integrand that is finite and nonnegative at the
    sample points: every strategy's result is within a relative [1e-6] of
    [integrateDefault]'s. *)
Lemma binary64_agreement (s : strategy) (N : Z) (a b : float) (g : float -> float)
      (fuel : nat) (T : Z) (choices : list nat) (base : Z) (chunks : list (list Z)) :
  (1 <= T)%Z -> (1 <= N)%Z -> (N + T <= 2 ^ 31)%Z -> (Z.to_nat (N + T) <= fuel)%nat ->
  Permutation (concat chunks) (upto N) ->
  (N + Z.of_nat (length chunks) <= 2 ^ 31)%Z ->
  finite (dx N a b) ->
  nonneg_on (fun i => g (sample1 N a b i)) (upto N) ->
  Rsum_over (fun i => g (sample1 N a b i)) (upto N) <= bpow 898 ->
  bpow (-1000) <= Rabs (B2R (dx N a b)) * Rsum_over (fun i => g (sample1 N a b i)) (upto N)
  <= bpow 898 ->
  exists v v0 : float,
    value_of (integrate s N a b g fuel T choices (Some base) chunks start) = Done v /\
    value_of (integrateDefault N a b g fuel start) = Done v0 /\
    finite v /\ finite v0 /\
    Rabs (B2R v - B2R v0) <= 1 / 1000000 * Rabs (B2R v0).
Proof.
  intros HT HN Hlim Hfuel Hchunks Hlen Hfd Hnn Hsum HX.
  destruct (strategy_sum_close N a b g HN Hnn Hsum s fuel T choices base chunks)
    as (S1 & Hrun1 & Hf1 & H1); try assumption.
  destruct (strategy_sum_close N a b g HN Hnn Hsum Default fuel T choices base chunks)
    as (S0 & Hrun0 & Hf0 & H0); try assumption.
  pose proof (Rsum_over_nonneg _ _ Hnn) as HE.
  destruct (close_products S1 S0 (dx N a b) _ Hf1 Hf0 Hfd H1 H0 HE HX) as (Hv1 & Hv0 & Hclose).
  exists (fmul S1 (dx N a b)), (fmul S0 (dx N a b)).
  split; [exact Hrun1|]. split; [exact Hrun0|]. auto.
Qed.

(** *** An integrand of mixed sign *)

Lemma SFeqb_SF2R (x y : spec_float) : SFeqb x y = true -> SF2R x = SF2R y.
Proof.
  unfold SFeqb, SFcompare.
  destruct x as [sx|sx| |sx mx ex], y as [sy|sy| |sy my ey];
    try destruct sx; try destruct sy; try discriminate; try reflexivity.
  all: destruct (Z.compare_spec ex ey) as [He|He|He]; try discriminate;
    destruct (Pos.compare_cont Eq mx my) eqn:Hm; try discriminate;
    intros _; apply Pos.compare_eq in Hm; subst; reflexivity.
Qed.

Lemma eqb_B2R (x y : float) : PrimFloat.eqb x y = true -> B2R x = B2R y.
Proof. rewrite eqb_spec. apply SFeqb_SF2R. Qed.

Lemma strided_bounds T N i x : (0 < T)%Z -> In x (strided T N i) -> (i <= x < N)%Z.
Proof.
  intros HT. unfold strided. rewrite in_map_iff. intros (j & <- & Hj).
  apply in_seq in Hj. assert (j < count T N i)%nat as Hc by lia.
  apply count_spec in Hc; [|assumption]. nia.
Qed.

Section Cancelling.
Variables (v : Z -> float) (N : Z).
Hypothesis HN : (3 <= N)%Z.
Hypothesis Hv0 : v 0%Z = big.
Hypothesis Hv1 : v 1%Z = 1%float.
Hypothesis Hv2 : v 2%Z = PrimFloat.opp big.
Hypothesis Hrest : forall i, (3 <= i < N)%Z -> v i = 0%float.

Lemma fold_zero_terms (l : list Z) (r : float) :
  (forall i, In i l -> (3 <= i < N)%Z) -> PrimFloat.add r 0%float = r ->
  fold_left (fun R i => fadd R (v i)) l r = r.
Proof.
  intros Hl Hr. induction l as [|i l IH]; cbn [fold_left]; [reflexivity|].
  rewrite Hrest by (apply Hl; left; reflexivity).
  change (fadd r 0%float) with (PrimFloat.add r 0%float). rewrite Hr.
  apply IH. intros j Hj. apply Hl. right. exact Hj.
Qed.

(** In index order: [2^60 + 1] rounds to [2^60], and [2^60 - 2^60 = 0]. *)
Lemma cancelling_in_order :
  fold_left (fun R i => fadd R (v i)) (upto N) fzero = 0%float.
Proof.
  rewrite <- strided_one.
  rewrite (strided_step 1 N 0), (strided_step 1 N (0 + 1)), (strided_step 1 N (0 + 1 + 1))
    by lia.
  cbn [fold_left]. change (0 + 1)%Z with 1%Z. change (1 + 1)%Z with 2%Z.
  rewrite Hv0, Hv1, Hv2.
  change (fadd (fadd (fadd fzero big) 1%float) (PrimFloat.opp big)) with 0%float.
  apply fold_zero_terms; [|reflexivity].
  intros i Hi. apply strided_bounds in Hi; lia.
Qed.

(** Thread 0 of two: [2^60 - 2^60 = 0]. *)
Lemma cancelling_even :
  fold_left (fun R i => fadd R (v i)) (strided 2 N 0) fzero = 0%float.
Proof.
  rewrite (strided_step 2 N 0), (strided_step 2 N (0 + 2)) by lia.
  cbn [fold_left]. change (0 + 2)%Z with 2%Z.
  rewrite Hv0, Hv2.
  change (fadd (fadd fzero big) (PrimFloat.opp big)) with 0%float.
  apply fold_zero_terms; [|reflexivity].
  intros i Hi. apply strided_bounds in Hi; lia.
Qed.

(** Thread 1 of two keeps the [1]. *)
Lemma cancelling_odd :
  fold_left (fun R i => fadd R (v i)) (strided 2 N 1) fzero = 1%float.
Proof.
  rewrite (strided_step 2 N 1) by lia.
  cbn [fold_left]. rewrite Hv1.
  change (fadd fzero 1%float) with 1%float.
  apply fold_zero_terms; [|reflexivity].
  intros i Hi. apply strided_bounds in Hi; lia.
Qed.

End Cancelling.

(** The bounds [0] and [STEPS] make [dx = 1] and the sample points the
    integers. *)
Lemma unit_dx : dx STEPS (of_int 0) (of_int STEPS) = 1%float.
Proof. reflexivity. Qed.

Lemma one_R : finite 1%float /\ B2R 1%float = 1.
Proof.
  split; [reflexivity|].
  unfold B2R. change (Prim2SF 1) with (S754_finite false 4503599627370496 (-52)).
  simpl SF2R. unfold F2R. change (-52)%Z with (- (52))%Z.
  rewrite (bpow_neg_IZR 52 ltac:(lia)).
  change (2 ^ 52)%Z with 4503599627370496%Z. field.
Qed.

Lemma two_R : B2R 2%float = 2.
Proof.
  unfold B2R. change (Prim2SF 2) with (S754_finite false 4503599627370496 (-51)).
  simpl SF2R. unfold F2R. change (-51)%Z with (- (51))%Z.
  rewrite (bpow_neg_IZR 51 ltac:(lia)).
  change (2 ^ 51)%Z with 2251799813685248%Z. field.
Qed.

Lemma unit_sample_far (i : Z) :
  (3 <= i < STEPS)%Z -> cancelling (sample1 STEPS (of_int 0) (of_int STEPS) i) = 0%float.
Proof.
  intros Hi. unfold sample1. rewrite unit_dx.
  change (@of_int float _ 0) with 0%float.
  change (@fadd float _) with PrimFloat.add. change (@fmul float _) with PrimFloat.mul.
  pose proof u64r_bounds as Hu. pose proof eta_bounds as He. pose proof bpow_900_big as Hb.
  assert (3 <= IZR i <= 100000000) as HiR.
  { split; [apply (IZR_le 3); lia|apply (IZR_le i 100000000); unfold STEPS in Hi; lia]. }
  destruct (of_int_R i) as [Hfi Hvi]; [unfold STEPS in Hi; lia|].
  destruct one_R as [Hf1 Hv1].
  assert (finite 0%float /\ B2R 0%float = 0) as [Hf0 Hv0] by (split; reflexivity).
  destruct (mul_R (of_int i) 1%float Hfi Hf1) as [Hfp Hp].
  { rewrite Hvi, Hv1, Rmult_1_r, Rabs_pos_eq by lra. lra. }
  rewrite Hvi, Hv1, Rmult_1_r, (Rabs_pos_eq (IZR i)) in Hp by lra.
  apply Rabs_le_inv in Hp.
  set (p := PrimFloat.mul (of_int i) 1%float) in *.
  destruct (add_R p 0%float Hfp Hf0) as [Hfs Hs].
  { rewrite Hv0, Rabs_R0, Rplus_0_r. apply Rle_trans with (2 * IZR i); [|lra].
    apply Rabs_le. nra. }
  rewrite Hv0, Rplus_0_r in Hs.
  assert (0 <= B2R p) as Hp0 by nra.
  rewrite (Rabs_pos_eq (B2R p)) in Hs by exact Hp0.
  apply Rabs_le_inv in Hs.
  set (x := PrimFloat.add p 0%float) in *.
  assert (5 / 2 <= B2R x) as Hx by nra.
  unfold cancelling.
  destruct (PrimFloat.eqb x 0%float) eqn:E0.
  { apply eqb_B2R in E0. rewrite Hv0 in E0. lra. }
  destruct (PrimFloat.eqb x 1%float) eqn:E1.
  { apply eqb_B2R in E1. rewrite Hv1 in E1. lra. }
  destruct (PrimFloat.eqb x 2%float) eqn:E2.
  { apply eqb_B2R in E2.
    pose proof two_R as Hv2.
    rewrite Hv2 in E2. lra. }
  reflexivity.
Qed.

(** C2 as stated fails over binary64: for the bounds [0] and [STEPS] and
    the integrand [cancelling], [integrateCrit] with two workers returns
    [1] where the sequential [integrateDefault] returns [0], so no relative
    tolerance holds. *)
Lemma strategies_disagree_binary64 :
  value_of (integrate Crit STEPS (of_int 0) (of_int STEPS) cancelling
                      (Z.to_nat (STEPS + 2)) 2 [] (Some 0%Z) [upto STEPS] start)
  = Done 1%float /\
  value_of (integrateDefault STEPS (of_int 0) (of_int STEPS) cancelling
                             (Z.to_nat (STEPS + 2)) start)
  = Done 0%float /\
  ~ Rabs (B2R 1%float - B2R 0%float) <= 1 / 1000000 * Rabs (B2R 0%float).
Proof.
  assert (3 <= STEPS)%Z as H3 by (unfold STEPS; lia).
  pose proof (cancelling_in_order
                (fun i => cancelling (sample1 STEPS (of_int 0) (of_int STEPS) i)) STEPS
                H3 eq_refl eq_refl eq_refl unit_sample_far) as Hseq.
  pose proof (cancelling_even
                (fun i => cancelling (sample1 STEPS (of_int 0) (of_int STEPS) i)) STEPS
                H3 eq_refl eq_refl unit_sample_far) as Heven.
  pose proof (cancelling_odd
                (fun i => cancelling (sample1 STEPS (of_int 0) (of_int STEPS) i)) STEPS
                H3 eq_refl unit_sample_far) as Hodd.
  cbv beta in Hseq, Heven, Hodd.
  split; [|split].
  - unfold integrate. rewrite integrateCrit_shape; try (unfold STEPS; lia).
    cbv [value_of]. rewrite unit_dx.
    change (schedule [] (workers 2)) with [0%Z; 1%Z]. cbn [fold_left].
    rewrite Heven, Hodd. reflexivity.
  - rewrite integrateDefault_shape; try (unfold STEPS; lia).
    cbv [value_of]. rewrite unit_dx.
    rewrite Hseq. reflexivity.
  - destruct one_R as [_ ->]. change (B2R 0%float) with 0.
    rewrite Rminus_0_r, Rabs_R0, Rabs_R1. lra.
Qed.

(** The benchmark is in the range of the binary64 clause. *)
Lemma benchmark_in_range :
  Rsum_over (fun i => f (sample1 STEPS A B i)) (upto STEPS) <= bpow 898 /\
  bpow (-1000)
  <= Rabs (B2R (dx STEPS A B)) * Rsum_over (fun i => f (sample1 STEPS A B i)) (upto STEPS)
  <= bpow 898.
Proof.
  pose proof samples_sum as HE. pose proof dx_R as [_ Hd].
  pose proof u64r_bounds as Hu. pose proof bpow_899_big as Hb.
  change 899%Z with (898 + 1)%Z in Hb. rewrite bpow_succ in Hb.
  assert (bpow (-1000) <= 1 / 4) as Hlow.
  { apply Rle_trans with (bpow (- (2))); [apply bpow_le; lia|].
    rewrite (bpow_neg_IZR 2) by lia. change (2 ^ 2)%Z with 4%Z. lra. }
  set (E := Rsum_over _ _) in *. set (d := B2R _) in *.
  assert (0 < d) as Hd0 by lra.
  rewrite (Rabs_pos_eq d) by lra.
  split; [lra|]. split.
  - apply Rle_trans with (1 / 4); [exact Hlow|].
    apply Rle_trans with (1 / 100000000 * 33333333); [lra|].
    assert (1 / 100000000 <= d) by lra. nra.
  - apply Rle_trans with (3 / 100000000 * 33333334); [|lra].
    assert (d <= 3 / 100000000) by lra. nra.
Qed.

(** C2 (as amended): for every worker count [T >= 1] within the range of
    the 32-bit loop counters ([N + T <= 2^31]), every scheduling, a
    successful allocation and a worksharing loop that runs each iteration
    once, every strategy returns

    - in exact arithmetic (any number type whose addition is associative
      and commutative with unit zero and whose multiplication is
      commutative: the rationals, the reals) the same value as the
      sequential [integrateDefault];

    - in binary64, when the integrand is finite and nonnegative at the
      sample points and neither the sum nor its product with [dx] leaves
      the normal range, a finite value within a relative [1e-6] of the
      value of [integrateDefault].

    For an integrand of mixed sign no relative tolerance holds. *)
Theorem strategies_agree (s : strategy) (N : Z) (fuel : nat) (T : Z)
        (choices : list nat) (base : Z) (chunks : list (list Z)) :
  (1 <= T)%Z -> (1 <= N)%Z -> (N + T <= 2 ^ 31)%Z -> (Z.to_nat (N + T) <= fuel)%nat ->
  Permutation (concat chunks) (upto N) ->
  (forall (F : Type) (AF : Arith F), Exact F -> forall (a b : F) (g : F -> F),
      exists v : F,
        value_of (integrate s N a b g fuel T choices (Some base) chunks start) = Done v /\
        value_of (integrateDefault N a b g fuel start) = Done v) /\
  (forall (a b : float) (g : float -> float),
      (N + Z.of_nat (length chunks) <= 2 ^ 31)%Z ->
      finite (dx N a b) ->
      nonneg_on (fun i => g (sample1 N a b i)) (upto N) ->
      Rsum_over (fun i => g (sample1 N a b i)) (upto N) <= bpow 898 ->
      bpow (-1000)
      <= Rabs (B2R (dx N a b)) * Rsum_over (fun i => g (sample1 N a b i)) (upto N)
      <= bpow 898 ->
      exists v v0 : float,
        value_of (integrate s N a b g fuel T choices (Some base) chunks start) = Done v /\
        value_of (integrateDefault N a b g fuel start) = Done v0 /\
        finite v /\ finite v0 /\
        Rabs (B2R v - B2R v0) <= 1 / 1000000 * Rabs (B2R v0)).
Proof.
  intros HT HN Hlim Hfuel Hchunks. split.
  - intros F AF EF a b g.
    destruct (integrate_exact N a b g s fuel T choices base chunks HT HN Hlim Hfuel Hchunks)
      as (w & Hrun & _).
    destruct (integrate_exact N a b g Default fuel T choices base chunks
                              HT HN Hlim Hfuel Hchunks)
      as (w0 & Hrun0 & _).
    exists (left_riemann_sum N a b g). simpl integrate in Hrun0.
    rewrite Hrun, Hrun0. split; reflexivity.
  - intros a b g Hlen Hfd Hnn Hsum HX.
    apply binary64_agreement; assumption.
Qed.

Lemma strategies_agree_witness :
  (exists v : Qc,
      value_of (integrate Atomic STEPS A B f (Z.to_nat (STEPS + 4)) 4 [] (Some 0%Z)
                          [upto STEPS] start) = Done v /\
      value_of (integrateDefault STEPS A B f (Z.to_nat (STEPS + 4)) start) = Done v) /\
  (exists v v0 : float,
      value_of (integrate Atomic STEPS A B f (Z.to_nat (STEPS + 4)) 4 [] (Some 0%Z)
                          [upto STEPS] start) = Done v /\
      value_of (integrateDefault STEPS A B f (Z.to_nat (STEPS + 4)) start) = Done v0 /\
      finite v /\ finite v0 /\
      Rabs (B2R v - B2R v0) <= 1 / 1000000 * Rabs (B2R v0)).
Proof.
  destruct (strategies_agree Atomic STEPS (Z.to_nat (STEPS + 4)) 4 [] 0 [upto STEPS])
    as [Hexact Hfloat].
  - lia.
  - unfold STEPS; lia.
  - unfold STEPS; lia.
  - apply le_n.
  - rewrite concat_cons, concat_nil, app_nil_r. apply Permutation_refl.
  - split.
    + apply (Hexact Qc _ _).
    + apply Hfloat.
      * cbn [length]. unfold STEPS; lia.
      * apply dx_R.
      * apply samples_nonneg.
      * apply benchmark_in_range.
      * apply benchmark_in_range.
Defined.

(** * Further properties of the code *)

#[local] Close Scope R_scope.

(** ** The Fibonacci benchmark *)

Lemma fib_SS n : fib (S (S n)) = fib (S n) + fib n.
Proof.
  unfold fib. simpl. destruct (fib_pair n) as [a b]. simpl. lia.
Qed.

Lemma fib_nonneg n : 0 <= fib n /\ 0 <= fib (S n).
Proof.
  induction n as [|n [IH1 IH2]].
  - split; vm_compute; congruence.
  - split; [exact IH2|]. rewrite fib_SS. lia.
Qed.

Lemma fib_mono n m : (n <= m)%nat -> fib n <= fib m.
Proof.
  induction 1 as [|m Hnm IH]; [lia|].
  destruct m as [|m]; [replace n with O by lia; vm_compute; congruence|].
  rewrite fib_SS. pose proof (fib_nonneg m). lia.
Qed.

(** The value: by induction on the fuel. *)
Lemma Fibonacci_mod {W} (fuel : nat) :
  forall (n : Z) (w : W), 1 <= n < 2 ^ 32 -> (Z.to_nat n <= fuel)%nat ->
    Fibonacci fuel n w = Done (fib (Z.to_nat n) mod 2 ^ 32, w).
Proof.
  induction fuel as [|fuel IH]; intros n w Hn Hfuel; [lia|].
  cbn [Fibonacci]. destruct (Z.leb_spec n 2) as [Hle|Hgt].
  - assert (n = 1 \/ n = 2) as [-> | ->] by lia; reflexivity.
  - rewrite !wrap_small by (simpl; lia).
    erewrite bind_done by (apply IH; lia).
    erewrite bind_done by (apply IH; lia).
    unfold ret. f_equal. f_equal.
    replace (Z.to_nat n) with (S (S (Z.to_nat (n - 2)))) by lia.
    rewrite fib_SS. replace (Z.to_nat (n - 1)) with (S (Z.to_nat (n - 2))) by lia.
    simpl wrap. rewrite <- Z.add_mod by lia. reflexivity.
Qed.

(** X1: [Fibonacci(n)] returns, for every [unsigned n], after at most
    [n] nested calls; its value is the Fibonacci number [F(n)] reduced
    modulo [2^32], except that [Fibonacci(0)] is 1 (it is [F(1)], not
    [F(0) = 0]). *)
Theorem Fibonacci_value {W} (fuel : nat) (n : Z) (w : W) :
  0 <= n < 2 ^ 32 -> (Z.to_nat n <= fuel)%nat ->
  Fibonacci fuel n w = Done (fib (Z.to_nat (Z.max 1 n)) mod 2 ^ 32, w).
Proof.
  intros Hn Hfuel. destruct (Z.eq_dec n 0) as [->|Hn0].
  - destruct fuel; reflexivity.
  - replace (Z.max 1 n) with n by lia. apply Fibonacci_mod; [lia|exact Hfuel].
Qed.

Lemma Fibonacci_value_witness :
  Fibonacci 10 10 tt = Done (fib (Z.to_nat (Z.max 1 10)) mod 2 ^ 32, tt).
Proof. apply (Fibonacci_value 10 10 tt); [lia|apply le_n]. Defined.

Lemma fib_47 : fib 47 = 2971215073.
Proof. vm_compute. reflexivity. Qed.

(** X2: the 32-bit sum does not wrap up to [n = 47], where
    [Fibonacci(n)] is the Fibonacci number itself; [Fibonacci(48)] is the
    first to wrap, and returns [F(48) - 2^32]. *)
Theorem Fibonacci_wraps_from_48 {W} (fuel : nat) (n : Z) (w : W) :
  1 <= n <= 47 -> (Z.to_nat n <= fuel)%nat ->
  Fibonacci fuel n w = Done (fib (Z.to_nat n), w) /\
  Fibonacci (48 + fuel) 48 w = Done (fib 48 - 2 ^ 32, w).
Proof.
  intros Hn Hfuel. split.
  - rewrite Fibonacci_mod by lia. f_equal. f_equal.
    apply Z.mod_small.
    pose proof (fib_mono (Z.to_nat n) 47 ltac:(lia)) as H. rewrite fib_47 in H.
    pose proof (fib_mono 0 (Z.to_nat n) ltac:(lia)) as H0.
    change (fib 0) with 0 in H0. lia.
  - rewrite Fibonacci_mod by lia. reflexivity.
Qed.

Lemma Fibonacci_wraps_from_48_witness :
  Fibonacci 47 47 tt = Done (fib (Z.to_nat 47), tt) /\
  Fibonacci (48 + 47) 48 tt = Done (fib 48 - 2 ^ 32, tt).
Proof. apply (Fibonacci_wraps_from_48 47 47 tt); [lia|apply le_n]. Defined.

Lemma FibonacciNew_run (fuel : nat) :
  forall (n : Z) (w : Tasks), 1 <= n < 2 ^ 32 -> (Z.to_nat n <= fuel)%nat ->
    exists w' : Tasks,
      FibonacciNew fuel n w = Done (fib (Z.to_nat n) mod 2 ^ 32, w') /\
      Z.of_nat (length (started w'))
      = Z.of_nat (length (started w)) + 2 * fib (Z.to_nat n) - 2.
Proof.
  induction fuel as [|fuel IH]; intros n w Hn Hfuel; [lia|].
  cbn [FibonacciNew]. destruct (Z.leb_spec n 2) as [Hle|Hgt].
  - exists w. assert (n = 1 \/ n = 2) as [-> | ->] by lia;
      (split; [reflexivity|]);
      [change (fib (Z.to_nat 1)) with 1|change (fib (Z.to_nat 2)) with 1]; lia.
  - rewrite !wrap_small by (simpl; lia).
    assert (fib (Z.to_nat n) = fib (Z.to_nat (n - 1)) + fib (Z.to_nat (n - 2))) as Hfib.
    { replace (Z.to_nat n) with (S (S (Z.to_nat (n - 2)))) by lia.
      rewrite fib_SS. replace (Z.to_nat (n - 1)) with (S (Z.to_nat (n - 2))) by lia.
      reflexivity. }
    assert (forall x1 x2, wrap U32 (x1 mod 2 ^ 32 + x2 mod 2 ^ 32) = (x1 + x2) mod 2 ^ 32) as Hw
        by (intros; simpl wrap; rewrite <- Z.add_mod by lia; reflexivity).
    assert (forall (m : Z) (w0 : Tasks), 1 <= m < n ->
              exists w' : Tasks,
                (task_begin m ;;; FibonacciNew fuel m) w0
                = Done (fib (Z.to_nat m) mod 2 ^ 32, w') /\
                Z.of_nat (length (started w'))
                = Z.of_nat (length (started w0)) + 2 * fib (Z.to_nat m) - 1) as Htask.
    { intros m w0 Hm. unfold bind at 1, task_begin.
      destruct (IH m {| started := started w0 ++ [m]; decisions := decisions w0 |})
        as (w' & Hrun & Hlen); [lia|lia|].
      exists w'. split; [exact Hrun|]. rewrite Hlen. simpl started.
      rewrite length_app. simpl length. lia. }
    unfold bind at 1, next_decision.
    destruct (decisions w) as [|[|] ds].
    + destruct (Htask (n - 1) w) as (w1 & Hr1 & Hl1); [lia|].
      destruct (Htask (n - 2) w1) as (w2 & Hr2 & Hl2); [lia|].
      exists w2. erewrite bind_done by exact Hr1. erewrite bind_done by exact Hr2.
      unfold ret. rewrite Hw, Hfib. split; [reflexivity|lia].
    + set (w0 := {| started := started w; decisions := ds |}).
      destruct (Htask (n - 2) w0) as (w1 & Hr1 & Hl1); [lia|].
      destruct (Htask (n - 1) w1) as (w2 & Hr2 & Hl2); [lia|].
      exists w2. erewrite bind_done by exact Hr1. erewrite bind_done by exact Hr2.
      unfold ret. rewrite Hw, Hfib. split; [reflexivity|]. simpl started in Hl1. lia.
    + set (w0 := {| started := started w; decisions := ds |}).
      destruct (Htask (n - 1) w0) as (w1 & Hr1 & Hl1); [lia|].
      destruct (Htask (n - 2) w1) as (w2 & Hr2 & Hl2); [lia|].
      exists w2. erewrite bind_done by exact Hr1. erewrite bind_done by exact Hr2.
      unfold ret. rewrite Hw, Hfib. split; [reflexivity|]. simpl started in Hl1. lia.
Qed.

(** X3: [FibonacciNew(n)] returns what [Fibonacci(n)] returns, whatever
    the order in which the runtime runs sibling tasks, and for [n >= 1] it
    runs [2 F(n) - 2] task bodies to get there. *)
Theorem FibonacciNew_is_Fibonacci (fuel : nat) (n : Z) (order : list bool) :
  1 <= n < 2 ^ 32 -> (Z.to_nat n <= fuel)%nat ->
  exists (v : Z) (w' : Tasks),
    FibonacciNew fuel n {| started := []; decisions := order |} = Done (v, w') /\
    Fibonacci fuel n tt = Done (v, tt) /\
    Z.of_nat (length (started w')) = 2 * fib (Z.to_nat n) - 2.
Proof.
  intros Hn Hfuel.
  destruct (FibonacciNew_run fuel n {| started := []; decisions := order |} Hn Hfuel)
    as (w' & Hrun & Hlen).
  exists (fib (Z.to_nat n) mod 2 ^ 32), w'.
  split; [exact Hrun|]. split; [apply Fibonacci_mod; assumption|].
  rewrite Hlen. simpl. lia.
Qed.

Lemma FibonacciNew_is_Fibonacci_witness :
  exists (v : Z) (w' : Tasks),
    FibonacciNew 30 30 {| started := []; decisions := [true; false] |} = Done (v, w') /\
    Fibonacci 30 30 tt = Done (v, tt) /\
    Z.of_nat (length (started w')) = 2 * fib (Z.to_nat 30) - 2.
Proof. apply (FibonacciNew_is_Fibonacci 30 30 [true; false]); [lia|apply le_n]. Defined.

Lemma FibonacciNew_30 (fuel : nat) (order : list bool) :
  (30 <= fuel)%nat ->
  value_of (FibonacciNew fuel 30 {| started := []; decisions := order |}) = Done 832040.
Proof.
  intros Hfuel.
  destruct (FibonacciNew_run fuel 30 {| started := []; decisions := order |})
    as (w' & Hrun & _); [lia|lia|].
  rewrite Hrun. reflexivity.
Qed.

(** X4: [experimentFibonacci] runs [FibonacciNew(30)] once for each
    thread count [1, 2, ..., P] and prints one row per run; the result
    column of every row is 832040, whatever the thread count and the order
    of the tasks. *)
Theorem experimentFibonacci_rows {F : Type} {AF : Arith F}
        (clock : nat -> F) (order : list bool) (fuel_fib fuel : nat) (P : Z) :
  (30 <= fuel_fib)%nat -> P < INT_MAX -> (Z.to_nat P <= fuel)%nat ->
  exists w' : Bench F,
    experimentFibonacci clock order fuel_fib fuel P boot = Done (tt, w') /\
    runs w' = 1 :: range 2 P /\
    map (fun row => fst (fst row)) (printed w')
    = map (fun _ => of_int 832040) (1 :: range 2 P).
Proof.
  intros Hfib HP Hfuel.
  destruct (showExperimentResults_rows clock (fun _ => of_int 832040) P fuel HP Hfuel)
    as (w' & Hrun & Hruns & Hprinted).
  exists w'. split; [|split; [exact Hruns|]].
  - unfold experimentFibonacci, runExperimentFib.
    rewrite (FibonacciNew_30 fuel_fib order Hfib). exact Hrun.
  - rewrite Hprinted, map_map. reflexivity.
Qed.

Lemma experimentFibonacci_rows_witness :
  exists w' : Bench float,
    experimentFibonacci (fun k : nat => of_int (Z.of_nat k)) [] 30 4 4 boot = Done (tt, w') /\
    runs w' = 1 :: range 2 4 /\
    map (fun row => fst (fst row)) (printed w')
    = map (fun _ => of_int 832040) (1 :: range 2 4).
Proof.
  apply (experimentFibonacci_rows (fun k : nat => of_int (Z.of_nat k)) [] 30 4 4).
  - apply le_n.
  - unfold INT_MAX. lia.
  - apply le_n.
Defined.

(** ** The sequential generator *)

Lemma lookupZ_middle {X} (pre rest : list X) (y : X) :
  lookupZ (pre ++ y :: rest) (Z.of_nat (length pre)) = Some y.
Proof.
  unfold lookupZ. destruct (Z.ltb_spec (Z.of_nat (length pre)) 0); [lia|].
  rewrite Nat2Z.id, nth_error_app2, Nat.sub_diag by lia. reflexivity.
Qed.

Lemma lookupZ_end {X} (l : list X) (i : Z) : Z.of_nat (length l) <= i -> lookupZ l i = None.
Proof.
  intros H. unfold lookupZ. destruct (Z.ltb_spec i 0); [reflexivity|].
  apply nth_error_None. lia.
Qed.

Lemma update_middle {X} (pre rest : list X) (y x : X) :
  update (pre ++ y :: rest) (length pre) x = pre ++ x :: rest.
Proof. induction pre as [|p pre IH]; simpl; [reflexivity|rewrite IH; reflexivity]. Qed.

Lemma scale_range (c : Z) : MIN <= scale c <= MAX.
Proof.
  unfold scale, MIN, MAX. pose proof (Z.mod_pos_bound c (300 - 1 + 1) ltac:(lia)). lia.
Qed.

(** One iteration of the sequential generator at index [length pre]. *)
Lemma single_step_at (pre rest : list Z) (y : Z) (k : nat) (sum : Z) :
  k = length pre ->
  single_step (Z.of_nat k) (pre ++ y :: rest, lcg k, sum) tt
  = Done (((pre ++ [scale (lcg (S k))]) ++ rest, lcg (S k), u64 (sum + scale (lcg (S k)))), tt).
Proof.
  intros ->. unfold single_step, write. rewrite lookupZ_middle.
  unfold bind at 1, ret at 1. rewrite Nat2Z.id, update_middle.
  unfold read. rewrite lookupZ_middle. unfold bind, ret.
  rewrite <- app_assoc. reflexivity.
Qed.

Lemma single_loop (m : nat) :
  forall (pre rest : list Z) (k : nat) (sum : Z),
    k = length pre -> (m <= length rest)%nat ->
    foldM single_step (map Z.of_nat (seq k m)) (pre ++ rest, lcg k, sum) tt
    = Done ((pre ++ lcg_values k m ++ skipn m rest, lcg (k + m),
             fold_left (fun s x => u64 (s + x)) (lcg_values k m) sum), tt).
Proof.
  induction m as [|m IH]; intros pre rest k sum Hk Hm.
  - simpl. unfold ret. rewrite Nat.add_0_r. reflexivity.
  - destruct rest as [|y rest]; [simpl in Hm; lia|].
    cbn [seq map foldM]. erewrite bind_done by (apply single_step_at; exact Hk).
    rewrite (IH (pre ++ [scale (lcg (S k))]) rest (S k))
      by (simpl in *; rewrite ?length_app; simpl; lia).
    unfold lcg_values. cbn [seq map fold_left skipn].
    rewrite <- app_assoc. simpl app. rewrite Nat.add_succ_r. reflexivity.
Qed.

Lemma upto_seq (n : Z) : upto n = map Z.of_nat (seq 0 (Z.to_nat n)).
Proof. reflexivity. Qed.

Lemma count_one (n : Z) : count 1 n 0 = Z.to_nat n.
Proof. unfold count. f_equal. rewrite Z.div_1_r. lia. Qed.

Lemma wrapping_sum (l : list Z) (s : Z) :
  Forall (fun x => 0 <= x <= MAX) l -> 0 <= s -> s + MAX * Z.of_nat (length l) < 2 ^ 64 ->
  fold_left (fun s x => u64 (s + x)) l s = s + Zsum l.
Proof.
  revert s. induction l as [|x l IH]; intros s Hl Hs Hb; simpl.
  - lia.
  - inversion Hl as [|? ? Hx Hl']; subst.
    change (length (x :: l)) with (S (length l)) in Hb.
    unfold u64 at 2. rewrite Z.mod_small by (unfold MAX in *; lia).
    rewrite IH; [lia|exact Hl'|lia|unfold MAX in *; lia].
Qed.

Lemma lcg_values_range (k m : nat) : Forall (fun x => MIN <= x <= MAX) (lcg_values k m).
Proof. unfold lcg_values. apply Forall_map, Forall_forall. intros j _. apply scale_range. Qed.

Lemma length_lcg_values (k m : nat) : length (lcg_values k m) = m.
Proof. unfold lcg_values. rewrite length_map, length_seq. reflexivity. Qed.

Lemma randomize_arr_single_run {F} {AF : Arith F} (fuel : nat) (V : list Z) (n : Z) :
  0 <= n <= Z.of_nat (length V) -> n + 1 <= 2 ^ 32 -> (Z.to_nat n <= fuel)%nat ->
  randomize_arr_single (F := F) fuel V n tt
  = Done ((lcg_values 0 (Z.to_nat n) ++ skipn (Z.to_nat n) V,
           mean (fold_left (fun s x => u64 (s + x)) (lcg_values 0 (Z.to_nat n)) 0) n), tt).
Proof.
  intros Hn Hlim Hfuel. unfold randomize_arr_single.
  erewrite bind_done.
  2:{ rewrite (strided_for_foldM U32); try (simpl; lia).
      - rewrite strided_one, upto_seq.
        apply (single_loop (Z.to_nat n) [] V 0); [reflexivity|lia].
      - rewrite count_one. exact Hfuel. }
  reflexivity.
Qed.

(** X5: for [n] within the array, [randomize_arr_single] stores at
    index [i < n] the [(i+1)]-th state of the generator ([x_0 = SEED],
    [x_(k+1) = a x_k + b] modulo [2^64]) reduced to [MIN .. MAX], leaves
    the rest of the array as it was, and returns the sum of the stored
    numbers (which does not wrap) divided by [n]. *)
Theorem randomize_arr_single_values {F} {AF : Arith F} (fuel : nat) (V : list Z) (n : Z) :
  0 <= n <= Z.of_nat (length V) -> n + 1 <= 2 ^ 32 -> (Z.to_nat n <= fuel)%nat ->
  randomize_arr_single (F := F) fuel V n tt
  = Done ((lcg_values 0 (Z.to_nat n) ++ skipn (Z.to_nat n) V,
           mean (Zsum (lcg_values 0 (Z.to_nat n))) n), tt).
Proof.
  intros Hn Hlim Hfuel. rewrite randomize_arr_single_run by assumption.
  rewrite wrapping_sum; [reflexivity| |lia|].
  - eapply Forall_impl; [|apply lcg_values_range]. unfold MIN. intros x Hx. lia.
  - rewrite length_lcg_values. unfold MAX. lia.
Qed.

Lemma randomize_arr_single_values_witness :
  randomize_arr_single (F := float) 2 [0; 0; 7] 2 tt
  = Done ((lcg_values 0 (Z.to_nat 2) ++ skipn (Z.to_nat 2) [0; 0; 7],
           mean (Zsum (lcg_values 0 (Z.to_nat 2))) 2), tt).
Proof.
  apply (randomize_arr_single_values (F := float) 2 [0; 0; 7] 2).
  - simpl. lia.
  - lia.
  - apply le_n.
Defined.

(** X6: after [randomize_arr_single] the array has its old length,
    every element below [n] lies in [MIN .. MAX], and every element from
    [n] on is unchanged. *)
Theorem randomize_arr_single_range {F} {AF : Arith F} (fuel : nat) (V : list Z) (n : Z) :
  0 <= n <= Z.of_nat (length V) -> n + 1 <= 2 ^ 32 -> (Z.to_nat n <= fuel)%nat ->
  exists (V' : list Z) (r : F),
    randomize_arr_single (F := F) fuel V n tt = Done ((V', r), tt) /\
    length V' = length V /\
    (forall i, 0 <= i < n -> exists x, lookupZ V' i = Some x /\ MIN <= x <= MAX) /\
    (forall i, n <= i -> lookupZ V' i = lookupZ V i).
Proof.
  intros Hn Hlim Hfuel. rewrite randomize_arr_single_run by assumption.
  eexists _, _. split; [reflexivity|].
  pose proof (length_lcg_values 0 (Z.to_nat n)) as Hlen.
  pose proof (lcg_values_range 0 (Z.to_nat n)) as Hrange.
  set (vals := lcg_values 0 (Z.to_nat n)) in *.
  split; [|split].
  - rewrite length_app, length_skipn, Hlen. lia.
  - intros i Hi. unfold lookupZ. destruct (Z.ltb_spec i 0); [lia|].
    rewrite nth_error_app1 by lia.
    destruct (nth_error vals (Z.to_nat i)) as [x|] eqn:Hx.
    + exists x. split; [reflexivity|].
      rewrite Forall_forall in Hrange. apply Hrange. eapply nth_error_In. exact Hx.
    + apply nth_error_None in Hx. lia.
  - intros i Hi. unfold lookupZ. destruct (Z.ltb_spec i 0); [lia|].
    rewrite nth_error_app2 by lia. rewrite nth_error_skipn, Hlen.
    f_equal. lia.
Qed.

Lemma randomize_arr_single_range_witness :
  exists (V' : list Z) (r : float),
    randomize_arr_single (F := float) 2 [0; 0; 7] 2 tt = Done ((V', r), tt) /\
    length V' = length [0; 0; 7] /\
    (forall i, 0 <= i < 2 -> exists x, lookupZ V' i = Some x /\ MIN <= x <= MAX) /\
    (forall i, 2 <= i -> lookupZ V' i = lookupZ [0; 0; 7] i).
Proof.
  apply (randomize_arr_single_range (F := float) 2 [0; 0; 7] 2).
  - simpl. lia.
  - lia.
  - apply le_n.
Defined.

(** The loop runs off the end of an array shorter than [n]. *)
Lemma single_overrun (rest : list Z) :
  forall (pre : list Z) (k fuel : nat) (sum n : Z),
    k = length pre ->
    Z.of_nat (k + length rest) < n ->
    Z.of_nat (k + length rest) + 1 < 2 ^ 32 ->
    (length rest < fuel)%nat ->
    strided_for U32 fuel 1 n (Z.of_nat k) single_step (pre ++ rest, lcg k, sum) tt
    = Undefined OutOfBounds.
Proof.
  induction rest as [|y rest IH]; intros pre k fuel sum n Hk Hn Hlim Hfuel;
    (destruct fuel as [|fuel]; [simpl in Hfuel; lia|]); cbn [strided_for];
    (destruct (Z.ltb_spec (Z.of_nat k) n) as [_|H]; [|simpl in Hn; lia]).
  - unfold bind at 1, single_step, write.
    rewrite lookupZ_end by (rewrite app_nil_r; lia). reflexivity.
  - erewrite bind_done by (apply single_step_at; exact Hk).
    rewrite wrap_small by (simpl in *; lia).
    replace (Z.of_nat k + 1) with (Z.of_nat (S k)) by lia.
    apply IH.
    + rewrite length_app. simpl. lia.
    + simpl in *. lia.
    + simpl in *. lia.
    + simpl in Hfuel. lia.
Qed.

(** X7: when [n] exceeds the length of the array,
    [randomize_arr_single] fills the array and then writes past its end:
    nothing checks [n] against the array. *)
Theorem randomize_arr_single_overrun {F} {AF : Arith F} (fuel : nat) (V : list Z) (n : Z) :
  Z.of_nat (length V) < n -> Z.of_nat (length V) + 1 < 2 ^ 32 -> (length V < fuel)%nat ->
  randomize_arr_single (F := F) fuel V n tt = Undefined OutOfBounds.
Proof.
  intros Hn Hlim Hfuel. unfold randomize_arr_single, bind.
  pose proof (single_overrun V [] 0 fuel 0 n eq_refl) as H.
  cbn [app lcg Z.of_nat] in H.
  rewrite H; [reflexivity|simpl; lia|simpl; lia|exact Hfuel].
Qed.

Lemma randomize_arr_single_overrun_witness :
  randomize_arr_single (F := float) 2 [0] 2 tt = Undefined OutOfBounds.
Proof.
  apply (randomize_arr_single_overrun (F := float) 2 [0] 2); simpl; lia.
Defined.

(** X8: with [n = 0], [randomize_arr_single] touches nothing and
    returns [0.0 / 0.0], a NaN, not an error. *)
Theorem randomize_arr_single_empty (fuel : nat) (V : list Z) :
  randomize_arr_single (F := float) fuel V 0 tt = Done ((V, PrimFloat.nan), tt).
Proof. destruct fuel; reflexivity. Qed.

(** ** The jump-ahead functions *)

(** [getA]'s loop multiplies by [a] once per element of its index list. *)
Lemma getA_loop (a : Z) (l : list Z) (res : Z) :
  0 <= res < 2 ^ 64 ->
  foldM (W := unit) (fun _ res => ret (u64 (res * a))) l res tt
  = Done ((res * a ^ Z.of_nat (length l)) mod 2 ^ 64, tt).
Proof.
  revert res. induction l as [|i l IH]; intros res Hres.
  - simpl. unfold ret. rewrite Z.mul_1_r, Z.mod_small by lia. reflexivity.
  - cbn [foldM]. unfold bind, ret at 1.
    rewrite IH by (unfold u64; apply Z.mod_pos_bound; lia).
    unfold u64. rewrite Z.mul_mod_idemp_l by lia.
    change (length (i :: l)) with (S (length l)).
    rewrite Nat2Z.inj_succ, Z.pow_succ_r by lia.
    f_equal. f_equal. f_equal. ring.
Qed.

Lemma getA_run (fuel : nat) (size a : Z) :
  0 <= size -> size + 2 <= 2 ^ 32 -> (Z.to_nat size <= fuel)%nat ->
  getA fuel size a tt = Done (a ^ size mod 2 ^ 64, tt).
Proof.
  intros Hs Hlim Hfuel. unfold getA.
  assert (count 1 (size + 1) 1 = Z.to_nat size) as Hc
      by (unfold count; f_equal; rewrite Z.div_1_r; lia).
  rewrite (strided_for_foldM U32); try (simpl; lia).
  rewrite getA_loop by lia. unfold strided.
  rewrite length_map, length_seq, Hc, Z2Nat.id, Z.mul_1_l by lia.
  reflexivity.
Qed.

(** X9: [getA(size, a)] is [a] to the power [size], modulo [2^64]. *)
Theorem getA_power (fuel : nat) (size a : Z) :
  0 <= size -> size + 2 <= 2 ^ 32 -> (Z.to_nat size <= fuel)%nat ->
  getA fuel size a tt = Done (a ^ size mod 2 ^ 64, tt).
Proof. apply getA_run. Qed.

Lemma getA_power_witness : getA 3 3 lcg_a tt = Done (lcg_a ^ 3 mod 2 ^ 64, tt).
Proof. apply (getA_power 3 3 lcg_a); [lia|lia|apply le_n]. Defined.

(** A counting loop whose bound no counter value reaches. *)
Lemma counter_never_leaves {W S} (body : Z -> S -> M W S) (fuel : nat) :
  (forall i s w, exists s' w', body i s w = Done (s', w')) ->
  forall (i : Z) (s : S) (w : W), 0 <= i < 2 ^ 32 ->
    strided_for U32 fuel 1 (2 ^ 32) i body s w = OutOfFuel.
Proof.
  intros Hbody. induction fuel as [|fuel IH]; intros i s w Hi; cbn [strided_for];
    (destruct (Z.ltb_spec i (2 ^ 32)) as [_|H]; [|lia]).
  - reflexivity.
  - destruct (Hbody i s w) as (s' & w' & Hb). erewrite bind_done by exact Hb.
    apply IH. simpl. apply Z.mod_pos_bound. lia.
Qed.

(** X10: [getA(UINT_MAX, a)] never returns: its loop condition
    [i <= size] holds for every value of the 32-bit counter. *)
Theorem getA_UINT_MAX_diverges (fuel : nat) (a : Z) :
  getA fuel (2 ^ 32 - 1) a tt = OutOfFuel.
Proof.
  unfold getA. replace (2 ^ 32 - 1 + 1) with (2 ^ 32) by lia.
  apply counter_never_leaves; [|lia].
  intros i s w. unfold ret. eauto.
Qed.

Lemma getB_zero (fuel : nat) (a : Z) : getB fuel 0 a tt = Done (1, tt).
Proof. destruct fuel; reflexivity. Qed.

(** X11: [getB(0, a)] is 1; for every [size >= 1], [getB] writes
    [acc[1]] in its first iteration, outside the single cell that
    [new uint64_t(size)] allocated. *)
Theorem getB_in_bounds_only_for_zero (fuel : nat) (size a : Z) :
  1 <= size ->
  getB (S fuel) 0 a tt = Done (1, tt) /\
  getB (S fuel) size a tt = Undefined OutOfBounds.
Proof.
  intros Hs. split; [apply getB_zero|apply getB_out_of_bounds; exact Hs].
Qed.

Lemma getB_in_bounds_only_for_zero_witness :
  getB 1 0 lcg_a tt = Done (1, tt) /\ getB 1 1 lcg_a tt = Undefined OutOfBounds.
Proof. apply (getB_in_bounds_only_for_zero 0 1 lcg_a). lia. Defined.

(** ** The parallel generator *)

(** With one worker both branches of the parallel generator's step compute
    the next state of the sequence. *)
Lemma fs_step_at (fuel : nat) (pre rest : list Z) (y : Z) (k : nat) :
  k = length pre -> (1 <= fuel)%nat ->
  fs_step fuel lcg_a 1 0 (Z.of_nat k) (pre ++ y :: rest, lcg k) tt
  = Done (((pre ++ [scale (lcg (S k))]) ++ rest, lcg (S k)), tt).
Proof.
  intros -> Hfuel. unfold fs_step.
  assert ((if Z.of_nat (length pre) =? 0
           then ga <- getA fuel (wrap U32 (Z.of_nat (length pre) + 1)) lcg_a ;;
                gb <- getB fuel (Z.of_nat (length pre)) lcg_a ;;
                ret (u64 (ga * lcg (length pre) + u64 (gb * lcg_b)))
           else ret (u64 (lcg_a * lcg (length pre) + 1))) tt
          = Done (lcg (S (length pre)), tt)) as Hcur.
  { destruct (Z.eqb_spec (Z.of_nat (length pre)) 0) as [H0|_]; [|reflexivity].
    rewrite H0. change (wrap U32 (0 + 1)) with 1.
    erewrite bind_done by (apply getA_run; lia).
    erewrite bind_done by apply getB_zero.
    replace (length pre) with O by lia. reflexivity. }
  erewrite bind_done by exact Hcur.
  unfold write. rewrite lookupZ_middle. unfold bind, ret.
  rewrite Nat2Z.id, update_middle, <- app_assoc. reflexivity.
Qed.

Lemma fs_loop (fuel : nat) (m : nat) :
  (1 <= fuel)%nat ->
  forall (pre rest : list Z) (k : nat),
    k = length pre -> (m <= length rest)%nat ->
    foldM (fs_step fuel lcg_a 1 0) (map Z.of_nat (seq k m)) (pre ++ rest, lcg k) tt
    = Done ((pre ++ lcg_values k m ++ skipn m rest, lcg (k + m)), tt).
Proof.
  intros Hfuel. induction m as [|m IH]; intros pre rest k Hk Hm.
  - simpl. unfold ret. rewrite Nat.add_0_r. reflexivity.
  - destruct rest as [|y rest]; [simpl in Hm; lia|].
    cbn [seq map foldM]. erewrite bind_done by (apply fs_step_at; assumption).
    rewrite (IH (pre ++ [scale (lcg (S k))]) rest (S k))
      by (simpl in *; rewrite ?length_app; simpl; lia).
    unfold lcg_values. cbn [seq map skipn].
    rewrite <- app_assoc. simpl app. rewrite Nat.add_succ_r. reflexivity.
Qed.

(** The summation loop that follows the parallel region. *)
Lemma sum_loop (mid : list Z) :
  forall (pre rest : list Z) (k : nat) (sum : Z),
    k = length pre ->
    foldM (W := unit) (fun i sum => x <- read (pre ++ mid ++ rest) i ;; ret (u64 (sum + x)))
          (map Z.of_nat (seq k (length mid))) sum tt
    = Done (fold_left (fun s x => u64 (s + x)) mid sum, tt).
Proof.
  induction mid as [|y mid IH]; intros pre rest k sum Hk.
  - reflexivity.
  - cbn [length seq map foldM fold_left].
    unfold bind at 1, read at 1.
    rewrite <- app_comm_cons, Hk, lookupZ_middle.
    unfold ret at 1, bind at 1, ret at 1.
    pose proof (IH (pre ++ [y]) rest (S (length pre)) (u64 (sum + y))) as H.
    rewrite <- app_assoc in H. apply H. rewrite length_app. simpl. lia.
Qed.

Lemma randomize_arr_fs_single_worker {F} {AF : Arith F}
      (fuel : nat) (choices : list nat) (V : list Z) (n : Z) :
  0 <= n <= Z.of_nat (length V) -> n + 1 <= 2 ^ 32 -> (Z.to_nat (n + 1) <= fuel)%nat ->
  randomize_arr_fs (F := F) fuel 1 choices V n tt
  = Done ((lcg_values 0 (Z.to_nat n) ++ skipn (Z.to_nat n) V,
           mean (fold_left (fun s x => u64 (s + x)) (lcg_values 0 (Z.to_nat n)) 0) n), tt).
Proof.
  intros Hn Hlim Hfuel. unfold randomize_arr_fs.
  erewrite bind_done by (apply getA_run; lia).
  change (wrap U32 (1 - 1)) with 0.
  erewrite bind_done by apply getB_zero.
  change (lcg_a ^ 1 mod 2 ^ 64) with lcg_a. change (u64 (1 * lcg_b)) with 1.
  change (team 1) with [0]. rewrite schedule_single. cbn [foldM].
  erewrite bind_done.
  2:{ erewrite bind_done; [reflexivity|]. unfold fs_worker.
      erewrite bind_done; [reflexivity|].
      rewrite (strided_for_foldM U32); try (simpl; lia).
      - rewrite strided_one, upto_seq.
        apply (fs_loop fuel (Z.to_nat n) ltac:(lia) [] V 0); [reflexivity|lia].
      - rewrite count_one. lia. }
  cbn [fst].
  erewrite bind_done; [reflexivity|].
  rewrite (strided_for_foldM U32); try (simpl; lia).
  - rewrite strided_one, upto_seq.
    pose proof (sum_loop (lcg_values 0 (Z.to_nat n)) [] (skipn (Z.to_nat n) V) 0 0 eq_refl) as H.
    rewrite length_lcg_values in H. exact H.
  - rewrite count_one. lia.
Qed.

(** X12: with one thread, [randomize_arr_fs] fills the array with the
    numbers [randomize_arr_single] stores and returns the same mean. *)
Theorem randomize_arr_fs_one_thread {F} {AF : Arith F}
        (fuel : nat) (choices : list nat) (V : list Z) (n : Z) :
  0 <= n <= Z.of_nat (length V) -> n + 1 <= 2 ^ 32 -> (Z.to_nat (n + 1) <= fuel)%nat ->
  exists r : list Z * F,
    randomize_arr_fs (F := F) fuel 1 choices V n tt = Done (r, tt) /\
    randomize_arr_single (F := F) fuel V n tt = Done (r, tt).
Proof.
  intros Hn Hlim Hfuel. eexists. split.
  - apply randomize_arr_fs_single_worker; assumption.
  - apply randomize_arr_single_run; [assumption|assumption|lia].
Qed.

Lemma randomize_arr_fs_one_thread_witness :
  exists r : list Z * float,
    randomize_arr_fs (F := float) 3 1 [] [0; 0] 2 tt = Done (r, tt) /\
    randomize_arr_single (F := float) 3 [0; 0] 2 tt = Done (r, tt).
Proof.
  apply (randomize_arr_fs_one_thread (F := float) 3 [] [0; 0] 2).
  - simpl. lia.
  - lia.
  - apply le_n.
Defined.

(** X13: with a thread count of zero, [randomize_arr_fs] asks for
    [getB(T - 1, a)] with [T - 1 = UINT_MAX], which writes outside its
    allocation. *)
Theorem randomize_arr_fs_zero_threads {F : Type} {AF : Arith F}
        (fuel : nat) (choices : list nat) (V : list Z) (n : Z) :
  randomize_arr_fs (F := F) (S fuel) 0 choices V n tt = Undefined OutOfBounds.
Proof.
  unfold randomize_arr_fs.
  erewrite bind_done by (unfold getA; apply strided_for_skip; lia).
  unfold bind at 1. change (wrap U32 (0 - 1)) with (2 ^ 32 - 1).
  rewrite getB_out_of_bounds by lia. reflexivity.
Qed.

(** With two or more workers the jump-ahead table cannot be built. *)
Lemma randomize_arr_fs_undefined {F : Type} {AF : Arith F}
      (fuel : nat) (T : Z) (choices : list nat) (V : list Z) (n : Z) :
  2 <= T -> T + 2 <= 2 ^ 32 -> (Z.to_nat T < fuel)%nat ->
  randomize_arr_fs (F := F) fuel T choices V n tt = Undefined OutOfBounds.
Proof.
  intros HT Hlim Hfuel. unfold randomize_arr_fs.
  erewrite bind_done by (apply getA_run; lia).
  unfold bind at 1. rewrite wrap_small by (simpl; lia).
  destruct fuel as [|fuel]; [lia|].
  rewrite getB_out_of_bounds by lia. reflexivity.
Qed.

Section RandomizeDriverFacts.
Context {F : Type} {AF : Arith F}.
Variables (clock : nat -> F) (choices : Z -> list nat) (Array : list Z) (fuel_r : nat).
Hypothesis Hlen : Z.of_nat (length Array) = ArrayLength.
Hypothesis Hfr : (Z.to_nat (ArrayLength + 1) <= fuel_r)%nat.

#[local] Abbreviation generator := (fun T => randomize_arr_fs (F := F) fuel_r T (choices T)).

Lemma call_randomizer_one :
  call_randomizer generator Array 1
  = Done (mean (fold_left (fun s x => u64 (s + x))
                          (lcg_values 0 (Z.to_nat ArrayLength)) 0) ArrayLength).
Proof.
  unfold call_randomizer.
  rewrite randomize_arr_fs_single_worker; [reflexivity| | |exact Hfr].
  - rewrite Hlen. unfold ArrayLength. lia.
  - unfold ArrayLength. lia.
Qed.

Lemma call_randomizer_two : call_randomizer generator Array 2 = Undefined OutOfBounds.
Proof.
  unfold call_randomizer.
  rewrite randomize_arr_fs_undefined; [reflexivity|lia|lia|].
  unfold ArrayLength in Hfr. lia.
Qed.

Lemma randomizeExperiment_undefined (fuel : nat) (P : Z) (w : Bench F) :
  2 <= P -> (1 <= fuel)%nat ->
  randomizeExperiment clock generator Array fuel P w = Undefined OutOfBounds.
Proof.
  intros HP Hfuel. unfold randomizeExperiment, runRandomizeExperiment.
  destruct fuel as [|fuel]; [lia|].
  unfold bind at 1 2 3, set_num_threads, runExperiment, bind, omp_get_wtime, invoke,
    printf, ret.
  cbn [num_threads ticks runs printed]. rewrite call_randomizer_one.
  cbn [sweep]. destruct (Z.leb_spec 2 P) as [_|H]; [|lia].
  unfold bind at 1 2, set_num_threads, runExperiment, bind, omp_get_wtime, invoke.
  cbn [num_threads ticks runs printed]. rewrite call_randomizer_two. reflexivity.
Qed.

Lemma randomizeExperiment_one_processor (fuel : nat) (w : Bench F) :
  exists w' : Bench F,
    randomizeExperiment clock generator Array fuel 1 w = Done (tt, w') /\
    length (printed w') = S (length (printed w)).
Proof.
  unfold randomizeExperiment, runRandomizeExperiment.
  unfold bind at 1 2 3, set_num_threads, runExperiment, bind, omp_get_wtime, invoke,
    printf, ret.
  cbn [num_threads ticks runs printed]. rewrite call_randomizer_one.
  assert (forall (T1 : F) (w0 : Bench F),
             sweep clock (call_randomizer generator Array) fuel T1 2 1 w0 = Done (tt, w0)) as Hsweep
      by (intros T1 w0; destruct fuel; reflexivity).
  rewrite Hsweep. eexists. split; [reflexivity|].
  cbn [printed]. rewrite length_app. cbn [length]. lia.
Qed.

End RandomizeDriverFacts.

(** X14: [randomizeExperiment(randomize_arr_fs)], as [main] calls it,
    on a machine with two or more processors: the run with one thread
    returns, and the run with two threads writes outside [getB]'s
    allocation, so the behaviour of the experiment is undefined. *)
Theorem randomizeExperiment_two_processors {F : Type} {AF : Arith F}
        (clock : nat -> F) (choices : Z -> list nat) (Array : list Z)
        (fuel_r fuel : nat) (P : Z) :
  2 <= P -> Z.of_nat (length Array) = ArrayLength ->
  (Z.to_nat (ArrayLength + 1) <= fuel_r)%nat -> (1 <= fuel)%nat ->
  (exists r : F,
     call_randomizer (fun T => randomize_arr_fs fuel_r T (choices T)) Array 1 = Done r) /\
  randomizeExperiment clock (fun T => randomize_arr_fs fuel_r T (choices T)) Array fuel P boot
  = Undefined OutOfBounds.
Proof.
  intros HP Hlen Hfr Hfuel. split.
  - eexists. apply call_randomizer_one; assumption.
  - apply randomizeExperiment_undefined; assumption.
Qed.

Lemma randomizeExperiment_two_processors_witness :
  (exists r : float,
     call_randomizer (fun T => randomize_arr_fs (F := float) (Z.to_nat (ArrayLength + 1)) T [])
                     (repeat 0 (Z.to_nat ArrayLength)) 1 = Done r) /\
  randomizeExperiment (fun k : nat => of_int (Z.of_nat k))
                      (fun T => randomize_arr_fs (F := float) (Z.to_nat (ArrayLength + 1)) T [])
                      (repeat 0 (Z.to_nat ArrayLength)) 1 2 boot
  = Undefined OutOfBounds.
Proof.
  apply (randomizeExperiment_two_processors (F := float)
           (fun k : nat => of_int (Z.of_nat k)) (fun _ => [])
           (repeat 0 (Z.to_nat ArrayLength)) (Z.to_nat (ArrayLength + 1)) 1 2).
  - lia.
  - rewrite repeat_length. apply Z2Nat.id. unfold ArrayLength. lia.
  - apply le_n.
  - apply le_n.
Defined.

(** ** The program *)

Lemma experimentFibonacci_run {F : Type} {AF : Arith F}
      (clock : nat -> F) (order : list bool) (fuel_fib fuel : nat) (P : Z) :
  (30 <= fuel_fib)%nat -> P < INT_MAX -> (Z.to_nat P <= fuel)%nat ->
  exists w' : Bench F,
    experimentFibonacci clock order fuel_fib fuel P boot = Done (tt, w') /\
    length (printed w') = S (length (range 2 P)).
Proof.
  intros Hfib HP Hfuel.
  destruct (showExperimentResults_rows clock (fun _ => of_int 832040) P fuel HP Hfuel)
    as (w' & Hrun & _ & Hprinted).
  exists w'. split.
  - unfold experimentFibonacci, runExperimentFib.
    rewrite (FibonacciNew_30 fuel_fib order Hfib). exact Hrun.
  - rewrite Hprinted, length_map. reflexivity.
Qed.

(** X21: the program as it stands. On a machine with two or more
    processors [main] prints the Fibonacci table and then, in the second
    run of the randomizer experiment, writes outside [getB]'s allocation:
    its behaviour is undefined. With one processor it prints two tables of
    one row each and returns 0. *)
Theorem main_undefined_with_two_processors {F : Type} {AF : Arith F}
        (clock : nat -> F) (order : list bool) (fuel_fib : nat)
        (choices : Z -> list nat) (fuel_r : nat) (Array : list Z) (fuel : nat) (P : Z) :
  Z.of_nat (length Array) = ArrayLength ->
  (30 <= fuel_fib)%nat -> (Z.to_nat (ArrayLength + 1) <= fuel_r)%nat ->
  2 <= P < INT_MAX -> (Z.to_nat P <= fuel)%nat ->
  main clock order fuel_fib choices fuel_r Array fuel P boot = Undefined OutOfBounds /\
  exists w' : Bench F,
    main clock order fuel_fib choices fuel_r Array fuel 1 boot = Done (0, w') /\
    length (printed w') = 2%nat.
Proof.
  intros Hlen Hfib Hfr HP Hfuel. split.
  - destruct (experimentFibonacci_run clock order fuel_fib fuel P) as (w1 & Hrun & _);
      [assumption|lia|assumption|].
    unfold main. erewrite bind_done by exact Hrun.
    unfold bind at 1. rewrite randomizeExperiment_undefined by (assumption || lia).
    reflexivity.
  - destruct (experimentFibonacci_run clock order fuel_fib fuel 1) as (w1 & Hrun & Hrows);
      [assumption|unfold INT_MAX; lia|lia|].
    destruct (randomizeExperiment_one_processor clock choices Array fuel_r Hlen Hfr fuel w1)
      as (w2 & Hrun2 & Hlen2).
    exists w2. unfold main. erewrite bind_done by exact Hrun.
    erewrite bind_done by exact Hrun2. split; [reflexivity|].
    rewrite Hlen2, Hrows, range_done by lia. reflexivity.
Qed.

Lemma main_undefined_with_two_processors_witness :
  main (F := float) (fun k : nat => of_int (Z.of_nat k)) [] 30 (fun _ => [])
       (Z.to_nat (ArrayLength + 1)) (repeat 0 (Z.to_nat ArrayLength)) 2 2 boot
  = Undefined OutOfBounds /\
  exists w' : Bench float,
    main (fun k : nat => of_int (Z.of_nat k)) [] 30 (fun _ => [])
         (Z.to_nat (ArrayLength + 1)) (repeat 0 (Z.to_nat ArrayLength)) 2 1 boot
    = Done (0, w') /\
    length (printed w') = 2%nat.
Proof.
  apply (main_undefined_with_two_processors (F := float)
           (fun k : nat => of_int (Z.of_nat k)) [] 30 (fun _ => [])
           (Z.to_nat (ArrayLength + 1)) (repeat 0 (Z.to_nat ArrayLength)) 2 2).
  - rewrite repeat_length. apply Z2Nat.id. unfold ArrayLength. lia.
  - apply le_n.
  - apply le_n.
  - unfold INT_MAX. lia.
  - apply le_n.
Defined.

(** ** The driver's state and its first row *)

(** A finite double minus itself is [+0.0]. *)
Lemma float_sub_self (x : float) : finite x -> PrimFloat.sub x x = PrimFloat.zero.
Proof.
  unfold finite. intros Hx. apply Prim2SF_inj. rewrite sub_spec.
  destruct (Prim2SF x) as [s|s| |s m e]; try discriminate Hx.
  - destruct s; reflexivity.
  - unfold SF64sub, SFsub. cbv zeta. rewrite Z.sub_diag. reflexivity.
Qed.

Section DriverState.
Context {F : Type} {AF : Arith F}.
Variables (clock : nat -> F) (val : Z -> F).

Lemma sweep_state T1 P fuel :
  P < INT_MAX ->
  forall T (w : Bench F),
    1 <= T -> T <= P + 1 -> (Z.to_nat (P + 1 - T) <= fuel)%nat ->
    exists w' : Bench F,
      sweep clock (fun T => Done (val T)) fuel T1 T P w = Done (tt, w') /\
      num_threads w' = (if T <=? P then P else num_threads w) /\
      ticks w' = (ticks w + 2 * Z.to_nat (P + 1 - T))%nat.
Proof.
  intros HP. induction fuel as [|fuel IH]; intros T w HT HTP Hfuel.
  - exists w. simpl. destruct (Z.leb_spec T P); [lia|].
    split; [reflexivity|]. split; [reflexivity|lia].
  - simpl. destruct (Z.leb_spec T P) as [Hle|Hgt].
    + unfold bind, set_num_threads, runExperiment, bind, omp_get_wtime, invoke, printf, ret.
      simpl. destruct (Z.eqb_spec T INT_MAX) as [->|_]; [lia|].
      edestruct (IH (T + 1)) as (w' & Hrun & Hnum & Hticks);
        [| | |exists w'; split; [exact Hrun|]].
      * lia.
      * lia.
      * lia.
      * rewrite Hnum, Hticks. simpl. split.
        -- destruct (Z.leb_spec (T + 1) P); [reflexivity|lia].
        -- lia.
    + exists w. split; [reflexivity|]. split; [reflexivity|lia].
Qed.

End DriverState.

(** X15: [showExperimentResults] does not restore the thread count: it
    returns with [max(1, P)] threads configured, having read the clock
    twice for each of its [max(1, P)] runs. *)
Theorem driver_leaves_thread_count {F : Type} {AF : Arith F}
        (clock : nat -> F) (val : Z -> F) (P : Z) (fuel : nat) :
  P < INT_MAX -> (Z.to_nat P <= fuel)%nat ->
  exists w' : Bench F,
    showExperimentResults clock (fun T => Done (val T)) fuel P boot = Done (tt, w') /\
    num_threads w' = Z.max 1 P /\
    ticks w' = (2 * Z.to_nat (Z.max 1 P))%nat.
Proof.
  intros HP Hfuel. unfold showExperimentResults.
  unfold bind at 1 2 3, set_num_threads, runExperiment, bind, omp_get_wtime, invoke,
    printf, ret. simpl.
  destruct (Z.leb_spec 2 P) as [H2|H2].
  - edestruct (sweep_state clock val (fsub (clock 1%nat) (clock 0%nat)) P fuel HP 2)
      as (w' & Hrun & Hnum & Hticks); [| | |exists w'; split; [exact Hrun|]].
    + lia.
    + lia.
    + lia.
    + rewrite Hnum, Hticks. simpl.
      destruct (Z.leb_spec 2 P); [|lia]. split; lia.
  - eexists. split.
    + destruct fuel; simpl; destruct (Z.leb_spec 2 P); try lia; reflexivity.
    + simpl. split; [lia|].
      replace (Z.max 1 P) with 1 by lia. reflexivity.
Qed.

Lemma driver_leaves_thread_count_witness :
  exists w' : Bench float,
    showExperimentResults (fun k : nat => of_int (Z.of_nat k)) (fun T => Done (of_int T))
                          4 4 boot = Done (tt, w') /\
    num_threads w' = Z.max 1 4 /\
    ticks w' = (2 * Z.to_nat (Z.max 1 4))%nat.
Proof.
  apply (driver_leaves_thread_count (fun k : nat => of_int (Z.of_nat k)) (fun T => of_int T) 4 4).
  - unfold INT_MAX. lia.
  - apply le_n.
Defined.

(** X16: when the clock does not advance during the first run (two
    equal finite readings), the time printed for it is [0.0] and its
    acceleration is [0.0 / 0.0], a NaN. *)
Theorem driver_zero_time_is_nan (clock : nat -> float) (val : Z -> float) (P : Z) (fuel : nat) :
  P < INT_MAX -> (Z.to_nat P <= fuel)%nat ->
  finite (clock 0%nat) -> clock 1%nat = clock 0%nat ->
  exists (w' : Bench float) (rows : list (float * float * float)),
    showExperimentResults clock (fun T => Done (val T)) fuel P boot = Done (tt, w') /\
    printed w' = (val 1, PrimFloat.zero, PrimFloat.nan) :: rows.
Proof.
  intros HP Hfuel Hfin Heq.
  destruct (showExperimentResults_rows clock val P fuel HP Hfuel) as (w' & Hrun & _ & Hprinted).
  exists w'. eexists. split; [exact Hrun|].
  rewrite Hprinted. cbn [map]. change (Z.to_nat (1 - 1)) with O.
  unfold elapsed. cbn [Nat.mul Nat.add]. rewrite Heq.
  change (fsub (clock 0%nat) (clock 0%nat)) with (PrimFloat.sub (clock 0%nat) (clock 0%nat)).
  rewrite (float_sub_self _ Hfin). reflexivity.
Qed.

Lemma driver_zero_time_is_nan_witness :
  exists (w' : Bench float) (rows : list (float * float * float)),
    showExperimentResults (fun _ : nat => PrimFloat.one) (fun T => Done (of_int T)) 2 2 boot
    = Done (tt, w') /\
    printed w' = (of_int 1, PrimFloat.zero, PrimFloat.nan) :: rows.
Proof.
  apply (driver_zero_time_is_nan (fun _ : nat => PrimFloat.one) (fun T => of_int T) 2 2).
  - unfold INT_MAX. lia.
  - apply le_n.
  - reflexivity.
  - reflexivity.
Defined.

(** ** Threads and schedules *)

(** X17: the threads a strategy creates with [std::thread]:
    [integrateMutex] creates [T], numbered [0 .. T-1]; [integratePS] and
    [integrateAtomic] create [T - 1], numbered [1 .. T-1], and run worker 0
    on the calling thread; the OpenMP strategies and [integrateDefault]
    create none. *)
Theorem threads_created {F : Type} {AF : Arith F}
        (s : strategy) (N : Z) (a b : F) (g : F -> F)
        (fuel : nat) (T : Z) (choices : list nat) (base : Z) (chunks : list (list Z)) :
  1 <= T -> 1 <= N -> N + T <= 2 ^ 31 -> (Z.to_nat (N + T) <= fuel)%nat ->
  exists (v : F) (w' : World F),
    integrate s N a b g fuel T choices (Some base) chunks start = Done (v, w') /\
    spawned w' = match s with
                 | Mutex => range 0 (T - 1)
                 | PS | Atomic => range 1 (T - 1)
                 | _ => []
                 end.
Proof.
  intros HT HN Hlim Hfuel. unfold range. replace (T - 1 + 1) with T by ring.
  destruct s; simpl integrate; eexists _, _.
  - rewrite integrateDefault_shape by lia. split; reflexivity.
  - rewrite integrateCrit_shape by lia. split; reflexivity.
  - rewrite integrateMutex_shape by lia. split; [reflexivity|].
    simpl. rewrite strided_one. reflexivity.
  - rewrite integrateArr_shape by lia. split; reflexivity.
  - rewrite integrateArrAlign_shape by lia. split; reflexivity.
  - rewrite integrateReduction_shape. split; reflexivity.
  - rewrite integratePS_shape by lia. split; reflexivity.
  - rewrite integrateAtomic_shape by lia. split; reflexivity.
Qed.

Lemma threads_created_witness :
  exists (v : float) (w' : World float),
    integrate Mutex STEPS A B f (Z.to_nat (STEPS + 4)) 4 [] (Some 0) [] start = Done (v, w') /\
    spawned w' = range 0 (4 - 1).
Proof.
  apply (threads_created Mutex STEPS A B f (Z.to_nat (STEPS + 4)) 4 [] 0 []).
  - lia.
  - unfold STEPS. lia.
  - unfold STEPS. lia.
  - apply le_n.
Defined.

(** X18: the strategies that keep one slot per worker, [integrateArr],
    [integrateArrAlign] and [integratePS], return one and the same number,
    also over binary64 and whatever the schedule and the address of the
    buffer: each adds the slots up in index order. *)
Theorem slot_strategies_agree {F : Type} {AF : Arith F}
        (N : Z) (a b : F) (g : F -> F)
        (fuel : nat) (T : Z) (choices1 choices2 choices3 : list nat) (base base' : Z) :
  1 <= T -> 1 <= N -> N + T <= 2 ^ 31 -> (Z.to_nat (N + T) <= fuel)%nat ->
  exists v : F,
    value_of (integrateArr N a b g fuel T choices1 (Some base) start) = Done v /\
    value_of (integrateArrAlign N a b g fuel T choices2 (Some base') start) = Done v /\
    value_of (integratePS N a b g fuel T choices3 start) = Done v.
Proof.
  intros HT HN Hlim Hfuel. eexists.
  rewrite integrateArr_shape, integrateArrAlign_shape, integratePS_shape by lia.
  repeat split; reflexivity.
Qed.

Lemma slot_strategies_agree_witness :
  exists v : float,
    value_of (integrateArr STEPS A B f (Z.to_nat (STEPS + 4)) 4 [1%nat] (Some 0) start)
    = Done v /\
    value_of (integrateArrAlign STEPS A B f (Z.to_nat (STEPS + 4)) 4 [2%nat] (Some 64) start)
    = Done v /\
    value_of (integratePS STEPS A B f (Z.to_nat (STEPS + 4)) 4 [] start) = Done v.
Proof.
  apply (slot_strategies_agree STEPS A B f (Z.to_nat (STEPS + 4)) 4 [1%nat] [2%nat] [] 0 64).
  - lia.
  - unfold STEPS. lia.
  - unfold STEPS. lia.
  - apply le_n.
Defined.

(** The OpenMP strategies with a team of one. *)
Lemma single_team_same (N : Z) (a b : float) (g : float -> float)
      (fuel : nat) (choices : list nat) (base : Z) :
  1 <= N -> N + 1 <= 2 ^ 31 -> (Z.to_nat (N + 1) <= fuel)%nat ->
  exists (v : float) (w : World float),
    integrateDefault N a b g fuel start = Done (v, w) /\
    integrateCrit N a b g fuel 1 choices start = Done (v, w) /\
    integrateArr N a b g fuel 1 choices (Some base) start = Done (v, w) /\
    integrateArrAlign N a b g fuel 1 choices (Some base) start = Done (v, w) /\
    integrateReduction N a b g [upto N] start = Done (v, w).
Proof.
  intros HN Hlim Hfuel.
  exists (fmul (fold_left (fun R i => fadd R (g (sample1 N a b i))) (upto N) fzero)
               (dx N a b)),
         (logged start (map (fun i => (i, sample1 N a b i)) (upto N))).
  split; [apply integrateDefault_shape; lia|].
  split; [|split; [|split]].
  - rewrite integrateCrit_shape by lia.
    change (workers 1) with [0]. rewrite schedule_single.
    rewrite (single_worker_log N a b (sample1 N a b)) by reflexivity.
    cbn [fold_left].
    rewrite (single_worker_sum N a b g (sample1 N a b)) by reflexivity.
    reflexivity.
  - rewrite integrateArr_shape by lia.
    change (workers 1) with [0]. rewrite schedule_single.
    rewrite (single_worker_log N a b (sample2 N a b)) by apply sample2_sample1_float.
    change (upto 1) with [0]. cbn [map fold_left].
    rewrite (single_worker_sum N a b g (sample2 N a b)) by apply sample2_sample1_float.
    reflexivity.
  - rewrite integrateArrAlign_shape by lia.
    change (workers 1) with [0]. rewrite schedule_single.
    rewrite (single_worker_log N a b (sample2 N a b)) by apply sample2_sample1_float.
    change (upto 1) with [0]. cbn [map fold_left].
    rewrite (single_worker_sum N a b g (sample2 N a b)) by apply sample2_sample1_float.
    reflexivity.
  - rewrite integrateReduction_shape.
    cbn [fold_left]. rewrite <- (strided_one N).
    rewrite (single_worker_sum N a b g (sample2 N a b)) by apply sample2_sample1_float.
    pose proof (single_worker_log N a b (sample2 N a b) start (sample2_sample1_float N a b)) as Hlog.
    cbn [map concat] in Hlog. cbn [concat]. rewrite Hlog, ?strided_one. reflexivity.
Qed.

(** X22: with one worker, over binary64, [integrateCrit], [integrateArr],
    [integrateArrAlign] and [integrateReduction] (its one chunk being the
    whole loop) call the integrand at the arguments and in the order of
    [integrateDefault], and return the very double it returns. *)
Theorem single_worker_bitwise_openmp (a b : float) (g : float -> float)
        (fuel : nat) (choices : list nat) (base : Z) :
  (Z.to_nat (STEPS + 1) <= fuel)%nat ->
  exists (v : float) (w : World float),
    integrateDefault STEPS a b g fuel start = Done (v, w) /\
    integrateCrit STEPS a b g fuel 1 choices start = Done (v, w) /\
    integrateArr STEPS a b g fuel 1 choices (Some base) start = Done (v, w) /\
    integrateArrAlign STEPS a b g fuel 1 choices (Some base) start = Done (v, w) /\
    integrateReduction STEPS a b g [upto STEPS] start = Done (v, w).
Proof.
  intros Hfuel. apply single_team_same.
  - unfold STEPS; lia.
  - unfold STEPS; lia.
  - exact Hfuel.
Qed.

Lemma single_worker_bitwise_openmp_witness :
  exists (v : float) (w : World float),
    integrateDefault STEPS A B f (Z.to_nat (STEPS + 1)) start = Done (v, w) /\
    integrateCrit STEPS A B f (Z.to_nat (STEPS + 1)) 1 [] start = Done (v, w) /\
    integrateArr STEPS A B f (Z.to_nat (STEPS + 1)) 1 [] (Some 0) start = Done (v, w) /\
    integrateArrAlign STEPS A B f (Z.to_nat (STEPS + 1)) 1 [] (Some 0) start = Done (v, w) /\
    integrateReduction STEPS A B f [upto STEPS] start = Done (v, w).
Proof.
  apply (single_worker_bitwise_openmp A B f (Z.to_nat (STEPS + 1)) [] 0). apply le_n.
Defined.

(** ** The exact value of the benchmark *)

Lemma Qc_of_int_succ (z : Z) : of_int (F := Qc) (z + 1) = (of_int z + 1)%Qc.
Proof.
  change (Q2Qc (inject_Z (z + 1)) = (Q2Qc (inject_Z z) + 1)%Qc).
  apply Qc_is_canon. unfold Qcplus, Q2Qc. cbn [this].
  rewrite !Qred_correct, inject_Z_plus. reflexivity.
Qed.

Lemma Qc_of_int_0 : of_int (F := Qc) 0 = 0%Qc.
Proof. apply Qc_is_canon. reflexivity. Qed.

Lemma Qc_two : Q2Qc 2 = (1 + 1)%Qc.
Proof. apply Qc_is_canon. reflexivity. Qed.

Lemma Qc_six : Q2Qc 6 = ((1 + 1) * (1 + 1 + 1))%Qc.
Proof. apply Qc_is_canon. reflexivity. Qed.

(** Six times the sum of [(A + i d)^2] over [i = 0 .. n-1]. *)
Lemma Qc_sum_of_squares (d : Qc) (n : nat) :
  (Q2Qc 6 * sum_list (map (fun i => f (fadd A (fmul (of_int i) d))) (map Z.of_nat (seq 0 n)))
   = Q2Qc 6 * of_int (Z.of_nat n)
     - Q2Qc 6 * d * of_int (Z.of_nat n) * (of_int (Z.of_nat n) - 1)
     + d * d * (of_int (Z.of_nat n) - 1) * of_int (Z.of_nat n)
       * (Q2Qc 2 * of_int (Z.of_nat n) - 1))%Qc.
Proof.
  induction n as [|n IH].
  - cbn [seq map sum_list fold_right]. change (Z.of_nat 0) with 0.
    rewrite Qc_of_int_0. change (@fzero Qc _) with 0%Qc. ring.
  - rewrite seq_S, !map_app, sum_list_app.
    change (@fadd Qc _) with Qcplus in *. rewrite Qcmult_plus_distr_r, IH.
    rewrite Nat2Z.inj_succ. unfold Z.succ. rewrite Qc_of_int_succ.
    cbn [seq map Nat.add app]. unfold sum_list. cbn [fold_right].
    generalize (of_int (F := Qc) (Z.of_nat n)). intros q.
    unfold f, A.
    change (@of_int Qc _ (-1)) with (- (1))%Qc.
    change (@fzero Qc _) with 0%Qc.
    change (@fadd Qc _) with Qcplus. change (@fmul Qc _) with Qcmult.
    rewrite Qc_two, Qc_six. ring.
Qed.

Lemma Qc_of_int_nonzero (N : Z) : 1 <= N -> of_int (F := Qc) N <> 0%Qc.
Proof.
  intros HN H. change (Q2Qc (inject_Z N) = Q2Qc 0) in H.
  apply (f_equal this) in H. unfold Q2Qc in H. cbn [this] in H.
  assert (inject_Z N == 0)%Q as H0 by (rewrite <- (Qred_correct (inject_Z N)), H; reflexivity).
  unfold Qeq in H0. simpl in H0. lia.
Qed.

Lemma Qc_two_thirds : Q2Qc (2 # 3) = ((1 + 1) / (1 + 1 + 1))%Qc.
Proof. apply Qc_is_canon. reflexivity. Qed.

Lemma Qc_four_thirds : Q2Qc (4 # 3) = ((1 + 1) * (1 + 1) / (1 + 1 + 1))%Qc.
Proof. apply Qc_is_canon. reflexivity. Qed.

(** The left Riemann sum of [x^2] on [-1, 1] with [N] samples, exactly. *)
Lemma Qc_left_riemann_sum (N : Z) :
  1 <= N ->
  left_riemann_sum (F := Qc) N A B f
  = (Q2Qc (2 # 3) + Q2Qc (4 # 3) / (of_int N * of_int N))%Qc.
Proof.
  intros HN. unfold left_riemann_sum, upto.
  pose proof (Qc_sum_of_squares (dx N A B) (Z.to_nat N)) as H6.
  rewrite Z2Nat.id in H6 by lia.
  pose proof (Qc_of_int_nonzero N HN) as HNq.
  set (S := sum_list _) in *.
  assert (dx (F := Qc) N A B = ((1 + 1) / of_int N)%Qc) as Hd.
  { unfold dx, A, B. change (@fdiv Qc _) with Qcdiv. change (@fsub Qc _) with Qcminus.
    change (@of_int Qc _ 1) with 1%Qc. change (@of_int Qc _ (-1)) with (- (1))%Qc.
    field. exact HNq. }
  rewrite Hd in *. clearbody S.
  change (@fmul Qc _) with Qcmult.
  rewrite Qc_two, Qc_six in H6. rewrite Qc_two_thirds, Qc_four_thirds.
  clear Hd. generalize dependent (of_int (F := Qc) N). intros q H6 Hq.
  assert (S = ((1 + 1) * (1 + 1 + 1) * S) / ((1 + 1) * (1 + 1 + 1)))%Qc as HS
      by (field; repeat split; discriminate).
  rewrite HS, H6. field. repeat split; (exact Hq || discriminate).
Qed.

(** X19: in exact (rational) arithmetic every strategy returns
    [2/3 + (4/3) / STEPS^2] for the benchmark's integrand and bounds: the
    left Riemann sum exceeds the integral by [4 / (3 N^2)]. *)
Theorem exact_value_of_benchmark (s : strategy) (fuel : nat) (T : Z)
        (choices : list nat) (base : Z) (chunks : list (list Z)) :
  1 <= T -> STEPS + T <= 2 ^ 31 -> (Z.to_nat (STEPS + T) <= fuel)%nat ->
  Permutation (concat chunks) (upto STEPS) ->
  experiment (F := Qc) s fuel choices (Some base) chunks T
  = Done (Q2Qc (2 # 3) + Q2Qc (4 # 3) / (of_int STEPS * of_int STEPS))%Qc.
Proof.
  intros HT Hlim Hfuel Hchunks.
  assert (1 <= STEPS) as HN by (unfold STEPS; lia).
  destruct (integrate_exact STEPS A B f s fuel T choices base chunks HT HN Hlim Hfuel Hchunks)
    as (w' & Hrun & _).
  unfold experiment. rewrite Hrun. cbv [value_of].
  rewrite (Qc_left_riemann_sum STEPS HN). reflexivity.
Qed.

Lemma exact_value_of_benchmark_witness :
  experiment (F := Qc) Reduction (Z.to_nat (STEPS + 4)) [] (Some 0) [upto STEPS] 4
  = Done (Q2Qc (2 # 3) + Q2Qc (4 # 3) / (of_int STEPS * of_int STEPS))%Qc.
Proof.
  apply (exact_value_of_benchmark Reduction (Z.to_nat (STEPS + 4)) 4 [] 0 [upto STEPS]).
  - lia.
  - unfold STEPS. lia.
  - apply le_n.
  - rewrite concat_cons, concat_nil, app_nil_r. apply Permutation_refl.
Defined.

(** ** The table of the benchmark *)

Section DriverExt.
Context {F : Type} {AF : Arith F}.
Variable clock : nat -> F.

(** The sweep calls the integrator with the thread counts [T .. P] only. *)
Lemma sweep_ext (I I' : Z -> outcome F) T1 P fuel :
  forall T (w : Bench F),
    (forall t, T <= t <= P -> I t = I' t) ->
    sweep clock I fuel T1 T P w = sweep clock I' fuel T1 T P w.
Proof.
  induction fuel as [|fuel IH]; intros T w Hext; [reflexivity|].
  cbn [sweep]. destruct (Z.leb_spec T P) as [Hle|Hgt]; [|reflexivity].
  unfold bind, set_num_threads, runExperiment, bind, omp_get_wtime, invoke, printf, ret.
  cbn [num_threads ticks runs printed result time].
  rewrite <- (Hext T) by lia. destruct (I T) as [v| |]; [|reflexivity|reflexivity].
  cbn [result time].
  destruct (Z.eqb_spec T INT_MAX); [reflexivity|].
  apply IH. intros t Ht. apply Hext. lia.
Qed.

Lemma showExperimentResults_ext (I I' : Z -> outcome F) P fuel :
  I 1 = I' 1 -> (forall t, 2 <= t <= P -> I t = I' t) ->
  showExperimentResults clock I fuel P boot = showExperimentResults clock I' fuel P boot.
Proof.
  intros H1 Hext. unfold showExperimentResults.
  unfold bind, set_num_threads, runExperiment, bind, omp_get_wtime, invoke, printf, ret.
  cbn [boot num_threads ticks runs printed result time].
  rewrite <- H1. destruct (I 1) as [v| |]; [|reflexivity|reflexivity].
  cbn [result time].
  apply sweep_ext. exact Hext.
Qed.

End DriverExt.

Lemma in_range lo hi x : In x (range lo hi) -> lo <= x <= hi.
Proof.
  unfold range, strided. rewrite in_map_iff. intros (j & <- & Hj).
  apply in_seq in Hj. assert (j < count 1 (hi + 1) lo)%nat as Hc by lia.
  apply count_spec in Hc; lia.
Qed.

#[local] Open Scope R_scope.

(** The value of one run of a strategy over binary64. *)
Lemma experiment_value_binary64 (s : strategy) (fuel : nat) (T : Z)
      (choices : list nat) (base : Z) (chunks : list (list Z)) :
  (1 <= T)%Z -> (T + STEPS <= 2 ^ 31)%Z -> (Z.to_nat (STEPS + T) <= fuel)%nat ->
  Permutation (concat chunks) (upto STEPS) ->
  (Z.of_nat (length chunks) <= 2 ^ 31)%Z ->
  exists v : float,
    experiment s fuel choices (Some base) chunks T = Done v /\
    finite v /\ Rabs (B2R v - 2 / 3) <= 1 / 1000000.
Proof.
  intros HT Hlim Hfuel Hchunks Hlen.
  assert (1 <= STEPS)%Z as HN by (unfold STEPS; lia).
  assert (STEPS + T <= 2 ^ 31)%Z as Hlim' by lia.
  assert (STEPS + T <= 2 ^ 32)%Z as Hlim32 by lia.
  assert (STEPS + 1 <= 2 ^ 32)%Z as Hlim1 by lia.
  assert (Z.to_nat STEPS <= fuel)%nat as Hfuel1 by lia.
  assert (Permutation (schedule choices (workers T)) (workers T)) as Hsched
      by apply schedule_perm.
  assert (Permutation (schedule choices (strided 1 T 1 ++ [0%Z])) (workers T)) as Hsched'
      by (etransitivity; [apply schedule_perm|apply threads_and_main; lia]).
  unfold experiment.
  destruct s; unfold integrate; eexists.
  - rewrite integrateDefault_shape by assumption. cbv [value_of]. split; [reflexivity|].
    exact sequential_value.
  - rewrite integrateCrit_shape by assumption. cbv [value_of]. split; [reflexivity|].
    apply (workers_value T); assumption.
  - rewrite integrateMutex_shape by assumption. cbv [value_of]. split; [reflexivity|].
    apply (workers_value T); assumption.
  - rewrite integrateArr_shape by assumption. cbv [value_of]. split; [reflexivity|].
    apply (slots_value T); assumption.
  - rewrite integrateArrAlign_shape by assumption. cbv [value_of]. split; [reflexivity|].
    apply (slots_value T); assumption.
  - rewrite integrateReduction_shape. cbv [value_of]. split; [reflexivity|].
    apply chunks_value; assumption.
  - rewrite integratePS_shape by assumption. cbv [value_of]. split; [reflexivity|].
    apply (slots_value T); assumption.
  - rewrite integrateAtomic_shape by assumption. cbv [value_of]. split; [reflexivity|].
    apply (workers_value T); assumption.
Qed.

(** X20: the table [showExperimentResults] prints for a strategy on a
    machine with [P] processors has [P] rows, and the result column of
    every row is a finite double within [1e-6] of [2/3]. *)
Theorem benchmark_table_within_tolerance
        (clock : nat -> float) (s : strategy) (fuel_i : nat) (choices : Z -> list nat)
        (base : Z) (chunks : Z -> list (list Z)) (P : Z) (fuel : nat) :
  (1 <= P)%Z -> (P + STEPS <= 2 ^ 31)%Z ->
  (Z.to_nat (STEPS + P) <= fuel_i)%nat -> (Z.to_nat P <= fuel)%nat ->
  (forall T, Permutation (concat (chunks T)) (upto STEPS) /\
             (Z.of_nat (length (chunks T)) <= 2 ^ 31)%Z) ->
  exists w' : Bench float,
    showExperimentResults clock
      (fun T => experiment s fuel_i (choices T) (Some base) (chunks T) T) fuel P boot
    = Done (tt, w') /\
    length (printed w') = Z.to_nat P /\
    Forall (fun row => finite (fst (fst row)) /\
                       Rabs (B2R (fst (fst row)) - 2 / 3) <= 1 / 1000000)
           (printed w').
Proof.
  intros HP Hlim Hfi Hfuel Hchunks.
  set (I := fun T => experiment s fuel_i (choices T) (Some base) (chunks T) T).
  set (val := fun T => match I T with Done v => v | _ => PrimFloat.zero end).
  assert (forall T, (1 <= T <= P)%Z ->
            I T = Done (val T) /\ finite (val T) /\
            Rabs (B2R (val T) - 2 / 3) <= 1 / 1000000) as Hval.
  { intros T HT.
    destruct (experiment_value_binary64 s fuel_i T (choices T) base (chunks T))
      as (v & Hv & Hfin & Hclose); try lia; try apply Hchunks.
    unfold val. fold (I T) in Hv. rewrite Hv. auto. }
  assert (P < INT_MAX)%Z as HPmax by (unfold INT_MAX, STEPS in *; lia).
  destruct (showExperimentResults_rows clock val P fuel HPmax Hfuel)
    as (w' & Hrun & Hruns & Hprinted).
  exists w'. split; [|split].
  - rewrite <- Hrun. apply showExperimentResults_ext.
    + apply Hval. lia.
    + intros t Ht. apply Hval. lia.
  - rewrite Hprinted, length_map. cbn [length]. unfold range.
    rewrite length_strided. unfold count.
    replace ((P + 1 - 2 + 1 - 1) / 1)%Z with (P - 1)%Z by (rewrite Z.div_1_r; lia). lia.
  - rewrite Hprinted. apply Forall_map, Forall_forall. intros T HT. cbn [fst].
    apply Hval. destruct HT as [<-|HT]; [lia|]. apply in_range in HT. lia.
Qed.

Lemma benchmark_table_within_tolerance_witness :
  exists w' : Bench float,
    showExperimentResults (fun k : nat => of_int (Z.of_nat k))
      (fun T => experiment Crit (Z.to_nat (STEPS + 2)) [] (Some 0%Z) [upto STEPS] T) 2 2 boot
    = Done (tt, w') /\
    length (printed w') = Z.to_nat 2 /\
    Forall (fun row => finite (fst (fst row)) /\
                       Rabs (B2R (fst (fst row)) - 2 / 3) <= 1 / 1000000)
           (printed w').
Proof.
  apply (benchmark_table_within_tolerance
           (fun k : nat => of_int (Z.of_nat k)) Crit (Z.to_nat (STEPS + 2))
           (fun _ => []) 0%Z (fun _ => [upto STEPS]) 2 2).
  - lia.
  - unfold STEPS. lia.
  - apply le_n.
  - apply le_n.
  - intros T. split.
    + rewrite concat_cons, concat_nil, app_nil_r. apply Permutation_refl.
    + cbn [length]. lia.
Defined.

(** ** A thread count of zero in the parallel regions *)

#[local] Close Scope R_scope.

(** X23: with a thread count of zero the parallel regions still run on
    thread 0, whose loop has stride zero. In [integrateCrit] it never
    terminates; in [integrateArr] its first step writes [accum[0]] of an
    allocation of zero cells. *)
Theorem zero_stride_in_parallel_region {F : Type} {AF : Arith F}
        (a b : F) (g : F -> F) (fuel : nat) (choices : list nat) (base : Z) :
  integrateCrit STEPS a b g fuel 0 choices start = OutOfFuel /\
  integrateArr STEPS a b g (S fuel) 0 choices (Some base) start = Undefined OutOfBounds.
Proof.
  split.
  - unfold integrateCrit. change (team 0) with [0]. rewrite schedule_single.
    simpl foldM. unfold bind at 1 2, private_then_combine, bind at 1.
    rewrite (zero_stride_diverges U32); [reflexivity|unfold STEPS; lia|simpl; lia|].
    intros s w. unfold accumulate, bind, call_f, ret. eauto.
  - unfold integrateArr. change (team 0) with [0]. rewrite schedule_single.
    reflexivity.
Qed.
